(** * three-fluid-sim: the solver passes and the render loop

    A shallow embedding of the fragment shaders of the solver passes
    (boundary, obstacle mask, divergence, Jacobi pressure iterations,
    gradient subtraction, measurement), of the [update] methods of the
    render passes and of the solver segment of the render loop.

    Numbers.  GLSL [float] and JavaScript [number] values are embedded as
    exact rationals ([Q]); results are compared with [==].  A [sampler2D] is
    the function that a texture lookup computes, so filtering and wrap modes
    stay on the sampler's side.  The derivative pair
    [vec2(dFdx(vUV.x), dFdy(vUV.y))] of a full-screen pass is an input of
    the fragment, [texelSize]. *)

From Stdlib Require Import QArith Qround Qabs Lqa ZArith Lia List.
From stdpp Require Import gmap strings.

Open Scope Q_scope.

(** ** GLSL built-ins and vectors *)

Module GLSL.

Definition ltb (a b : Q) : bool :=
  match a ?= b with Lt => true | _ => false end.
Definition gtb (a b : Q) : bool := ltb b a.
Definition leb (a b : Q) : bool := negb (ltb b a).
Definition geb (a b : Q) : bool := negb (ltb a b).

Definition min (a b : Q) : Q := if ltb b a then b else a.
Definition max (a b : Q) : Q := if ltb a b then b else a.
Definition clamp (x minVal maxVal : Q) : Q := min (max x minVal) maxVal.
Definition mix (a b t : Q) : Q := a * (1 - t) + b * t.
Definition step (edge x : Q) : Q := if ltb x edge then 0 else 1.
Definition abs (a : Q) : Q := if ltb a 0 then - a else a.
Definition floor (a : Q) : Q := inject_Z (Qfloor a).
Definition ceil (a : Q) : Q := inject_Z (Qceiling a).
Definition mod_ (a b : Q) : Q := a - b * floor (a / b).
Definition float (n : Z) : Q := inject_Z n.

Record vec2 := Vec2 { x : Q; y : Q }.
Record vec4 := Vec4 { r : Q; g : Q; b : Q; a : Q }.

Definition vec4_1 (s : Q) : vec4 := Vec4 s s s s.
Definition add2 (u v : vec2) : vec2 := Vec2 (x u + x v) (y u + y v).
Definition sub2 (u v : vec2) : vec2 := Vec2 (x u - x v) (y u - y v).
Definition add4 (u v : vec4) : vec4 :=
  Vec4 (r u + r v) (g u + g v) (b u + b v) (a u + a v).
Definition scale4 (u : vec4) (s : Q) : vec4 :=
  Vec4 (r u * s) (g u * s) (b u * s) (a u * s).

Definition veq2 (u v : vec2) : Prop := x u == x v /\ y u == y v.
Definition veq4 (u v : vec4) : Prop :=
  r u == r v /\ g u == g v /\ b u == b v /\ a u == a v.

Definition sampler2D : Type := vec2 -> vec4.
Definition texture2D (s : sampler2D) (uv : vec2) : vec4 := s uv.

(** The four neighbours of a fragment, one texel away. *)
Definition uvLeft (texelSize vUV : vec2) : vec2 := sub2 vUV (Vec2 (x texelSize) 0).
Definition uvRight (texelSize vUV : vec2) : vec2 := add2 vUV (Vec2 (x texelSize) 0).
Definition uvDown (texelSize vUV : vec2) : vec2 := sub2 vUV (Vec2 0 (y texelSize)).
Definition uvUp (texelSize vUV : vec2) : vec2 := add2 vUV (Vec2 0 (y texelSize)).

End GLSL.
Import GLSL.

Infix "<?" := ltb (at level 70) : Q_scope.
Infix ">?" := gtb (at level 70) : Q_scope.
Infix "<=?" := leb (at level 70) : Q_scope.
Infix ">=?" := geb (at level 70) : Q_scope.

(** ** The grid seen from a fragment

    A [W] x [H] render target has one fragment per cell; the fragment of
    cell (i, j) has its [vUV] at the cell centre and a texel is one cell. *)

Definition cell_uv (W H : positive) (i j : Z) : vec2 :=
  Vec2 ((inject_Z i + (1 # 2)) / inject_Z (Zpos W))
       ((inject_Z j + (1 # 2)) / inject_Z (Zpos H)).

Definition cell_texel (W H : positive) : vec2 :=
  Vec2 (1 / inject_Z (Zpos W)) (1 / inject_Z (Zpos H)).

Definition in_grid (W H : positive) (i j : Z) : Prop :=
  (0 <= i < Zpos W)%Z /\ (0 <= j < Zpos H)%Z.

(* The fragment the rasteriser hands the shader for the cell (i, j): its
   [vUV] and the texel size that dFdx and dFdy give are floating-point
   values, close to the centre of the cell and to 1/W, 1/H but not
   exactly these.  Every pair within a quarter of a texel is allowed. *)
Definition fragment_of (W H : positive) (i j : Z) (texelSize vUV : vec2) : Prop :=
  Qabs (x vUV - x (cell_uv W H i j)) <= (1 # 4) * x (cell_texel W H)
  /\ Qabs (y vUV - y (cell_uv W H i j)) <= (1 # 4) * y (cell_texel W H)
  /\ Qabs (x texelSize - x (cell_texel W H)) <= (1 # 4) * x (cell_texel W H)
  /\ Qabs (y texelSize - y (cell_texel W H)) <= (1 # 4) * y (cell_texel W H).

(** ** JavaScript values, materials and render targets *)

Inductive RT := velocityRT | divergenceRT | pressureRT | colorRT | measurementRT.

(* The texture of buffer [i] of a render target; [Image] stands for textures
   that no render target owns (the initial velocity and colour textures). *)
Inductive texture := Target (rt : RT) (i : nat) | Image (n : nat).

Inductive value :=
  | Undefined
  | DEFAULT_IMAGE                      (* Texture.DEFAULT_IMAGE *)
  | Bool (b : bool)
  | Number (q : Q)
  | Str (s : string)
  | Tex (t : texture)
  | Vector2 (v : vec2)
  | Vector3 (x y z : Q).

#[global] Instance RT_eq_dec : EqDecision RT.
Proof. solve_decision. Defined.
#[global] Instance texture_eq_dec : EqDecision texture.
Proof. solve_decision. Defined.

(* A JavaScript object with string keys; reading a missing property gives
   [undefined]. *)
Definition prop (o : gmap string value) (k : string) : value :=
  default Undefined (o !! k).

(* v !== undefined *)
Definition defined (v : value) : bool :=
  match v with Undefined => false | _ => true end.

(* Running a method: it returns, or a TypeError leaves it half-way. *)
Inductive outcome (A : Type) := Returned (a : A) | Thrown (a : A).
Arguments Returned {A} a.
Arguments Thrown {A} a.

Definition and_then {A : Type} (o : outcome A) (f : A -> outcome A) : outcome A :=
  match o with
  | Returned a => f a
  | Thrown a => Thrown a
  end.
Notation "o >>> f" := (and_then o f) (at level 61, left associativity).

Definition state_of {A : Type} (o : outcome A) : A :=
  match o with Returned a | Thrown a => a end.

Definition thrown {A : Type} (o : outcome A) : bool :=
  match o with Returned _ => false | Thrown _ => true end.

(* if (uniforms.k !== undefined) { this.material.uniforms.k.value = uniforms.k; }
   on the uniforms [m] of a material. *)
Definition set_uniform (k : string) (uniforms m : gmap string value)
    : outcome (gmap string value) :=
  match prop uniforms k with
  | Undefined => Returned m
  | v => match m !! k with
         | Some _ => Returned (<[k := v]> m)
         | None => Thrown m
         end
  end.

(* A run of such statements, in program order. *)
Fixpoint set_uniforms (ks : list string) (uniforms m : gmap string value)
    : outcome (gmap string value) :=
  match ks with
  | [] => Returned m
  | k :: ks' => set_uniform k uniforms m >>> set_uniforms ks' uniforms
  end.

(* What a shader sees of a uniform value. *)
Definition number (v : value) : Q := match v with Number q => q | _ => 0 end.
Definition boolean (v : value) : bool := match v with Bool b => b | _ => false end.
Definition integer (v : value) : Z := match v with Number q => Qfloor q | _ => 0%Z end.
Definition vector2 (v : value) : vec2 :=
  match v with Vector2 w => w | _ => Vec2 0 0 end.

(* Sampling with no texture bound reads opaque black. *)
Definition unbound : sampler2D := fun _ => Vec4 0 0 0 1.

Definition store : Type := texture -> sampler2D.

Definition sampler (s : store) (v : value) : sampler2D :=
  match v with Tex t => s t | _ => unbound end.

Definition write (s : store) (t : texture) (f : sampler2D) : store :=
  fun t' => if decide (t' = t) then f else s t'.

(** Modelled from the spec: the RenderTarget class (imported from
    ./RenderTarget, which is not among the sources).  A field owns
    [nBuffers] buffers; [set] makes the next buffer the render target,
    hands out its texture and advances, so that with two buffers the
    roles of "current" and "previous" swap on every write.  Its [resize]
    (a change of resolution) is not modelled. *)
Module RenderTarget.

Record t := { name : RT; nBuffers : nat; index : nat }.

Definition new (name : RT) (nBuffers : nat) : t :=
  {| name := name; nBuffers := nBuffers; index := 0 |}.

Definition set (rt : t) : texture * t :=
  (Target (name rt) (index rt),
   {| name := name rt; nBuffers := nBuffers rt;
      index := (index rt + 1) mod nBuffers rt |}).

End RenderTarget.

(** ** The chevron pattern (shared by BoundaryPass and ObstacleMaskPass)

    [cos] and [sin] are the GLSL built-ins; the shaders only need them as
    functions on floats, so they are an interface here. *)

Class Trig := { cos : Q -> Q; sin : Q -> Q }.

Module Chevron.

Record uniforms := {
  chevronEnabled : bool;
  chevronColumns : Z;
  chevronRows : Z;
  chevronLength : Q;
  chevronWidth : Q;
  chevronAngle : Q;
  chevronGap : Q;
  chevronSpacingX : Q;
  chevronSpacingY : Q;
  aspect : vec2
}.

(* float insideRotatedRect(vec2 p, vec2 center, float length, float width, float angleDeg) *)
Definition insideRotatedRect `{Trig} (p center : vec2)
    (length width angleDeg : Q) : Q :=
  let angleRad := angleDeg * 3.14159265 / 180.0 in
  let cosA := cos (- angleRad) in
  let sinA := sin (- angleRad) in
  let d := sub2 p center in
  let rotated := Vec2 (x d * cosA - y d * sinA) (x d * sinA + y d * cosA) in
  let halfLength := length * 0.5 in
  let halfWidth := width * 0.5 in
  if (abs (x rotated) <=? halfLength) && (abs (y rotated) <=? halfWidth)
  then 1.0 else 0.0.

Definition startX (u : uniforms) : Q :=
  let totalWidth := float (chevronColumns u) * chevronSpacingX u in
  (x (aspect u) - totalWidth) * 0.5 + chevronSpacingX u * 0.5.

Definition startY (u : uniforms) : Q :=
  let totalHeight := float (chevronRows u) * chevronSpacingY u in
  (1.0 - totalHeight) * 0.5 + chevronSpacingY u * 0.5.

(* The body of the inner loop: centre and angle of rectangle (row, col). *)
Definition rect_center (u : uniforms) (row col : Z) : vec2 :=
  let cx := startX u + float col * chevronSpacingX u in
  let cy := startY u + float row * chevronSpacingY u in
  let gapOffset :=
    chevronGap u * 0.5 * (if mod_ (float col) 2.0 <? 0.5 then - (1.0) else 1.0) in
  let cx := cx + gapOffset in
  Vec2 cx cy.

Definition rect_angle (u : uniforms) (col : Z) : Q :=
  if mod_ (float col) 2.0 <? 0.5 then chevronAngle u else - chevronAngle u.

Definition rect_hit `{Trig} (u : uniforms) (scaledUV : vec2) (row col : Z) : Q :=
  insideRotatedRect scaledUV (rect_center u row col)
    (chevronLength u) (chevronWidth u) (rect_angle u col).

(* for (int col = 0; col < 20; col++) { if (col >= chevronColumns) break; ... } *)
Fixpoint col_loop `{Trig} (n : nat) (u : uniforms) (scaledUV : vec2)
    (row col : Z) (mask : Q) : Q :=
  match n with
  | O => mask
  | S n' =>
      if (col >=? chevronColumns u)%Z then mask
      else col_loop n' u scaledUV row (col + 1)%Z
             (mask + rect_hit u scaledUV row col)
  end.

(* for (int row = 0; row < 20; row++) { if (row >= chevronRows) break; ... } *)
Fixpoint row_loop `{Trig} (n : nat) (u : uniforms) (scaledUV : vec2)
    (row : Z) (mask : Q) : Q :=
  match n with
  | O => mask
  | S n' =>
      if (row >=? chevronRows u)%Z then mask
      else row_loop n' u scaledUV (row + 1)%Z
             (col_loop 20 u scaledUV row 0%Z mask)
  end.

(* float mask = 0.0; if (chevronEnabled) { ...; mask = clamp(mask, 0.0, 1.0); } *)
Definition chevronMask `{Trig} (u : uniforms) (vUV : vec2) : Q :=
  let mask := 0.0 in
  if chevronEnabled u then
    let scaledUV := Vec2 (x vUV * x (aspect u)) (y vUV) in
    let mask := row_loop 20 u scaledUV 0%Z mask in
    clamp mask 0.0 1.0
  else mask.

(* The chevron uniforms of a material, as the shader reads them. *)
Definition of_material (m : gmap string value) : uniforms :=
  {| chevronEnabled := boolean (prop m "chevronEnabled");
     chevronColumns := integer (prop m "chevronColumns");
     chevronRows := integer (prop m "chevronRows");
     chevronLength := number (prop m "chevronLength");
     chevronWidth := number (prop m "chevronWidth");
     chevronAngle := number (prop m "chevronAngle");
     chevronGap := number (prop m "chevronGap");
     chevronSpacingX := number (prop m "chevronSpacingX");
     chevronSpacingY := number (prop m "chevronSpacingY");
     aspect := vector2 (prop m "aspect") |}.

End Chevron.

(** ** ObstacleMaskPass (src/passes/ObstacleMaskPass.ts) *)

Module ObstacleMaskPass.

Definition main `{Trig} (u : Chevron.uniforms) (vUV : vec2) : vec4 :=
  let mask := Chevron.chevronMask u vUV in
  Vec4 mask 0.0 0.0 1.0.

Definition constructor : gmap string value :=
  list_to_map [
    ("chevronEnabled", Bool false);
    ("chevronColumns", Number 3);
    ("chevronRows", Number 4);
    ("chevronLength", Number 0.15);
    ("chevronWidth", Number 0.025);
    ("chevronAngle", Number 45.0);
    ("chevronGap", Number 0.0);
    ("chevronSpacingX", Number 0.25);
    ("chevronSpacingY", Number 0.15);
    ("aspect", Vector2 (Vec2 1.0 1.0)) ].

Definition handled : list string :=
  [ "chevronEnabled"; "chevronColumns"; "chevronRows"; "chevronLength";
    "chevronWidth"; "chevronAngle"; "chevronGap"; "chevronSpacingX";
    "chevronSpacingY"; "aspect" ].

Definition update (uniforms : gmap string value) := set_uniforms handled uniforms.

End ObstacleMaskPass.

(** ** BoundaryPass

    The sources hold two versions of the class: the one the render loop
    drives, with the chevron pattern, and the one of
    src/passes/BoundaryPass.ts, with a single square obstacle
    ([BoundaryPassSquare]).  Their edge masks are the same text. *)

Module BoundaryEdges.

Definition leftEdgeMask (texelSize vUV : vec2) : Q := ceil (x texelSize - x vUV).
Definition bottomEdgeMask (texelSize vUV : vec2) : Q := ceil (y texelSize - y vUV).
Definition rightEdgeMask (texelSize vUV : vec2) : Q :=
  ceil (x vUV - (1.0 - x texelSize)).
Definition topEdgeMask (texelSize vUV : vec2) : Q :=
  ceil (y vUV - (1.0 - y texelSize)).

Definition edgeMask (flowEnabled : bool) (texelSize vUV : vec2) : Q :=
  if flowEnabled then
    clamp (bottomEdgeMask texelSize vUV + topEdgeMask texelSize vUV) 0.0 1.0
  else
    clamp (leftEdgeMask texelSize vUV + bottomEdgeMask texelSize vUV
           + rightEdgeMask texelSize vUV + topEdgeMask texelSize vUV) 0.0 1.0.

End BoundaryEdges.

Module BoundaryPass.

Record uniforms := {
  velocity : sampler2D;
  flowEnabled : bool;
  chevron : Chevron.uniforms
}.

Definition mask `{Trig} (u : uniforms) (texelSize vUV : vec2) : Q :=
  let edgeMask := BoundaryEdges.edgeMask (flowEnabled u) texelSize vUV in
  let chevronMask := Chevron.chevronMask (chevron u) vUV in
  clamp (edgeMask + chevronMask) 0.0 1.0.

Definition main `{Trig} (u : uniforms) (texelSize vUV : vec2) : vec4 :=
  let direction := mix 1.0 (- (1.0)) (mask u texelSize vUV) in
  scale4 (texture2D (velocity u) vUV) direction.

Definition constructor : gmap string value :=
  list_to_map [
    ("velocity", DEFAULT_IMAGE);
    ("flowEnabled", Bool false);
    ("chevronEnabled", Bool false);
    ("chevronColumns", Number 3);
    ("chevronRows", Number 4);
    ("chevronLength", Number 0.15);
    ("chevronWidth", Number 0.025);
    ("chevronAngle", Number 45.0);
    ("chevronGap", Number 0.0);
    ("chevronSpacingX", Number 0.25);
    ("chevronSpacingY", Number 0.15);
    ("aspect", Vector2 (Vec2 1.0 1.0)) ].

Definition handled : list string :=
  [ "velocity"; "flowEnabled"; "chevronEnabled"; "chevronColumns";
    "chevronRows"; "chevronLength"; "chevronWidth"; "chevronAngle";
    "chevronGap"; "chevronSpacingX"; "chevronSpacingY"; "aspect" ].

Definition update (uniforms : gmap string value) := set_uniforms handled uniforms.

Definition of_material (s : store) (m : gmap string value) : uniforms :=
  {| velocity := sampler s (prop m "velocity");
     flowEnabled := boolean (prop m "flowEnabled");
     chevron := Chevron.of_material m |}.

End BoundaryPass.

Module BoundaryPassSquare.

Record uniforms := {
  velocity : sampler2D;
  flowEnabled : bool;
  obstacleEnabled : bool;
  obstaclePos : vec2;
  obstacleSize : Q;
  aspect : vec2
}.

Definition obstacleMask (u : uniforms) (texelSize vUV : vec2) : Q :=
  let obstacleMask := 0.0 in
  if obstacleEnabled u then
    let scaledUV := Vec2 (x vUV * x (aspect u)) (y vUV) in
    let scaledObsPos := Vec2 (x (obstaclePos u) * x (aspect u)) (y (obstaclePos u)) in
    let halfSize := obstacleSize u * 0.5 in
    let d := Vec2 (abs (x scaledUV - x scaledObsPos) - halfSize)
                  (abs (y scaledUV - y scaledObsPos) - halfSize) in
    let inside := step (max (x d) (y d)) 0.0 in
    let edgeDist := d in
    let atEdge := step (max (x edgeDist) (y edgeDist)) (x texelSize * 2.0) * inside in
    inside
  else obstacleMask.

Definition mask (u : uniforms) (texelSize vUV : vec2) : Q :=
  let edgeMask := BoundaryEdges.edgeMask (flowEnabled u) texelSize vUV in
  clamp (edgeMask + obstacleMask u texelSize vUV) 0.0 1.0.

Definition main (u : uniforms) (texelSize vUV : vec2) : vec4 :=
  let direction := mix 1.0 (- (1.0)) (mask u texelSize vUV) in
  scale4 (texture2D (velocity u) vUV) direction.

Definition constructor : gmap string value :=
  list_to_map [
    ("velocity", DEFAULT_IMAGE);
    ("flowEnabled", Bool false);
    ("obstacleEnabled", Bool false);
    ("obstaclePos", Vector2 (Vec2 0.5 0.5));
    ("obstacleSize", Number 0.1);
    ("aspect", Vector2 (Vec2 1.0 1.0)) ].

Definition handled : list string :=
  [ "velocity"; "flowEnabled"; "obstacleEnabled"; "obstaclePos";
    "obstacleSize"; "aspect" ].

Definition update (uniforms : gmap string value) := set_uniforms handled uniforms.

End BoundaryPassSquare.

(** ** DivergencePass *)

Module DivergencePass.

Record uniforms := {
  timeDelta : Q;
  velocity : sampler2D;
  obstacleMask : sampler2D;
  useObstacleMask : bool
}.

Definition main (u : uniforms) (texelSize vUV : vec2) : vec4 :=
  if useObstacleMask u && (r (texture2D (obstacleMask u) vUV) >? 0.5)
  then vec4_1 0.0
  else
    let uvLeft := uvLeft texelSize vUV in
    let uvRight := uvRight texelSize vUV in
    let uvDown := uvDown texelSize vUV in
    let uvUp := uvUp texelSize vUV in
    let vCenter := texture2D (velocity u) vUV in
    let x0 := r (texture2D (velocity u) uvLeft) in
    let x1 := r (texture2D (velocity u) uvRight) in
    let y0 := g (texture2D (velocity u) uvDown) in
    let y1 := g (texture2D (velocity u) uvUp) in
    let '(x0, x1, y0, y1) :=
      if useObstacleMask u then
        let maskLeft := r (texture2D (obstacleMask u) uvLeft) in
        let maskRight := r (texture2D (obstacleMask u) uvRight) in
        let maskDown := r (texture2D (obstacleMask u) uvDown) in
        let maskUp := r (texture2D (obstacleMask u) uvUp) in
        let x0 := if maskLeft >? 0.5 then r vCenter else x0 in
        let x1 := if maskRight >? 0.5 then r vCenter else x1 in
        let y0 := if maskDown >? 0.5 then g vCenter else y0 in
        let y1 := if maskUp >? 0.5 then g vCenter else y1 in
        let x0 := if x vUV <? x texelSize * 1.5 then r vCenter else x0 in
        let x1 := if x vUV >? 1.0 - x texelSize * 1.5 then r vCenter else x1 in
        let y0 := if y vUV <? y texelSize * 1.5 then g vCenter else y0 in
        let y1 := if y vUV >? 1.0 - y texelSize * 1.5 then g vCenter else y1 in
        (x0, x1, y0, y1)
      else (x0, x1, y0, y1) in
    let divergence := (x1 - x0 + y1 - y0) * 0.5 in
    vec4_1 divergence.

Definition constructor : gmap string value :=
  list_to_map [
    ("timeDelta", Number 0.0);
    ("velocity", DEFAULT_IMAGE);
    ("obstacleMask", DEFAULT_IMAGE);
    ("useObstacleMask", Bool false) ].

Definition handled : list string :=
  [ "timeDelta"; "density"; "velocity"; "obstacleMask"; "useObstacleMask" ].

Definition update (uniforms : gmap string value) := set_uniforms handled uniforms.

Definition of_material (s : store) (m : gmap string value) : uniforms :=
  {| timeDelta := number (prop m "timeDelta");
     velocity := sampler s (prop m "velocity");
     obstacleMask := sampler s (prop m "obstacleMask");
     useObstacleMask := boolean (prop m "useObstacleMask") |}.

End DivergencePass.

(** ** JacobiIterationsPass (src/passes/JacobiIterationsPass.ts) *)

Module JacobiIterationsPass.

Record uniforms := {
  alpha : Q;
  beta : Q;
  previousIteration : sampler2D;
  divergence : sampler2D;
  obstacleMask : sampler2D;
  useObstacleMask : bool
}.

Definition main (u : uniforms) (texelSize vUV : vec2) : vec4 :=
  let centerMask := r (texture2D (obstacleMask u) vUV) in
  if useObstacleMask u && (centerMask >? 0.5) then vec4_1 0.0
  else if useObstacleMask u && (x vUV >? 1.0 - x texelSize * 1.5) then vec4_1 0.0
  else
    let center := texture2D (previousIteration u) vUV in
    let uvLeft := uvLeft texelSize vUV in
    let uvRight := uvRight texelSize vUV in
    let uvDown := uvDown texelSize vUV in
    let uvUp := uvUp texelSize vUV in
    let x0 := texture2D (previousIteration u) uvLeft in
    let x1 := texture2D (previousIteration u) uvRight in
    let y0 := texture2D (previousIteration u) uvDown in
    let y1 := texture2D (previousIteration u) uvUp in
    let '(x0, x1, y0, y1) :=
      if useObstacleMask u then
        let maskLeft := r (texture2D (obstacleMask u) uvLeft) in
        let maskRight := r (texture2D (obstacleMask u) uvRight) in
        let maskDown := r (texture2D (obstacleMask u) uvDown) in
        let maskUp := r (texture2D (obstacleMask u) uvUp) in
        let x0 := if maskLeft >? 0.5 then center else x0 in
        let x1 := if maskRight >? 0.5 then center else x1 in
        let y0 := if maskDown >? 0.5 then center else y0 in
        let y1 := if maskUp >? 0.5 then center else y1 in
        let x0 := if x vUV <? x texelSize * 1.5 then center else x0 in
        let x1 := if x vUV >? 1.0 - x texelSize * 1.5 then vec4_1 0.0 else x1 in
        let y0 := if y vUV <? y texelSize * 1.5 then center else y0 in
        let y1 := if y vUV >? 1.0 - y texelSize * 1.5 then center else y1 in
        (x0, x1, y0, y1)
      else (x0, x1, y0, y1) in
    let d := texture2D (divergence u) vUV in
    scale4 (add4 (add4 (add4 (add4 x0 x1) y0) y1) (scale4 d (alpha u))) (beta u).

Definition constructor : gmap string value :=
  list_to_map [
    ("alpha", Number (- (1.0)));
    ("beta", Number 0.25);
    ("previousIteration", DEFAULT_IMAGE);
    ("divergence", DEFAULT_IMAGE);
    ("obstacleMask", DEFAULT_IMAGE);
    ("useObstacleMask", Bool false) ].

Definition handled : list string :=
  [ "previousIteration"; "divergence"; "obstacleMask"; "useObstacleMask" ].

Definition update (uniforms : gmap string value) := set_uniforms handled uniforms.

Definition of_material (s : store) (m : gmap string value) : uniforms :=
  {| alpha := number (prop m "alpha");
     beta := number (prop m "beta");
     previousIteration := sampler s (prop m "previousIteration");
     divergence := sampler s (prop m "divergence");
     obstacleMask := sampler s (prop m "obstacleMask");
     useObstacleMask := boolean (prop m "useObstacleMask") |}.

End JacobiIterationsPass.

(** ** GradientSubstractionPass *)

Module GradientSubstractionPass.

Record uniforms := {
  timeDelta : Q;
  velocity : sampler2D;
  pressure : sampler2D;
  obstacleMask : sampler2D;
  useObstacleMask : bool
}.

Definition main (u : uniforms) (texelSize vUV : vec2) : vec4 :=
  let centerMask := r (texture2D (obstacleMask u) vUV) in
  if useObstacleMask u && (centerMask >? 0.5) then Vec4 0.0 0.0 0.0 1.0
  else
    let uvLeft := uvLeft texelSize vUV in
    let uvRight := uvRight texelSize vUV in
    let uvDown := uvDown texelSize vUV in
    let uvUp := uvUp texelSize vUV in
    let x0 := r (texture2D (pressure u) uvLeft) in
    let x1 := r (texture2D (pressure u) uvRight) in
    let y0 := r (texture2D (pressure u) uvDown) in
    let y1 := r (texture2D (pressure u) uvUp) in
    let '(x0, x1, y0, y1) :=
      if useObstacleMask u then
        let pCenter := r (texture2D (pressure u) vUV) in
        let maskLeft := r (texture2D (obstacleMask u) uvLeft) in
        let maskRight := r (texture2D (obstacleMask u) uvRight) in
        let maskDown := r (texture2D (obstacleMask u) uvDown) in
        let maskUp := r (texture2D (obstacleMask u) uvUp) in
        let x0 := if maskLeft >? 0.5 then pCenter else x0 in
        let x1 := if maskRight >? 0.5 then pCenter else x1 in
        let y0 := if maskDown >? 0.5 then pCenter else y0 in
        let y1 := if maskUp >? 0.5 then pCenter else y1 in
        let x0 := if x vUV <? x texelSize * 1.5 then pCenter else x0 in
        let x1 := if x vUV >? 1.0 - x texelSize * 1.5 then 0.0 else x1 in
        let y0 := if y vUV <? y texelSize * 1.5 then pCenter else y0 in
        let y1 := if y vUV >? 1.0 - y texelSize * 1.5 then pCenter else y1 in
        (x0, x1, y0, y1)
      else (x0, x1, y0, y1) in
    let v := texture2D (velocity u) vUV in
    let v := Vec2 (r v - 0.5 * (x1 - x0)) (g v - 0.5 * (y1 - y0)) in
    Vec4 (x v) (y v) 0.0 1.0.

Definition constructor : gmap string value :=
  list_to_map [
    ("timeDelta", Number 0.0);
    ("velocity", DEFAULT_IMAGE);
    ("pressure", DEFAULT_IMAGE);
    ("obstacleMask", DEFAULT_IMAGE);
    ("useObstacleMask", Bool false) ].

Definition handled : list string :=
  [ "timeDelta"; "density"; "velocity"; "pressure"; "obstacleMask";
    "useObstacleMask" ].

Definition update (uniforms : gmap string value) := set_uniforms handled uniforms.

Definition of_material (s : store) (m : gmap string value) : uniforms :=
  {| timeDelta := number (prop m "timeDelta");
     velocity := sampler s (prop m "velocity");
     pressure := sampler s (prop m "pressure");
     obstacleMask := sampler s (prop m "obstacleMask");
     useObstacleMask := boolean (prop m "useObstacleMask") |}.

End GradientSubstractionPass.

(** ** MeasurementPass (src/passes/VelocityFieldPass.ts, second class) *)

Module MeasurementPass.

Record uniforms := {
  pressureTexture : sampler2D;
  velocityTexture : sampler2D;
  samplePosition : vec2;
  valueScale : Q
}.

Definition encode (valueScale value : Q) : Q :=
  clamp (value / valueScale + 0.5) 0.0 1.0.

Definition main (u : uniforms) (vUV : vec2) : vec4 :=
  let pressure := r (texture2D (pressureTexture u) (samplePosition u)) in
  let velocity := texture2D (velocityTexture u) (samplePosition u) in
  let encodedPressure := encode (valueScale u) pressure in
  let encodedVelX := encode (valueScale u) (r velocity) in
  let encodedVelY := encode (valueScale u) (g velocity) in
  Vec4 encodedPressure encodedVelX encodedVelY 1.0.

Definition constructor : gmap string value :=
  list_to_map [
    ("pressureTexture", DEFAULT_IMAGE);
    ("velocityTexture", DEFAULT_IMAGE);
    ("samplePosition", Vector2 (Vec2 0.5 0.5));
    ("valueScale", Number 10.0) ].

Definition handled : list string :=
  [ "pressureTexture"; "velocityTexture"; "samplePosition"; "valueScale" ].

Definition update (uniforms : gmap string value) := set_uniforms handled uniforms.

Definition of_material (s : store) (m : gmap string value) : uniforms :=
  {| pressureTexture := sampler s (prop m "pressureTexture");
     velocityTexture := sampler s (prop m "velocityTexture");
     samplePosition := vector2 (prop m "samplePosition");
     valueScale := number (prop m "valueScale") |}.

End MeasurementPass.

(** ** The other render passes of the sources: their uniforms and [update] *)

Module VelocityFieldPass.

Definition constructor : gmap string value :=
  list_to_map [ ("velocity", DEFAULT_IMAGE); ("valueScale", Number 10.0) ].

Definition handled : list string := [ "velocity"; "valueScale" ].

Definition update (uniforms : gmap string value) := set_uniforms handled uniforms.

End VelocityFieldPass.

Module SmokeEmitterPass.

Definition constructor (resolution : vec2) : gmap string value :=
  list_to_map [
    ("colorBuffer", DEFAULT_IMAGE);
    ("resolution", Vector2 resolution);
    ("aspect", Vector2 (Vec2 1.0 1.0));
    ("emitter0", Vector3 0.05 0.5 0.0);
    ("emitter1", Vector3 0.05 0.3 0.0);
    ("emitter2", Vector3 0.05 0.7 0.0);
    ("emitter3", Vector3 0.05 0.5 0.0);
    ("emitterRadius", Number 0.02);
    ("emitterIntensity", Number 0.5);
    ("emitterColor", Vector3 1.0 1.0 1.0);
    ("time", Number 0.0) ].

Definition handled : list string :=
  [ "colorBuffer"; "resolution"; "aspect"; "emitter0"; "emitter1";
    "emitter2"; "emitter3"; "emitterRadius"; "emitterIntensity";
    "emitterColor"; "time" ].

Definition update (uniforms : gmap string value) := set_uniforms handled uniforms.

End SmokeEmitterPass.

Module CompositionPass.

Record material := {
  uniforms : gmap string value;
  MODE : Z;                          (* this.material.defines.MODE *)
  needsUpdate : bool
}.

Definition constructor : material :=
  {| uniforms := list_to_map [
       ("colorBuffer", DEFAULT_IMAGE);
       ("gradient", DEFAULT_IMAGE);
       ("spectralMin", Number 400.0);
       ("spectralMax", Number 650.0);
       ("chevronEnabled", Bool false);
       ("chevronColumns", Number 3);
       ("chevronRows", Number 4);
       ("chevronLength", Number 0.15);
       ("chevronWidth", Number 0.025);
       ("chevronAngle", Number 45.0);
       ("chevronGap", Number 0.0);
       ("chevronSpacingX", Number 0.25);
       ("chevronSpacingY", Number 0.15);
       ("aspect", Vector2 (Vec2 1.0 1.0)) ];
     MODE := 0;
     needsUpdate := false |}.

Definition handled_before_mode : list string := [ "colorBuffer" ].

Definition handled_after_mode : list string :=
  [ "gradient"; "spectralMin"; "spectralMax"; "chevronEnabled";
    "chevronColumns"; "chevronRows"; "chevronLength"; "chevronWidth";
    "chevronAngle"; "chevronGap"; "chevronSpacingX"; "chevronSpacingY";
    "aspect" ].

Definition handled : list string := handled_before_mode ++ handled_after_mode.

Definition on_uniforms (f : gmap string value -> outcome (gmap string value))
    (m : material) : outcome material :=
  match f (uniforms m) with
  | Returned u => Returned {| uniforms := u; MODE := MODE m; needsUpdate := needsUpdate m |}
  | Thrown u => Thrown {| uniforms := u; MODE := MODE m; needsUpdate := needsUpdate m |}
  end.

(* if (uniforms.mode !== undefined) { switch ... ; if (mode !== MODE) { ... } } *)
Definition set_mode (params : gmap string value) (m : material) : outcome material :=
  match prop params "mode" with
  | Undefined => Returned m
  | v =>
      let mode :=
        match v with
        | Str "Luminance" => 1
        | Str "Spectral" => 2
        | Str "Gradient" => 3
        | _ => 0
        end%Z in
      if decide (mode = MODE m) then Returned m
      else Returned {| uniforms := uniforms m; MODE := mode; needsUpdate := true |}
  end.

Definition update (params : gmap string value) (m : material) : outcome material :=
  on_uniforms (set_uniforms handled_before_mode params) m
  >>> set_mode params
  >>> on_uniforms (set_uniforms handled_after_mode params).

End CompositionPass.

(** ** The main module: measurement read-back and the solver segment of
    the render loop *)

Module Main.

Definition VALUE_SCALE : Q := 10.0.

(** Modelled from the spec: the 8-bit encoding of the measurement target
    (an UnsignedByteType render target; the conversion is done by the
    device, not by the sources).  A channel value in [0, 1] is stored as
    the nearest of the 256 levels. *)
Definition to_byte (e : Q) : Z := Qfloor (e * 255 + 0.5).

(* const pressure = ((measurementBuffer[0] / 255) - 0.5) * VALUE_SCALE; *)
Definition decode (byte : Z) : Q := ((inject_Z byte / 255) - 0.5) * VALUE_SCALE.

Record sample := { pressure : Q; velX : Q; velY : Q }.

(* The parameter object of measurementPass.update in sampleAtPosition. *)
Definition sample_params (p v : value) (x y : Q) : gmap string value :=
  let clampedX := max 0 (min 1 x) in
  let clampedY := max 0 (min 1 y) in
  list_to_map [
    ("pressureTexture", p);
    ("velocityTexture", v);
    ("samplePosition", Vector2 (Vec2 clampedX clampedY));
    ("valueScale", Number VALUE_SCALE) ].

(* Render the 1x1 target, read the pixel back and decode it. *)
Definition read_sample (s : store) (measurementPass : gmap string value) : sample :=
  let pixel :=
    MeasurementPass.main (MeasurementPass.of_material s measurementPass)
      (Vec2 0.5 0.5) in
  {| pressure := decode (to_byte (r pixel));
     velX := decode (to_byte (g pixel));
     velY := decode (to_byte (b pixel)) |}.

Definition sampleAtPosition (s : store) (measurementPass : gmap string value)
    (p v : value) (x y : Q) : outcome (gmap string value) * option sample :=
  match MeasurementPass.update (sample_params p v x y) measurementPass with
  | Returned m => (Returned m, Some (read_sample s m))
  | Thrown m => (Thrown m, None)
  end.

(** *** The solver segment of [render] *)

Inductive scene := DivergenceScene | JacobiScene | GradientScene | OtherScene.

(* The fields of [configuration] that the solver segment reads; Iterations
   is a whole number (its control steps by 1 from 16 to 128). *)
Record configuration := { Simulate : bool; Iterations : nat; dt : Q }.

Record App := {
  velocityDivergencePass : gmap string value;
  pressurePass : gmap string value;
  pressureSubstractionPass : gmap string value;
  velocityRT_ : RenderTarget.t;
  divergenceRT_ : RenderTarget.t;
  pressureRT_ : RenderTarget.t;
  v : value;
  d : value;
  p : value;
  textures : store;
  texelSize : vec2;
  drawn : list (scene * texture)     (* the calls of renderer.render so far *)
}.

Definition with_velocityDivergencePass m (st : App) : App :=
  {| velocityDivergencePass := m; pressurePass := pressurePass st;
     pressureSubstractionPass := pressureSubstractionPass st;
     velocityRT_ := velocityRT_ st; divergenceRT_ := divergenceRT_ st;
     pressureRT_ := pressureRT_ st; v := v st; d := d st; p := p st;
     textures := textures st; texelSize := texelSize st; drawn := drawn st |}.

Definition with_pressurePass m (st : App) : App :=
  {| velocityDivergencePass := velocityDivergencePass st; pressurePass := m;
     pressureSubstractionPass := pressureSubstractionPass st;
     velocityRT_ := velocityRT_ st; divergenceRT_ := divergenceRT_ st;
     pressureRT_ := pressureRT_ st; v := v st; d := d st; p := p st;
     textures := textures st; texelSize := texelSize st; drawn := drawn st |}.

Definition with_pressureSubstractionPass m (st : App) : App :=
  {| velocityDivergencePass := velocityDivergencePass st;
     pressurePass := pressurePass st; pressureSubstractionPass := m;
     velocityRT_ := velocityRT_ st; divergenceRT_ := divergenceRT_ st;
     pressureRT_ := pressureRT_ st; v := v st; d := d st; p := p st;
     textures := textures st; texelSize := texelSize st; drawn := drawn st |}.

(* v = velocityRT.set(renderer); and its siblings. *)
Definition set_velocityRT (st : App) : texture * App :=
  let '(t, rt) := RenderTarget.set (velocityRT_ st) in
  (t, {| velocityDivergencePass := velocityDivergencePass st;
         pressurePass := pressurePass st;
         pressureSubstractionPass := pressureSubstractionPass st;
         velocityRT_ := rt; divergenceRT_ := divergenceRT_ st;
         pressureRT_ := pressureRT_ st; v := Tex t; d := d st; p := p st;
         textures := textures st; texelSize := texelSize st; drawn := drawn st |}).

Definition set_divergenceRT (st : App) : texture * App :=
  let '(t, rt) := RenderTarget.set (divergenceRT_ st) in
  (t, {| velocityDivergencePass := velocityDivergencePass st;
         pressurePass := pressurePass st;
         pressureSubstractionPass := pressureSubstractionPass st;
         velocityRT_ := velocityRT_ st; divergenceRT_ := rt;
         pressureRT_ := pressureRT_ st; v := v st; d := Tex t; p := p st;
         textures := textures st; texelSize := texelSize st; drawn := drawn st |}).

Definition set_pressureRT (st : App) : texture * App :=
  let '(t, rt) := RenderTarget.set (pressureRT_ st) in
  (t, {| velocityDivergencePass := velocityDivergencePass st;
         pressurePass := pressurePass st;
         pressureSubstractionPass := pressureSubstractionPass st;
         velocityRT_ := velocityRT_ st; divergenceRT_ := divergenceRT_ st;
         pressureRT_ := rt; v := v st; d := d st; p := Tex t;
         textures := textures st; texelSize := texelSize st; drawn := drawn st |}).

(* renderer.render(scene, camera) into the texture [t] made current by set. *)
Definition render_scene (sc : scene) (t : texture) (f : sampler2D) (st : App) : App :=
  {| velocityDivergencePass := velocityDivergencePass st;
     pressurePass := pressurePass st;
     pressureSubstractionPass := pressureSubstractionPass st;
     velocityRT_ := velocityRT_ st; divergenceRT_ := divergenceRT_ st;
     pressureRT_ := pressureRT_ st; v := v st; d := d st; p := p st;
     textures := write (textures st) t f; texelSize := texelSize st;
     drawn := drawn st ++ [(sc, t)] |}.

Definition lift (o : outcome (gmap string value))
    (put : gmap string value -> App -> App) (st : App) : outcome App :=
  match o with
  | Returned m => Returned (put m st)
  | Thrown m => Thrown (put m st)
  end.

(* velocityDivergencePass.update({ timeDelta: dt, velocity: v });
   d = divergenceRT.set(renderer);
   renderer.render(velocityDivergencePass.scene, camera); *)
Definition divergence_stage (cfg : configuration) (st : App) : outcome App :=
  lift (DivergencePass.update
          (list_to_map [("timeDelta", Number (dt cfg)); ("velocity", v st)])
          (velocityDivergencePass st))
       with_velocityDivergencePass st
  >>> (fun st =>
    let '(t, st) := set_divergenceRT st in
    Returned (render_scene DivergenceScene t
      (DivergencePass.main
         (DivergencePass.of_material (textures st) (velocityDivergencePass st))
         (texelSize st)) st)).

(* The body of the pressure loop:
     p = pressureRT.set(renderer);
     renderer.render(pressurePass.scene, camera);
     pressurePass.update({ previousIteration: p }); *)
Definition pressure_iteration (st : App) : outcome App :=
  let '(t, st) := set_pressureRT st in
  let st := render_scene JacobiScene t
    (JacobiIterationsPass.main
       (JacobiIterationsPass.of_material (textures st) (pressurePass st))
       (texelSize st)) st in
  lift (JacobiIterationsPass.update
          (list_to_map [("previousIteration", p st)]) (pressurePass st))
       with_pressurePass st.

(* for (let i = 0; i < configuration.Iterations; ++i) { ... }
   with [n] the iterations still to run. *)
Fixpoint pressure_loop (n : nat) (st : App) : outcome App :=
  match n with
  | O => Returned st
  | S n' => pressure_iteration st >>> pressure_loop n'
  end.

(* pressurePass.update({ divergence: d }); followed by the loop. *)
Definition pressure_stage (cfg : configuration) (st : App) : outcome App :=
  lift (JacobiIterationsPass.update (list_to_map [("divergence", d st)])
          (pressurePass st))
       with_pressurePass st
  >>> pressure_loop (Iterations cfg).

(* pressureSubstractionPass.update({ timeDelta: dt, velocity: v, pressure: p });
   v = velocityRT.set(renderer);
   renderer.render(pressureSubstractionPass.scene, camera); *)
Definition projection_stage (cfg : configuration) (st : App) : outcome App :=
  lift (GradientSubstractionPass.update
          (list_to_map [("timeDelta", Number (dt cfg)); ("velocity", v st);
                        ("pressure", p st)])
          (pressureSubstractionPass st))
       with_pressureSubstractionPass st
  >>> (fun st =>
    let '(t, st) := set_velocityRT st in
    Returned (render_scene GradientScene t
      (GradientSubstractionPass.main
         (GradientSubstractionPass.of_material (textures st)
            (pressureSubstractionPass st))
         (texelSize st)) st)).

(* Lines "Compute the divergence" to "Substract the pressure gradient" of
   render(), run when configuration.Simulate holds. *)
Definition solver (cfg : configuration) (st : App) : outcome App :=
  divergence_stage cfg st >>> pressure_stage cfg >>> projection_stage cfg.

(* What the rest of the program does to this state: the other stages of
   the frame write velocity, colour and measurement textures only, assign
   [v] (render, Reset) and never touch the three solver passes, [d], [p]
   or the divergence and pressure targets.  A change of resolution
   (RenderTarget.resize) is outside this model. *)
Definition solver_texture (t : texture) : Prop :=
  exists i, t = Target divergenceRT i \/ t = Target pressureRT i.

Record elsewhere (st st' : App) : Prop := {
  ew_divergencePass : velocityDivergencePass st' = velocityDivergencePass st;
  ew_pressurePass : pressurePass st' = pressurePass st;
  ew_projectionPass : pressureSubstractionPass st' = pressureSubstractionPass st;
  ew_divergenceRT : divergenceRT_ st' = divergenceRT_ st;
  ew_pressureRT : pressureRT_ st' = pressureRT_ st;
  ew_velocityRT : RenderTarget.name (velocityRT_ st') = velocityRT
                  /\ RenderTarget.nBuffers (velocityRT_ st') = 2%nat;
  ew_d : d st' = d st;
  ew_p : p st' = p st;
  ew_texelSize : texelSize st' = texelSize st;
  ew_textures : forall t, solver_texture t -> textures st' t = textures st t;
  ew_drawn : exists l, drawn st' = drawn st ++ l
                       /\ Forall (fun e => fst e = OtherScene
                                           /\ ~ solver_texture (snd e)) l
}.

(* What can happen to the state: the rest of the program runs, the solver
   segment runs as a whole, or -- so that the states between its stages are
   covered too -- one of its stages runs. *)
Inductive event : App -> App -> Prop :=
  | ev_elsewhere st st' : elsewhere st st' -> event st st'
  | ev_solver cfg st : Simulate cfg = true -> event st (state_of (solver cfg st))
  | ev_divergence cfg st : event st (state_of (divergence_stage cfg st))
  | ev_pressure cfg st : event st (state_of (pressure_stage cfg st))
  | ev_projection cfg st : event st (state_of (projection_stage cfg st)).

(* The state once the module has been loaded. *)
Definition initial (st : App) : Prop :=
  velocityDivergencePass st = DivergencePass.constructor
  /\ pressurePass st = JacobiIterationsPass.constructor
  /\ pressureSubstractionPass st = GradientSubstractionPass.constructor
  /\ velocityRT_ st = RenderTarget.new velocityRT 2
  /\ divergenceRT_ st = RenderTarget.new divergenceRT 1
  /\ pressureRT_ st = RenderTarget.new pressureRT 2
  /\ v st = Undefined /\ d st = Undefined /\ p st = Undefined
  /\ drawn st = [].

Inductive reachable : App -> Prop :=
  | reach_initial st : initial st -> reachable st
  | reach_event st st' : reachable st -> event st st' -> reachable st'.

(* One relaxation step on whole textures, as the render loop runs it: the
   constructor's alpha and beta, no obstacle mask. *)
Definition jacobi_step (texelSize : vec2) (divergence previous : sampler2D)
    : sampler2D :=
  JacobiIterationsPass.main
    {| JacobiIterationsPass.alpha := - (1.0);
       JacobiIterationsPass.beta := 0.25;
       JacobiIterationsPass.previousIteration := previous;
       JacobiIterationsPass.divergence := divergence;
       JacobiIterationsPass.obstacleMask := unbound;
       JacobiIterationsPass.useObstacleMask := false |} texelSize.

(* The uniforms of a pass that was never given an obstacle mask. *)
Definition mask_unused (m : gmap string value) : Prop :=
  m !! "useObstacleMask" = Some (Bool false)
  /\ m !! "obstacleMask" = Some DEFAULT_IMAGE.

Definition obstacle_branches_off (st : App) : Prop :=
  mask_unused (velocityDivergencePass st)
  /\ mask_unused (pressurePass st)
  /\ mask_unused (pressureSubstractionPass st).

Definition pressure_texture (v : value) : Prop :=
  exists i, v = Tex (Target pressureRT i).

(* What holds of the pressure pass and its render target between stages. *)
Record pressure_inv (st : App) : Prop := {
  pi_mask : mask_unused (pressurePass st);
  pi_alpha : pressurePass st !! "alpha" = Some (Number (- (1.0)));
  pi_beta : pressurePass st !! "beta" = Some (Number 0.25);
  pi_previous : is_Some (pressurePass st !! "previousIteration");
  pi_divergence : is_Some (pressurePass st !! "divergence")
                  /\ ~ pressure_texture (prop (pressurePass st) "divergence");
  pi_d : ~ pressure_texture (d st);
  pi_target : RenderTarget.name (pressureRT_ st) = pressureRT
              /\ RenderTarget.nBuffers (pressureRT_ st) = 2%nat
              /\ (RenderTarget.index (pressureRT_ st) < 2)%nat;
  pi_divergence_target : RenderTarget.name (divergenceRT_ st) = divergenceRT;
  pi_warm :
    (p st = Undefined /\ prop (pressurePass st) "previousIteration" = DEFAULT_IMAGE)
    \/ (exists i, p st = Tex (Target pressureRT i)
                  /\ prop (pressurePass st) "previousIteration" = p st
                  /\ RenderTarget.index (pressureRT_ st) <> i)
}.

(* What the pressure loop leaves alone. *)
Record outside_pressure_kept (st st' : App) : Prop := {
  opk_divergencePass : velocityDivergencePass st' = velocityDivergencePass st;
  opk_projectionPass : pressureSubstractionPass st' = pressureSubstractionPass st;
  opk_velocityRT : velocityRT_ st' = velocityRT_ st;
  opk_divergenceRT : divergenceRT_ st' = divergenceRT_ st;
  opk_v : v st' = v st;
  opk_d : d st' = d st;
  opk_texelSize : texelSize st' = texelSize st;
  opk_divergence : prop (pressurePass st') "divergence"
                   = prop (pressurePass st) "divergence";
  opk_textures : forall t, ~ pressure_texture (Tex t) ->
                           textures st' t = textures st t
}.

(* The texture [p] refers to was written by the latest Jacobi draw, and
   nothing has been drawn into it since. *)
Definition latest_pressure (st : App) (t : texture) : Prop :=
  exists before after,
    drawn st = before ++ (JacobiScene, t) :: after
    /\ Forall (fun e => snd e <> t) after.

(* The invariant of the solver segment. *)
Record solver_inv (st : App) : Prop := {
  si_pressure : pressure_inv st;
  si_velocity_target : RenderTarget.name (velocityRT_ st) = velocityRT;
  si_latest : forall t, p st = Tex t -> latest_pressure st t
}.

End Main.

(** ** The notions the specification speaks in *)

Module Spec.

(* A fragment of the unit square and its texel. *)
Definition in_domain (texelSize vUV : vec2) : Prop :=
  0 <= x vUV <= 1 /\ 0 <= y vUV <= 1
  /\ 0 < x texelSize <= 1 /\ 0 < y texelSize <= 1.

(* Within one texel of an enforced edge of the domain: any of the four
   edges when the domain is closed, top or bottom in the flow regime. *)
Definition on_enforced_edge (flowEnabled : bool) (texelSize vUV : vec2) : bool :=
  let left := x vUV <? x texelSize in
  let bottom := y vUV <? y texelSize in
  let right := x vUV >? 1 - x texelSize in
  let top := y vUV >? 1 - y texelSize in
  if flowEnabled then bottom || top else left || bottom || right || top.

(* Containment in rectangle (row, col): translate to the rectangle's
   axes, rotate by the negative angle, compare with the half extents.
   The sign of the angle alternates with the parity of the column. *)
Definition inside_rect `{Trig} (u : Chevron.uniforms) (p : vec2) (row col : Z) : bool :=
  let angle :=
    if Z.even col then Chevron.chevronAngle u else - Chevron.chevronAngle u in
  let rad := angle * 3.14159265 / 180.0 in
  let local := sub2 p (Chevron.rect_center u row col) in
  let along := x local * cos (- rad) - y local * sin (- rad) in
  let across := x local * sin (- rad) + y local * cos (- rad) in
  (abs along <=? Chevron.chevronLength u * 0.5)
  && (abs across <=? Chevron.chevronWidth u * 0.5).

Definition below (n : Z) : list Z := map Z.of_nat (seq 0 (Z.to_nat n)).

(* Every rectangle of the configured rows x columns pattern. *)
Definition configured (u : Chevron.uniforms) : list (Z * Z) :=
  list_prod (below (Chevron.chevronRows u)) (below (Chevron.chevronColumns u)).

(* Those the shader's loops visit: they stop after 20 rows and 20 columns. *)
Definition rasterised (u : Chevron.uniforms) : list (Z * Z) :=
  list_prod (below (Z.min (Chevron.chevronRows u) 20))
            (below (Z.min (Chevron.chevronColumns u) 20)).

Definition in_some_rect `{Trig} (rects : list (Z * Z)) (u : Chevron.uniforms)
    (p : vec2) : bool :=
  existsb (fun rc => inside_rect u p (fst rc) (snd rc)) rects.

Definition scaled (u : Chevron.uniforms) (vUV : vec2) : vec2 :=
  Vec2 (x vUV * x (Chevron.aspect u)) (y vUV).

(* A neighbour that is an obstacle, or lies outside the grid, is
   replaced by the value at the centre. *)
Definition is_obstacle (obstacleMask : sampler2D) (uv : vec2) : bool :=
  r (obstacleMask uv) >? 0.5.

Definition substituted {A : Type} (blocked : bool) (centre neighbour : A) : A :=
  if blocked then centre else neighbour.

(* A test "within one and a half texels of an edge", seen from the cell of
   index k: it holds in the edge column (row) and fails two or more cells
   further in.  One cell in, the cell centre lies exactly one and a half
   texels from the edge and the rounding of the fragment's coordinates
   decides: there the outcome [test] of the shader's own comparison
   stands. *)
Definition at_edge (k edge next : Z) (test : bool) : bool :=
  (k =? edge)%Z || ((k =? next)%Z && test).

(* div(v) = ((vx(right) - vx(left)) + (vy(up) - vy(down))) / 2 *)
Definition central_divergence (vx_left vx_right vy_down vy_up : Q) : Q :=
  ((vx_right - vx_left) + (vy_up - vy_down)) / 2.

(* The Jacobi step with the sum multiplied by beta, and as the
   specification writes it, divided by beta. *)
Definition relaxation (alpha beta : Q) (p_left p_right p_down p_up div : Q) : Q :=
  (p_left + p_right + p_down + p_up + alpha * div) * beta.

Definition relaxation_as_stated (alpha beta : Q)
    (p_left p_right p_down p_up div : Q) : Q :=
  (p_left + p_right + p_down + p_up + alpha * div) / beta.

Definition map5 (f : Q -> Q -> Q -> Q -> Q -> Q) (p q s t w : vec4) : vec4 :=
  Vec4 (f (r p) (r q) (r s) (r t) (r w)) (f (g p) (g q) (g s) (g t) (g w))
       (f (b p) (b q) (b s) (b t) (b w)) (f (a p) (a q) (a s) (a t) (a w)).

(* v' = v - 0.5 * grad p, by central differences *)
Definition projected (v : vec4) (p_left p_right p_down p_up : Q) : vec4 :=
  Vec4 (r v - 0.5 * (p_right - p_left)) (g v - 0.5 * (p_up - p_down)) 0 1.

(* What [update] is to do to the uniforms [m] of a pass that handles the
   keys [handled]: a handled key that the parameter object defines gets
   the supplied value, every other uniform keeps its value. *)
Definition updated (handled : list string) (params m : gmap string value)
    (k : string) : option value :=
  if bool_decide (k ∈ handled) && defined (prop params k)
  then Some (prop params k) else m !! k.

(* A render pass: the uniforms its constructor creates, the keys its
   [update] handles, and [update] itself. *)
Record pass := {
  created : gmap string value;
  handled : list string;
  update : gmap string value -> gmap string value -> outcome (gmap string value)
}.

Definition render_passes (resolution : vec2) : list pass := [
  {| created := ObstacleMaskPass.constructor;
     handled := ObstacleMaskPass.handled; update := ObstacleMaskPass.update |};
  {| created := BoundaryPass.constructor;
     handled := BoundaryPass.handled; update := BoundaryPass.update |};
  {| created := BoundaryPassSquare.constructor;
     handled := BoundaryPassSquare.handled; update := BoundaryPassSquare.update |};
  {| created := DivergencePass.constructor;
     handled := DivergencePass.handled; update := DivergencePass.update |};
  {| created := JacobiIterationsPass.constructor;
     handled := JacobiIterationsPass.handled; update := JacobiIterationsPass.update |};
  {| created := GradientSubstractionPass.constructor;
     handled := GradientSubstractionPass.handled;
     update := GradientSubstractionPass.update |};
  {| created := MeasurementPass.constructor;
     handled := MeasurementPass.handled; update := MeasurementPass.update |};
  {| created := VelocityFieldPass.constructor;
     handled := VelocityFieldPass.handled; update := VelocityFieldPass.update |};
  {| created := SmokeEmitterPass.constructor resolution;
     handled := SmokeEmitterPass.handled; update := SmokeEmitterPass.update |} ].

(* The tenth pass, CompositionPass, has a material with more than
   uniforms.  When its update returns it leaves the uniforms [u] that
   setting the handled keys gives, and the define MODE and the flag
   needsUpdate as the handling of the key [mode] leaves them. *)
Definition composition_after (params : gmap string value)
    (mat : CompositionPass.material) (u : gmap string value) : CompositionPass.material :=
  {| CompositionPass.uniforms := u;
     CompositionPass.MODE :=
       CompositionPass.MODE (state_of (CompositionPass.set_mode params mat));
     CompositionPass.needsUpdate :=
       CompositionPass.needsUpdate (state_of (CompositionPass.set_mode params mat)) |}.

End Spec.

(** ** Concrete inputs used by the examples *)

Module Examples.

(* Every rectangle of the examples has angle 0, so [cos] and [sin] are
   only ever applied to 0, where they are 1 and 0. *)
#[export] Instance at_angle_zero : Trig := {| cos := fun _ => 1; sin := fun _ => 0 |}.

Definition no_chevrons : Chevron.uniforms :=
  {| Chevron.chevronEnabled := false; Chevron.chevronColumns := 3;
     Chevron.chevronRows := 4; Chevron.chevronLength := 0.15;
     Chevron.chevronWidth := 0.025; Chevron.chevronAngle := 45.0;
     Chevron.chevronGap := 0.0; Chevron.chevronSpacingX := 0.25;
     Chevron.chevronSpacingY := 0.15; Chevron.aspect := Vec2 1.0 1.0 |}.

(* A 128 x 128 grid; the cell in column 0, row 64, on the left edge. *)
Definition texel128 : vec2 := cell_texel 128 128.
Definition left_edge_cell : vec2 := cell_uv 128 128 0 64.
Definition inner_cell : vec2 := cell_uv 128 128 64 64.

(* A uniform diagonal velocity (1, 1). *)
Definition diagonal : sampler2D := fun _ => Vec4 1 1 0 0.

Definition closed_box : BoundaryPass.uniforms :=
  {| BoundaryPass.velocity := diagonal; BoundaryPass.flowEnabled := false;
     BoundaryPass.chevron := no_chevrons |}.

Definition closed_box_square : BoundaryPassSquare.uniforms :=
  {| BoundaryPassSquare.velocity := diagonal;
     BoundaryPassSquare.flowEnabled := false;
     BoundaryPassSquare.obstacleEnabled := false;
     BoundaryPassSquare.obstaclePos := Vec2 0.5 0.5;
     BoundaryPassSquare.obstacleSize := 0.1;
     BoundaryPassSquare.aspect := Vec2 1.0 1.0 |}.

(* One row of 21 axis-aligned squares of side 0.02, 0.04 apart; the
   centre of the last one (column 20) is (0.9, 0.5). *)
Definition row_of_21 : Chevron.uniforms :=
  {| Chevron.chevronEnabled := true; Chevron.chevronColumns := 21;
     Chevron.chevronRows := 1; Chevron.chevronLength := 0.02;
     Chevron.chevronWidth := 0.02; Chevron.chevronAngle := 0;
     Chevron.chevronGap := 0.0; Chevron.chevronSpacingX := 0.04;
     Chevron.chevronSpacingY := 1; Chevron.aspect := Vec2 1.0 1.0 |}.

Definition last_square_centre : vec2 := Vec2 0.9 0.5.

(* The default pattern at angle 0: 3 columns, 4 rows. *)
Definition default_pattern : Chevron.uniforms :=
  {| Chevron.chevronEnabled := true; Chevron.chevronColumns := 3;
     Chevron.chevronRows := 4; Chevron.chevronLength := 0.15;
     Chevron.chevronWidth := 0.025; Chevron.chevronAngle := 0;
     Chevron.chevronGap := 0.0; Chevron.chevronSpacingX := 0.25;
     Chevron.chevronSpacingY := 0.15; Chevron.aspect := Vec2 1.0 1.0 |}.

(* Pressure 1 everywhere, no divergence, no obstacle. *)
Definition flat_pressure : JacobiIterationsPass.uniforms :=
  {| JacobiIterationsPass.alpha := - (1.0); JacobiIterationsPass.beta := 0.25;
     JacobiIterationsPass.previousIteration := fun _ => vec4_1 1;
     JacobiIterationsPass.divergence := fun _ => vec4_1 0;
     JacobiIterationsPass.obstacleMask := fun _ => vec4_1 0;
     JacobiIterationsPass.useObstacleMask := true |}.

(* A wall to the left of the inner cell, and the obstacle-aware branches
   switched off (the constructor's default). *)
Definition wall_on_the_left : sampler2D :=
  fun uv => if x uv <? x inner_cell then vec4_1 1 else vec4_1 0.

Definition ramp : sampler2D := fun uv => Vec4 (x uv) (y uv) 0 0.

Definition jacobi_unaware : JacobiIterationsPass.uniforms :=
  {| JacobiIterationsPass.alpha := - (1.0); JacobiIterationsPass.beta := 0.25;
     JacobiIterationsPass.previousIteration := ramp;
     JacobiIterationsPass.divergence := fun _ => vec4_1 0;
     JacobiIterationsPass.obstacleMask := wall_on_the_left;
     JacobiIterationsPass.useObstacleMask := false |}.

(* Velocity (x, y) -- divergence 2 per unit, one texel per cell -- over a
   mask that is obstacle everywhere; the uniform [useObstacleMask] as
   the constructor leaves it. *)
Definition divergence_unaware : DivergencePass.uniforms :=
  {| DivergencePass.timeDelta := 0.0; DivergencePass.velocity := ramp;
     DivergencePass.obstacleMask := fun _ => vec4_1 1;
     DivergencePass.useObstacleMask := false |}.

Definition projection_unaware : GradientSubstractionPass.uniforms :=
  {| GradientSubstractionPass.timeDelta := 0.0;
     GradientSubstractionPass.velocity := diagonal;
     GradientSubstractionPass.pressure := fun _ => vec4_1 1;
     GradientSubstractionPass.obstacleMask := fun _ => vec4_1 1;
     GradientSubstractionPass.useObstacleMask := false |}.

(* The same fields under an obstacle that covers the rows from 65 up, with
   the obstacle-aware branches switched on; the cells of row 64 have the
   obstacle as their upper neighbour. *)
Definition roof : sampler2D :=
  fun uv => if y uv >? 65 # 128 then vec4_1 1 else vec4_1 0.

Definition outflow_cell : vec2 := cell_uv 128 128 127 64.
Definition roofed_cell : vec2 := cell_uv 128 128 0 66.

Definition jacobi_roofed : JacobiIterationsPass.uniforms :=
  {| JacobiIterationsPass.alpha := - (1.0); JacobiIterationsPass.beta := 0.25;
     JacobiIterationsPass.previousIteration := ramp;
     JacobiIterationsPass.divergence := fun _ => vec4_1 0;
     JacobiIterationsPass.obstacleMask := roof;
     JacobiIterationsPass.useObstacleMask := true |}.

Definition divergence_roofed : DivergencePass.uniforms :=
  {| DivergencePass.timeDelta := 0.0; DivergencePass.velocity := ramp;
     DivergencePass.obstacleMask := roof;
     DivergencePass.useObstacleMask := true |}.

Definition projection_roofed : GradientSubstractionPass.uniforms :=
  {| GradientSubstractionPass.timeDelta := 0.0;
     GradientSubstractionPass.velocity := diagonal;
     GradientSubstractionPass.pressure := ramp;
     GradientSubstractionPass.obstacleMask := roof;
     GradientSubstractionPass.useObstacleMask := true |}.

(* The program just loaded, on a 128 x 128 grid, and a configuration with
   two pressure iterations. *)
Definition loaded : Main.App :=
  {| Main.velocityDivergencePass := DivergencePass.constructor;
     Main.pressurePass := JacobiIterationsPass.constructor;
     Main.pressureSubstractionPass := GradientSubstractionPass.constructor;
     Main.velocityRT_ := RenderTarget.new velocityRT 2;
     Main.divergenceRT_ := RenderTarget.new divergenceRT 1;
     Main.pressureRT_ := RenderTarget.new pressureRT 2;
     Main.v := Undefined; Main.d := Undefined; Main.p := Undefined;
     Main.textures := fun _ => unbound;
     Main.texelSize := texel128;
     Main.drawn := [] |}.

Definition two_iterations : Main.configuration :=
  {| Main.Simulate := true; Main.Iterations := 2; Main.dt := 1 # 60 |}.

End Examples.

(** ** The solver segment as a whole: what its stages keep *)

Module Frame.

(* The divergence and projection passes still have the uniforms their
   constructors made. *)
Definition uniforms_kept (st : Main.App) : Prop :=
  dom (Main.velocityDivergencePass st) = dom DivergencePass.constructor
  /\ dom (Main.pressureSubstractionPass st)
     = dom GradientSubstractionPass.constructor.

(* The value of a uniform after update was handed [v]. *)
Definition handed (v old : value) : value := if defined v then v else old.

(* What the pressure stage leaves alone. *)
Record pressure_stage_kept (st st' : Main.App) : Prop := {
  psk_divergencePass : Main.velocityDivergencePass st' = Main.velocityDivergencePass st;
  psk_projectionPass :
    Main.pressureSubstractionPass st' = Main.pressureSubstractionPass st;
  psk_velocityRT : Main.velocityRT_ st' = Main.velocityRT_ st;
  psk_divergenceRT : Main.divergenceRT_ st' = Main.divergenceRT_ st;
  psk_v : Main.v st' = Main.v st;
  psk_d : Main.d st' = Main.d st;
  psk_texelSize : Main.texelSize st' = Main.texelSize st;
  psk_divergence : Main.pressurePass st' !! "divergence"
                   = Main.pressurePass st !! "divergence"
}.

End Frame.

(** ** VelocityFieldPass: the fragment shader
    (src/passes/VelocityFieldPass.ts, first class) *)

Module VelocityField.

Record uniforms := { velocity : sampler2D; valueScale : Q }.

Definition main (u : uniforms) (vUV : vec2) : vec4 :=
  let vel := texture2D (velocity u) vUV in
  let encodedX := clamp (r vel / valueScale u + 0.5) 0.0 1.0 in
  let encodedY := clamp (g vel / valueScale u + 0.5) 0.0 1.0 in
  Vec4 encodedX encodedY 0.0 1.0.

Definition of_material (s : store) (m : gmap string value) : uniforms :=
  {| velocity := sampler s (prop m "velocity");
     valueScale := number (prop m "valueScale") |}.

End VelocityField.

(** ** Pointer input (the mouse and touch listeners of the main module) *)

Module Vector4.
Record t := { x : Q; y : Q; z : Q; w : Q }.
End Vector4.

Module Input.

(* id: string | number -- "mouse" for the mouse, Touch.identifier for a
   finger; === never equates a string and a number. *)
Inductive id_t := IdString (s : string) | IdNumber (n : Z).

#[global] Instance id_eq_dec : EqDecision id_t.
Proof. solve_decision. Defined.

Record ITouchInput := { id : id_t; input : Vector4.t }.

(* What the listeners read besides the event: canvas.clientWidth,
   canvas.clientHeight, window.scrollY and aspect.x. *)
Record page := { clientWidth : Q; clientHeight : Q; scrollY : Q; aspect_x : Q }.

(* A MouseEvent or a Touch; [identifier] is only read of a Touch. *)
Record pointer := { identifier : Z; clientX : Q; clientY : Q }.

(* const x = (event.clientX / canvas.clientWidth) * aspect.x;
   const y = 1.0 - (event.clientY + window.scrollY) / canvas.clientHeight; *)
Definition position (c : page) (e : pointer) : Q * Q :=
  ((clientX e / clientWidth c) * aspect_x c,
   1.0 - (clientY e + scrollY c) / clientHeight c).

(* inputTouches.push({ id, input: new Vector4(x, y, 0, 0) }) *)
Definition push (i : id_t) (c : page) (e : pointer)
    (inputTouches : list ITouchInput) : list ITouchInput :=
  let '(x, y) := position c e in
  inputTouches
  ++ [ {| id := i; input := {| Vector4.x := x; Vector4.y := y;
                               Vector4.z := 0; Vector4.w := 0 |} |} ].

(* input.setZ(x - input.x).setW(y - input.y); input.setX(x).setY(y); *)
Definition moved (c : page) (e : pointer) (t : ITouchInput) : ITouchInput :=
  let '(x, y) := position c e in
  {| id := id t;
     input := {| Vector4.x := x; Vector4.y := y;
                 Vector4.z := x - Vector4.x (input t);
                 Vector4.w := y - Vector4.y (input t) |} |}.

Definition mousedown (c : page) (button : Z) (e : pointer)
    (inputTouches : list ITouchInput) : list ITouchInput :=
  if (button =? 0)%Z then push (IdString "mouse") c e inputTouches
  else inputTouches.

(* if (inputTouches.length > 0) { ... inputTouches[0] ... } *)
Definition mousemove (c : page) (e : pointer)
    (inputTouches : list ITouchInput) : list ITouchInput :=
  match inputTouches with
  | [] => []
  | first :: rest => moved c e first :: rest
  end.

(* if (event.button === 0) inputTouches.pop(); *)
Definition mouseup (button : Z) (inputTouches : list ITouchInput)
    : list ITouchInput :=
  if (button =? 0)%Z then removelast inputTouches else inputTouches.

(* for (const touch of event.changedTouches) inputTouches.push(...) *)
Definition touchstart (c : page) (changedTouches : list pointer)
    (inputTouches : list ITouchInput) : list ITouchInput :=
  fold_left (fun l touch => push (IdNumber (identifier touch)) c touch l)
    changedTouches inputTouches.

(* inputTouches.find(value => value.id === touch.identifier), followed by
   the update of the object found: the first registered touch with the
   identifier is moved in place. *)
Fixpoint move_registered (c : page) (touch : pointer)
    (inputTouches : list ITouchInput) : list ITouchInput :=
  match inputTouches with
  | [] => []
  | value :: rest =>
      if decide (id value = IdNumber (identifier touch))
      then moved c touch value :: rest
      else value :: move_registered c touch rest
  end.

Definition touchmove (c : page) (changedTouches : list pointer)
    (inputTouches : list ITouchInput) : list ITouchInput :=
  fold_left (fun l touch => move_registered c touch l) changedTouches inputTouches.

(* const registeredTouch = inputTouches.find(...);
   if (registeredTouch !== undefined)
     inputTouches = inputTouches.filter(value => value.id !== registeredTouch.id); *)
Definition touchend_one (inputTouches : list ITouchInput) (touch : pointer)
    : list ITouchInput :=
  match List.find (fun value => bool_decide (id value = IdNumber (identifier touch)))
          inputTouches with
  | Some registeredTouch =>
      filter (fun value => id value <> id registeredTouch) inputTouches
  | None => inputTouches
  end.

Definition touchend (changedTouches : list pointer)
    (inputTouches : list ITouchInput) : list ITouchInput :=
  fold_left touchend_one changedTouches inputTouches.

(* The inner loop of touchcancel for one registered touch:
     for (let j = 0; j < event.touches.length; ++j) {
       if (inputTouches[i].id === event.touches.item(j).identifier) break;
       else if (j === event.touches.length - 1) inputTouches.splice(i--, 1);
     }
   [true] when the loop ends in the splice.  With no touch left in
   event.touches the body never runs. *)
Fixpoint spliced (i : id_t) (touches : list pointer) : bool :=
  match touches with
  | [] => false
  | touch :: rest =>
      if decide (i = IdNumber (identifier touch)) then false
      else match rest with
           | [] => true
           | _ :: _ => spliced i rest
           end
  end.

(* The outer loop, for (let i = 0; i < inputTouches.length; ++i): after
   splice(i--, 1) the ++i of the loop brings i back, so the same index is
   looked at again.  [n] bounds the number of rounds. *)
Fixpoint cancel_loop (n : nat) (touches : list pointer) (i : nat)
    (inputTouches : list ITouchInput) : list ITouchInput :=
  match n with
  | O => inputTouches
  | S n' =>
      match inputTouches !! i with
      | None => inputTouches
      | Some value =>
          if spliced (id value) touches
          then cancel_loop n' touches i (delete i inputTouches)
          else cancel_loop n' touches (S i) inputTouches
      end
  end.

(* Every round either removes an element or advances i, so
   inputTouches.length rounds are all the loop can make. *)
Definition touchcancel (touches : list pointer)
    (inputTouches : list ITouchInput) : list ITouchInput :=
  cancel_loop (length inputTouches) touches 0 inputTouches.

(* The identifiers of a list of touches, as ids. *)
Definition ids (touches : list pointer) : list id_t :=
  map (fun touch => IdNumber (identifier touch)) touches.

End Input.

(** ** The measurement probes (main module)

    [Math.sqrt] and [Number.prototype.toFixed] are built-ins of the
    language; only their being functions matters here. *)

Class JSMath := { sqrt : Q -> Q; toFixed : Q -> Z -> string }.

Module Measurements.

Inductive kind := line | point.

Record IMeasurement := {
  type : kind;
  x : Q;
  y : Q;
  enabled : bool;
  pressure : Q;
  velocityX : Q;
  velocityY : Q;
  velocityMag : Q;
  pressureDisplay : string;
  velocityDisplay : string
}.

Definition MAX_MEASUREMENTS : nat := 8.

(* The object literal of the push calls: a probe with no reading yet. *)
Definition fresh (type : kind) (x : Q) : IMeasurement :=
  {| type := type; x := x; y := 0.5; enabled := true;
     pressure := 0; velocityX := 0; velocityY := 0; velocityMag := 0;
     pressureDisplay := "0.000"; velocityDisplay := "0.000" |}.

(* measurements after the two push calls at module load *)
Definition initial : list IMeasurement := [ fresh line 0.75; fresh line 1.3 ].

(* measurementActions.addLine and addPoint *)
Definition addLine (measurements : list IMeasurement) : list IMeasurement :=
  if (length measurements <? MAX_MEASUREMENTS)%nat
  then measurements ++ [ fresh line 0.5 ] else measurements.

Definition addPoint (measurements : list IMeasurement) : list IMeasurement :=
  if (length measurements <? MAX_MEASUREMENTS)%nat
  then measurements ++ [ fresh point 0.5 ] else measurements.

(* removeConfig.remove of folder i: measurements.splice(i, 1) *)
Definition remove (i : nat) (measurements : list IMeasurement) : list IMeasurement :=
  delete i measurements.

(* !p for a texture variable: undefined, false, 0 and the empty string are
   the falsy values that [value] has. *)
Definition truthy (v : value) : bool :=
  match v with
  | Undefined => false
  | Bool b => b
  | Number q => negb (Qeq_bool q 0)
  | Str s => negb (String.eqb s "")
  | _ => true
  end.

(* Math.round(q * 1000) / 1000; Math.round rounds half up. *)
Definition round3 (q : Q) : Q := inject_Z (Qfloor (q * 1000 + 0.5)) / 1000.

(* The sums of the line probe, and the addition of a sample to them. *)
Record sums := { pressureSum : Q; velXSum : Q; velYSum : Q }.

Definition add_sample (acc : sums) (smp : Main.sample) : sums :=
  {| pressureSum := pressureSum acc + Main.pressure smp;
     velXSum := velXSum acc + Main.velX smp;
     velYSum := velYSum acc + Main.velY smp |}.

Definition numSamples : Z := 8.

(* The values i takes in the loop of the line probe. *)
Definition sample_rows : list Z := map Z.of_nat (seq 0 (Z.to_nat numSamples)).

(* for (let i = 0; i < numSamples; i++) { const y = (i + 0.5) / numSamples; ... }
   over the values of i still to come; every sample goes through the
   measurement pass, whose uniforms are threaded along. *)
Fixpoint line_loop (s : store) (p v : value) (normalizedX : Q) (indices : list Z)
    (measurementPass : gmap string value) (acc : sums)
    : outcome (gmap string value * sums) :=
  match indices with
  | [] => Returned (measurementPass, acc)
  | i :: rest =>
      let y := (inject_Z i + 0.5) / inject_Z numSamples in
      match Main.sampleAtPosition s measurementPass p v normalizedX y with
      | (Returned m, Some smp) =>
          line_loop s p v normalizedX rest m (add_sample acc smp)
      | (o, _) => Thrown (state_of o, acc)
      end
  end.

(* The assignments to m.pressure ... m.velocityDisplay. *)
Definition with_reading `{JSMath} (m : IMeasurement) (pressure velX velY : Q)
    : IMeasurement :=
  let pressure := round3 pressure in
  let velocityX := round3 velX in
  let velocityY := round3 velY in
  let velocityMag :=
    round3 (sqrt (velocityX * velocityX + velocityY * velocityY)) in
  {| type := type m; x := x m; y := y m; enabled := enabled m;
     pressure := pressure; velocityX := velocityX; velocityY := velocityY;
     velocityMag := velocityMag;
     pressureDisplay := toFixed pressure 3;
     velocityDisplay := toFixed velocityMag 3 |}.

(* The body of the loop over the probes. *)
Definition update_one `{JSMath} (s : store) (p v : value) (aspect_x : Q)
    (measurementPass : gmap string value) (m : IMeasurement)
    : outcome (gmap string value * IMeasurement) :=
  if negb (enabled m) then Returned (measurementPass, m)
  else
    let normalizedX := x m / aspect_x in
    match type m with
    | line =>
        match line_loop s p v normalizedX sample_rows measurementPass
                {| pressureSum := 0; velXSum := 0; velYSum := 0 |} with
        | Returned (pass, acc) =>
            Returned (pass,
                      with_reading m (pressureSum acc / inject_Z numSamples)
                        (velXSum acc / inject_Z numSamples)
                        (velYSum acc / inject_Z numSamples))
        | Thrown (pass, _) => Thrown (pass, m)
        end
    | point =>
        match Main.sampleAtPosition s measurementPass p v normalizedX (y m) with
        | (Returned pass, Some smp) =>
            Returned (pass,
                      with_reading m (Main.pressure smp) (Main.velX smp)
                        (Main.velY smp))
        | (o, _) => Thrown (state_of o, m)
        end
    end.

(* for (const m of measurements) { ... }: the probes are updated in place,
   so after an exception those already visited keep their new readings. *)
Fixpoint update_loop `{JSMath} (s : store) (p v : value) (aspect_x : Q)
    (measurementPass : gmap string value) (measurements : list IMeasurement)
    : outcome (gmap string value * list IMeasurement) :=
  match measurements with
  | [] => Returned (measurementPass, [])
  | m :: rest =>
      match update_one s p v aspect_x measurementPass m with
      | Returned (pass, m') =>
          match update_loop s p v aspect_x pass rest with
          | Returned (pass', rest') => Returned (pass', m' :: rest')
          | Thrown (pass', rest') => Thrown (pass', m' :: rest')
          end
      | Thrown (pass, m') => Thrown (pass, m' :: rest)
      end
  end.

(* function updateMeasurements() { if (!p || !v) return; ... } *)
Definition updateMeasurements `{JSMath} (s : store) (p v : value) (aspect_x : Q)
    (measurementPass : gmap string value) (measurements : list IMeasurement)
    : outcome (gmap string value * list IMeasurement) :=
  if negb (truthy p) || negb (truthy v)
  then Returned (measurementPass, measurements)
  else update_loop s p v aspect_x measurementPass measurements.

(* What the Measurements folder of the GUI and the render loop can do to
   the list. *)
Inductive step `{JSMath} : list IMeasurement -> list IMeasurement -> Prop :=
  | step_addLine l : step l (addLine l)
  | step_addPoint l : step l (addPoint l)
  | step_remove i l : step l (remove i l)
  | step_edit l l' :                    (* the enabled, x and y controls *)
      length l' = length l -> step l l'
  | step_update s p v aspect_x pass l :
      step l (snd (state_of (updateMeasurements s p v aspect_x pass l))).

Inductive reachable `{JSMath} : list IMeasurement -> Prop :=
  | reach_initial : reachable initial
  | reach_step l l' : reachable l -> step l l' -> reachable l'.

(* The position a probe samples at: x scaled back from aspect-corrected
   space, both coordinates moved into the unit square. *)
Definition probe_position (aspect_x : Q) (x y : Q) : vec2 :=
  Vec2 (max 0 (min 1 (x / aspect_x))) (max 0 (min 1 y)).

(* What the read-back makes of a sampled value, and the sample it returns
   for the textures [p] and [v] at a position. *)
Definition reading (q : Q) : Q :=
  Main.decode (Main.to_byte (MeasurementPass.encode Main.VALUE_SCALE q)).

Definition sample_at (s : store) (p v : value) (pos : vec2) : Main.sample :=
  {| Main.pressure := reading (r (sampler s p pos));
     Main.velX := reading (r (sampler s v pos));
     Main.velY := reading (g (sampler s v pos)) |}.

(* The sample point of row i of a line probe. *)
Definition row_position (aspect_x : Q) (x : Q) (i : Z) : vec2 :=
  probe_position aspect_x x ((inject_Z i + 0.5) / inject_Z numSamples).

(* The values a probe reads before rounding: one sample for a point, the
   mean of the samples of the eight rows for a line. *)
Definition raw (s : store) (p v : value) (aspect_x : Q) (m : IMeasurement)
    : Main.sample :=
  match type m with
  | point => sample_at s p v (probe_position aspect_x (x m) (y m))
  | line =>
      let acc :=
        fold_left add_sample
          (map (fun i => sample_at s p v (row_position aspect_x (x m) i)) sample_rows)
          {| pressureSum := 0; velXSum := 0; velYSum := 0 |} in
      {| Main.pressure := pressureSum acc / inject_Z numSamples;
         Main.velX := velXSum acc / inject_Z numSamples;
         Main.velY := velYSum acc / inject_Z numSamples |}
  end.

(* Within the quantisation step of the read-back plus the rounding to
   three decimals. *)
Definition close (a b : Q) : Prop := - (0.0205) <= a - b <= 0.0205.

(* The mean of a field over the eight sample points of a line probe. *)
Definition column_mean (f : vec2 -> Q) (aspect_x : Q) (x : Q) : Q :=
  fold_right (fun i acc => f (row_position aspect_x x i) + acc) 0 sample_rows
  / inject_Z numSamples.

(* A reading [got] of the field [f] by the probe [m]: always in the range
   of the read-back, and close to the field -- at the probe's position for
   a point, in the mean over its rows for a line -- where the field lies
   inside that range. *)
Definition accurate (aspect_x : Q) (m : IMeasurement) (got : Q) (f : vec2 -> Q)
    : Prop :=
  - (5) <= got <= 5
  /\ (type m = point ->
      - (5) < f (probe_position aspect_x (x m) (y m)) < 5 ->
      close got (f (probe_position aspect_x (x m) (y m))))
  /\ (type m = line ->
      (forall i, i ∈ sample_rows -> - (5) < f (row_position aspect_x (x m) i) < 5) ->
      close got (column_mean f aspect_x (x m))).

End Measurements.

Module ProbeExamples.

(* Stand-ins for Math.sqrt and toFixed in examples that look at neither
   the velocity magnitude nor the display strings. *)
Definition unused_math : JSMath :=
  {| sqrt := fun _ => 0; toFixed := fun _ _ => "" |}.

(* A pressure field that is 1 everywhere, in the texture [Image 0]. *)
Definition unit_pressure : store :=
  fun t => if decide (t = Image 0) then (fun _ => Vec4 1 0 0 1) else unbound.

Definition point_probe : Measurements.IMeasurement := Measurements.fresh Measurements.point 0.5.

End ProbeExamples.

(** * Properties *)

(** ** Comparisons, clamp and ceil *)

Lemma ltb_lt (a b : Q) : (a <? b) = true <-> a < b.
Proof.
  unfold ltb. rewrite Qlt_alt. destruct (a ?= b); split; congruence.
Qed.

Lemma ltb_ge (a b : Q) : (a <? b) = false <-> b <= a.
Proof.
  unfold ltb. rewrite Qle_alt, <- Qgt_alt, Qlt_alt.
  destruct (a ?= b); split; congruence.
Qed.

(* Case analysis on a comparison, leaving the order fact in the context. *)
Ltac case_ltb a b :=
  let E := fresh "E" in
  destruct (a <? b) eqn:E;
  [ apply ltb_lt in E | apply ltb_ge in E ].

Ltac case_cmp :=
  repeat match goal with
  | |- context [ ?a <? ?b ] => case_ltb a b
  | |- context [ ?a >? ?b ] => unfold gtb
  | |- context [ ?a <=? ?b ] => unfold leb
  | |- context [ ?a >=? ?b ] => unfold geb
  end.

Lemma max_cases (a b : Q) : (a < b /\ max a b = b) \/ (b <= a /\ max a b = a).
Proof. unfold max. case_ltb a b; auto. Qed.

Lemma min_cases (a b : Q) : (b < a /\ min a b = b) \/ (a <= b /\ min a b = a).
Proof. unfold min. case_ltb b a; auto. Qed.

Ltac case_minmax :=
  repeat match goal with
  | |- context [ max ?a ?b ] =>
      let H := fresh "H" in let E := fresh "E" in
      destruct (max_cases a b) as [[H E] | [H E]]; rewrite E in *; clear E
  | |- context [ min ?a ?b ] =>
      let H := fresh "H" in let E := fresh "E" in
      destruct (min_cases a b) as [[H E] | [H E]]; rewrite E in *; clear E
  end.

Lemma clamp01_one (m : Q) : 1 <= m -> clamp m 0.0 1.0 == 1.
Proof. intros Hm. unfold clamp. case_minmax; lra. Qed.

Lemma clamp01_zero (m : Q) : m <= 0 -> clamp m 0.0 1.0 == 0.
Proof. intros Hm. unfold clamp. case_minmax; lra. Qed.

Lemma clamp01_id (m : Q) : 0 <= m <= 1 -> clamp m 0.0 1.0 == m.
Proof. intros Hm. unfold clamp. case_minmax; lra. Qed.

Lemma ceiling_bounds (z : Q) : inject_Z (Qceiling z) - 1 < z <= inject_Z (Qceiling z).
Proof.
  split; [ | apply Qle_ceiling ].
  pose proof (Qceiling_lt z) as Hlt.
  unfold Z.sub in Hlt. rewrite inject_Z_plus, inject_Z_opp in Hlt.
  change (inject_Z 1) with 1 in Hlt. lra.
Qed.

Lemma floor_bounds (z : Q) : inject_Z (Qfloor z) <= z < inject_Z (Qfloor z) + 1.
Proof.
  split; [ apply Qfloor_le | ].
  pose proof (Qlt_floor z) as Hlt.
  rewrite inject_Z_plus in Hlt. change (inject_Z 1) with 1 in Hlt. lra.
Qed.

Lemma ceil_unit (z : Q) : 0 < z <= 1 -> ceil z = 1.
Proof.
  intros [H0 H1]. unfold ceil. pose proof (ceiling_bounds z) as [Hlo Hhi].
  assert (0 < Qceiling z)%Z as Hpos
    by (rewrite Zlt_Qlt; change (inject_Z 0) with 0; lra).
  assert (Qceiling z < 2)%Z as Hup
    by (rewrite Zlt_Qlt; change (inject_Z 2) with 2; lra).
  replace (Qceiling z) with 1%Z by lia. reflexivity.
Qed.

Lemma ceil_zero (z : Q) : - (1) < z <= 0 -> ceil z = 0.
Proof.
  intros [H0 H1]. unfold ceil. pose proof (ceiling_bounds z) as [Hlo Hhi].
  assert (- 1 < Qceiling z)%Z as Hpos
    by (rewrite Zlt_Qlt; change (inject_Z (- 1)) with (- (1)); lra).
  assert (Qceiling z < 1)%Z as Hup
    by (rewrite Zlt_Qlt; change (inject_Z 1) with 1; lra).
  replace (Qceiling z) with 0%Z by lia. reflexivity.
Qed.

(* An edge term of the boundary shader is the indicator of "z > 0". *)
Lemma ceil_indicator (z : Q) : - (1) < z <= 1 -> ceil z = if 0 <? z then 1 else 0.
Proof.
  intros Hz. case_ltb 0 z; [ apply ceil_unit | apply ceil_zero ]; lra.
Qed.

(** ** The chevron loops *)

Lemma mod2_even (col : Z) : (mod_ (float col) 2.0 <? 0.5) = Z.even col.
Proof.
  unfold mod_, floor, float.
  destruct (Z.even col) eqn:Hev.
  - apply Z.even_spec in Hev as [k ->].
    assert (Qfloor (inject_Z (2 * k) / 2.0) = k) as ->.
    { rewrite (Qfloor_comp _ (inject_Z k)); [ apply Qfloor_Z | ].
      rewrite inject_Z_mult. change (inject_Z 2) with 2. field. }
    apply ltb_lt. rewrite inject_Z_mult. change (inject_Z 2) with 2. lra.
  - assert (Z.odd col = true) as Hodd by (rewrite <- Z.negb_even, Hev; reflexivity).
    apply Z.odd_spec in Hodd as [k ->].
    assert (Qfloor (inject_Z (2 * k + 1) / 2.0) = k) as ->.
    { pose proof (floor_bounds (inject_Z (2 * k + 1) / 2.0)) as [Hlo Hhi].
      assert (inject_Z (2 * k + 1) / 2.0 == inject_Z k + 0.5) as E.
      { rewrite inject_Z_plus, inject_Z_mult.
        change (inject_Z 2) with 2. change (inject_Z 1) with 1. field. }
      set (f := Qfloor _) in *. clearbody f.
      assert (inject_Z f <= inject_Z k + 0.5) by (rewrite <- E; exact Hlo).
      assert (inject_Z k + 0.5 < inject_Z f + 1) by (rewrite <- E; exact Hhi).
      assert (f < k + 1)%Z
        by (rewrite Zlt_Qlt, inject_Z_plus; change (inject_Z 1) with 1; lra).
      assert (k < f + 1)%Z
        by (rewrite Zlt_Qlt, inject_Z_plus; change (inject_Z 1) with 1; lra).
      lia. }
    apply ltb_ge. rewrite inject_Z_plus, inject_Z_mult.
    change (inject_Z 2) with 2. change (inject_Z 1) with 1. lra.
Qed.

Section ChevronLoops.
Context `{T : Trig}.
Variables (u : Chevron.uniforms) (p : vec2).

Lemma rect_hit_inside (row col : Z) :
  Chevron.rect_hit u p row col
  = if Spec.inside_rect u p row col then 1.0 else 0.0.
Proof.
  unfold Chevron.rect_hit, Chevron.insideRotatedRect, Chevron.rect_angle,
    Spec.inside_rect.
  rewrite mod2_even. destruct (Z.even col); reflexivity.
Qed.

Lemma rect_hit_nonneg (row col : Z) : 0 <= Chevron.rect_hit u p row col.
Proof. rewrite rect_hit_inside. destruct (Spec.inside_rect _ _ _ _); lra. Qed.

Lemma col_loop_ge (n : nat) (row col : Z) (mask : Q) :
  mask <= Chevron.col_loop n u p row col mask.
Proof.
  revert col mask. induction n as [| n IH]; intros col mask; simpl.
  - lra.
  - destruct (col >=? Chevron.chevronColumns u)%Z; [ lra | ].
    pose proof (IH (col + 1)%Z (mask + Chevron.rect_hit u p row col)).
    pose proof (rect_hit_nonneg row col). lra.
Qed.

Lemma col_loop_none (n : nat) (row col : Z) (mask : Q) :
  (forall c, (col <= c < col + Z.of_nat n)%Z ->
             (c < Chevron.chevronColumns u)%Z ->
             Spec.inside_rect u p row c = false) ->
  Chevron.col_loop n u p row col mask == mask.
Proof.
  revert col mask. induction n as [| n IH]; intros col mask Hnone; simpl.
  - reflexivity.
  - destruct (Z.geb_spec col (Chevron.chevronColumns u)) as [Hge | Hlt];
      [ reflexivity | ].
    rewrite IH by (intros c Hc; apply Hnone; lia).
    rewrite rect_hit_inside, Hnone by lia. lra.
Qed.

Lemma col_loop_some (n : nat) (row col c : Z) (mask : Q) :
  (col <= c < col + Z.of_nat n)%Z ->
  (c < Chevron.chevronColumns u)%Z ->
  Spec.inside_rect u p row c = true ->
  mask + 1 <= Chevron.col_loop n u p row col mask.
Proof.
  revert col mask. induction n as [| n IH]; intros col mask Hc Hlt Hin; simpl.
  - lia.
  - destruct (Z.geb_spec col (Chevron.chevronColumns u)) as [Hge | _];
      [ lia | ].
    destruct (Z.eq_dec c col) as [-> | Hne].
    + pose proof (col_loop_ge n row (col + 1)
                    (mask + Chevron.rect_hit u p row col)) as Hmono.
      rewrite rect_hit_inside, Hin in Hmono |- *. lra.
    + pose proof (IH (col + 1)%Z (mask + Chevron.rect_hit u p row col)
                    ltac:(lia) Hlt Hin).
      pose proof (rect_hit_nonneg row col). lra.
Qed.

Lemma row_loop_ge (n : nat) (row : Z) (mask : Q) :
  mask <= Chevron.row_loop n u p row mask.
Proof.
  revert row mask. induction n as [| n IH]; intros row mask;
    cbn [Chevron.row_loop].
  - lra.
  - destruct (row >=? Chevron.chevronRows u)%Z; [ lra | ].
    pose proof (IH (row + 1)%Z (Chevron.col_loop 20 u p row 0 mask)).
    pose proof (col_loop_ge 20 row 0 mask). lra.
Qed.

Lemma row_loop_none (n : nat) (row : Z) (mask : Q) :
  (forall r c, (row <= r < row + Z.of_nat n)%Z ->
               (r < Chevron.chevronRows u)%Z ->
               (0 <= c < 20)%Z -> (c < Chevron.chevronColumns u)%Z ->
               Spec.inside_rect u p r c = false) ->
  Chevron.row_loop n u p row mask == mask.
Proof.
  revert row mask. induction n as [| n IH]; intros row mask Hnone;
    cbn [Chevron.row_loop].
  - reflexivity.
  - destruct (Z.geb_spec row (Chevron.chevronRows u)) as [Hge | Hlt];
      [ reflexivity | ].
    rewrite IH by (intros r c Hr; apply Hnone; lia).
    apply col_loop_none. intros c Hc Hcols. apply Hnone; lia.
Qed.

Lemma row_loop_some (n : nat) (row r c : Z) (mask : Q) :
  (row <= r < row + Z.of_nat n)%Z ->
  (r < Chevron.chevronRows u)%Z ->
  (0 <= c < 20)%Z -> (c < Chevron.chevronColumns u)%Z ->
  Spec.inside_rect u p r c = true ->
  mask + 1 <= Chevron.row_loop n u p row mask.
Proof.
  revert row mask. induction n as [| n IH]; intros row mask Hr Hlt Hc Hcols Hin;
    cbn [Chevron.row_loop].
  - lia.
  - destruct (Z.geb_spec row (Chevron.chevronRows u)) as [Hge | _];
      [ lia | ].
    destruct (Z.eq_dec r row) as [-> | Hne].
    + pose proof (row_loop_ge n (row + 1) (Chevron.col_loop 20 u p row 0 mask)).
      pose proof (col_loop_some 20 row 0 c mask ltac:(lia) Hcols Hin). lra.
    + pose proof (IH (row + 1)%Z (Chevron.col_loop 20 u p row 0 mask)
                    ltac:(lia) Hlt Hc Hcols Hin).
      pose proof (col_loop_ge 20 row 0 mask). lra.
Qed.

End ChevronLoops.

Lemma In_below (n z : Z) : In z (Spec.below n) <-> (0 <= z < n)%Z.
Proof.
  unfold Spec.below. rewrite in_map_iff. split.
  - intros [k [<- Hk]]. apply in_seq in Hk. lia.
  - intros Hz. exists (Z.to_nat z). split; [ lia | ]. apply in_seq. lia.
Qed.

Lemma in_some_rect_true `{Trig} rects u p :
  Spec.in_some_rect rects u p = true <->
  exists r c, In (r, c) rects /\ Spec.inside_rect u p r c = true.
Proof.
  unfold Spec.in_some_rect. rewrite existsb_exists. split.
  - intros [[r c] [Hin Hhit]]. exists r, c. auto.
  - intros [r [c [Hin Hhit]]]. exists (r, c). auto.
Qed.

Lemma in_rasterised u (r c : Z) :
  In (r, c) (Spec.rasterised u) <->
  (0 <= r < Chevron.chevronRows u)%Z /\ (r < 20)%Z
  /\ (0 <= c < Chevron.chevronColumns u)%Z /\ (c < 20)%Z.
Proof. unfold Spec.rasterised. rewrite in_prod_iff, !In_below. lia. Qed.

Lemma in_configured u (r c : Z) :
  In (r, c) (Spec.configured u) <->
  (0 <= r < Chevron.chevronRows u)%Z /\ (0 <= c < Chevron.chevronColumns u)%Z.
Proof. unfold Spec.configured. rewrite in_prod_iff, !In_below. lia. Qed.

Lemma chevronMask_rasterised `{Trig} (u : Chevron.uniforms) (vUV : vec2) :
  Chevron.chevronMask u vUV ==
  if Chevron.chevronEnabled u
     && Spec.in_some_rect (Spec.rasterised u) u (Spec.scaled u vUV)
  then 1 else 0.
Proof.
  unfold Chevron.chevronMask. fold (Spec.scaled u vUV).
  destruct (Chevron.chevronEnabled u); cbn [andb]; [ | reflexivity ].
  destruct (Spec.in_some_rect _ _ _) eqn:Hsome.
  - apply in_some_rect_true in Hsome as [r [c [Hin Hhit]]].
    apply in_rasterised in Hin. apply clamp01_one.
    pose proof (row_loop_some u (Spec.scaled u vUV) 20 0 r c 0.0
                  ltac:(lia) ltac:(lia) ltac:(lia) ltac:(lia) Hhit). lra.
  - apply clamp01_zero. rewrite row_loop_none; [ lra | ].
    intros r c Hr Hrows Hc Hcols.
    destruct (Spec.inside_rect u (Spec.scaled u vUV) r c) eqn:Hhit; [ | reflexivity ].
    rewrite <- Hsome. symmetry. apply in_some_rect_true. exists r, c.
    split; [ apply in_rasterised; lia | exact Hhit ].
Qed.

Lemma chevronMask_binary `{Trig} (u : Chevron.uniforms) (vUV : vec2) :
  Chevron.chevronMask u vUV == 0 \/ Chevron.chevronMask u vUV == 1.
Proof.
  rewrite chevronMask_rasterised.
  destruct (_ && _); [ right | left ]; reflexivity.
Qed.

(** ** The boundary masks *)

Lemma edgeMask_indicator (flow : bool) (t uv : vec2) :
  Spec.in_domain t uv ->
  BoundaryEdges.edgeMask flow t uv
  == if Spec.on_enforced_edge flow t uv then 1 else 0.
Proof.
  intros (Hx & Hy & Htx & Hty).
  unfold BoundaryEdges.edgeMask, BoundaryEdges.leftEdgeMask,
    BoundaryEdges.bottomEdgeMask, BoundaryEdges.rightEdgeMask,
    BoundaryEdges.topEdgeMask, Spec.on_enforced_edge, gtb.
  rewrite !ceil_indicator by lra.
  destruct flow;
    repeat match goal with
    | |- context [ ?a <? ?b ] => case_ltb a b
    end; try lra; reflexivity.
Qed.

Lemma clamp01_comp (m n : Q) : m == n -> clamp m 0.0 1.0 == clamp n 0.0 1.0.
Proof. intros E. unfold clamp. case_minmax; lra. Qed.

(* The union of an edge indicator and a binary obstacle mask. *)
Lemma union_mask (e o : Q) (edge : bool) :
  e == (if edge then 1 else 0) -> o == 0 \/ o == 1 ->
  clamp (e + o) 0.0 1.0 == if edge || (o >? 0.5) then 1 else 0.
Proof.
  intros He Ho. unfold gtb.
  destruct edge; cbn [orb].
  - apply clamp01_one. destruct Ho; lra.
  - case_ltb 0.5 o.
    + apply clamp01_one. destruct Ho; lra.
    + apply clamp01_zero. destruct Ho; lra.
Qed.

Lemma square_obstacleMask_binary u t uv :
  BoundaryPassSquare.obstacleMask u t uv == 0
  \/ BoundaryPassSquare.obstacleMask u t uv == 1.
Proof.
  unfold BoundaryPassSquare.obstacleMask, step.
  destruct (BoundaryPassSquare.obstacleEnabled u); [ | left; reflexivity ].
  destruct (_ <? _); [ left | right ]; reflexivity.
Qed.

Lemma boundary_mask_union `{Trig} (u : BoundaryPass.uniforms) (t uv : vec2) :
  Spec.in_domain t uv ->
  BoundaryPass.mask u t uv
  == if Spec.on_enforced_edge (BoundaryPass.flowEnabled u) t uv
        || (Chevron.chevronMask (BoundaryPass.chevron u) uv >? 0.5)
     then 1 else 0.
Proof.
  intros Hdom. unfold BoundaryPass.mask.
  apply union_mask; [ apply edgeMask_indicator, Hdom | apply chevronMask_binary ].
Qed.

Lemma square_mask_union (u : BoundaryPassSquare.uniforms) (t uv : vec2) :
  Spec.in_domain t uv ->
  BoundaryPassSquare.mask u t uv
  == if Spec.on_enforced_edge (BoundaryPassSquare.flowEnabled u) t uv
        || (BoundaryPassSquare.obstacleMask u t uv >? 0.5)
     then 1 else 0.
Proof.
  intros Hdom. unfold BoundaryPassSquare.mask.
  apply union_mask; [ apply edgeMask_indicator, Hdom | apply square_obstacleMask_binary ].
Qed.

(** C9.  For a fragment of the unit square, the edge mask of the boundary
    stage is the indicator of "within one texel of an edge": of any of the
    four edges when the flow regime is off, of the top and bottom edges
    only when it is on; and the enforced mask is its union with the
    obstacle mask, in both versions of the pass. *)
Theorem boundary_enforced_mask `{Trig} (t uv : vec2) :
  Spec.in_domain t uv ->
  (forall flow,
     BoundaryEdges.edgeMask flow t uv
     == if Spec.on_enforced_edge flow t uv then 1 else 0)
  /\ (forall u,
        BoundaryPass.mask u t uv
        == if Spec.on_enforced_edge (BoundaryPass.flowEnabled u) t uv
              || (Chevron.chevronMask (BoundaryPass.chevron u) uv >? 0.5)
           then 1 else 0)
  /\ (forall u,
        BoundaryPassSquare.mask u t uv
        == if Spec.on_enforced_edge (BoundaryPassSquare.flowEnabled u) t uv
              || (BoundaryPassSquare.obstacleMask u t uv >? 0.5)
           then 1 else 0).
Proof.
  intros Hdom. split; [ | split ].
  - intros flow. apply edgeMask_indicator, Hdom.
  - intros u. apply boundary_mask_union, Hdom.
  - intros u. apply square_mask_union, Hdom.
Qed.

Lemma boundary_enforced_mask_witness :
  BoundaryEdges.edgeMask false Examples.texel128 Examples.left_edge_cell == 1
  /\ BoundaryEdges.edgeMask true Examples.texel128 Examples.left_edge_cell == 0.
Proof.
  assert (Spec.in_domain Examples.texel128 Examples.left_edge_cell) as Hdom
    by (unfold Spec.in_domain; cbn; repeat split; (discriminate || reflexivity)).
  destruct (@boundary_enforced_mask Examples.at_angle_zero Examples.texel128
              Examples.left_edge_cell Hdom) as [Hedge _].
  split; [ apply (Hedge false) | apply (Hedge true) ].
Defined.

Lemma mix_at_one (m : Q) : m == 1 -> mix 1.0 (- (1.0)) m == - (1).
Proof. intros E. unfold mix. rewrite E. reflexivity. Qed.

Lemma scale4_comp (w : vec4) (s s' : Q) : s == s' -> veq4 (scale4 w s) (scale4 w s').
Proof. intros E. unfold veq4, scale4; cbn. rewrite E. repeat split; reflexivity. Qed.

(** C2, as stated, fails: on the left edge of a closed 128 x 128 domain a
    velocity of (1, 1) leaves the boundary stage as (-1, -1); the tangential
    component (y) is negated too, it does not keep its value. *)
Lemma boundary_tangential_counterexample :
  let out := BoundaryPass.main (H := Examples.at_angle_zero) Examples.closed_box
               Examples.texel128 Examples.left_edge_cell in
  let before := Examples.diagonal Examples.left_edge_cell in
  x Examples.left_edge_cell < x Examples.texel128
  /\ ~ r before == 0
  /\ r out == - r before
  /\ ~ g out == g before.
Proof.
  cbv zeta. split; [ | split; [ | split ] ].
  - vm_compute. reflexivity.
  - vm_compute. intros E. discriminate E.
  - vm_compute. reflexivity.
  - vm_compute. intros E. discriminate E.
Qed.

(** C2, amended.  At a fragment within one texel of an enforced edge (any
    edge of a closed domain) the boundary stage negates the whole velocity:
    the normal and the tangential component alike leave the stage as the
    negation of their value before it.  Both versions of the pass. *)
Theorem boundary_negates_velocity `{Trig} (t uv : vec2) :
  Spec.in_domain t uv ->
  (forall u,
     Spec.on_enforced_edge (BoundaryPass.flowEnabled u) t uv = true ->
     veq4 (BoundaryPass.main u t uv)
          (scale4 (BoundaryPass.velocity u uv) (- (1))))
  /\ (forall u,
        Spec.on_enforced_edge (BoundaryPassSquare.flowEnabled u) t uv = true ->
        veq4 (BoundaryPassSquare.main u t uv)
             (scale4 (BoundaryPassSquare.velocity u uv) (- (1)))).
Proof.
  intros Hdom. split; intros u Hedge.
  - unfold BoundaryPass.main, texture2D. apply scale4_comp, mix_at_one.
    rewrite boundary_mask_union, Hedge by exact Hdom. reflexivity.
  - unfold BoundaryPassSquare.main, texture2D. apply scale4_comp, mix_at_one.
    rewrite square_mask_union, Hedge by exact Hdom. reflexivity.
Qed.

Lemma boundary_negates_velocity_witness :
  veq4 (BoundaryPass.main (H := Examples.at_angle_zero) Examples.closed_box
          Examples.texel128 Examples.left_edge_cell)
       (scale4 (Examples.diagonal Examples.left_edge_cell) (- (1))).
Proof.
  assert (Spec.in_domain Examples.texel128 Examples.left_edge_cell) as Hdom
    by (unfold Spec.in_domain; cbn; repeat split; (discriminate || reflexivity)).
  destruct (@boundary_negates_velocity Examples.at_angle_zero Examples.texel128
              Examples.left_edge_cell Hdom) as [Hchevron _].
  exact (Hchevron Examples.closed_box eq_refl).
Defined.

(** ** The obstacle mask *)

(** C8, as stated, fails: with 21 columns configured, the centre of the
    21st square lies inside a configured rectangle, yet the mask there
    is 0, because the shader's loops stop after 20 columns. *)
Lemma obstacle_mask_counterexample :
  Chevron.chevronEnabled Examples.row_of_21 = true
  /\ Spec.in_some_rect (H := Examples.at_angle_zero)
       (Spec.configured Examples.row_of_21) Examples.row_of_21
       (Spec.scaled Examples.row_of_21 Examples.last_square_centre) = true
  /\ r (ObstacleMaskPass.main (H := Examples.at_angle_zero) Examples.row_of_21
          Examples.last_square_centre) == 0.
Proof. split; [ | split ]; vm_compute; reflexivity. Qed.

Lemma rasterised_configured (u : Chevron.uniforms) :
  (Chevron.chevronRows u <= 20)%Z -> (Chevron.chevronColumns u <= 20)%Z ->
  Spec.rasterised u = Spec.configured u.
Proof.
  intros Hr Hc. unfold Spec.rasterised, Spec.configured.
  rewrite !Z.min_l by assumption. reflexivity.
Qed.

(** C8, amended.  The obstacle mask stage outputs 1.0 if the pattern is
    enabled and the (aspect-scaled) point lies inside a rectangle of the
    first 20 rows and first 20 columns of the configured pattern, and 0.0
    otherwise; up to 20 rows and 20 columns these are all the configured
    rectangles; with the pattern disabled the mask is zero everywhere. *)
Theorem obstacle_mask_rasterised `{Trig} (u : Chevron.uniforms) (vUV : vec2) :
  veq4 (ObstacleMaskPass.main u vUV)
       (Vec4 (if Chevron.chevronEnabled u
                 && Spec.in_some_rect (Spec.rasterised u) u (Spec.scaled u vUV)
              then 1 else 0) 0 0 1)
  /\ ((Chevron.chevronRows u <= 20)%Z -> (Chevron.chevronColumns u <= 20)%Z ->
      Spec.rasterised u = Spec.configured u)
  /\ (Chevron.chevronEnabled u = false -> r (ObstacleMaskPass.main u vUV) == 0).
Proof.
  split; [ | split ].
  - unfold ObstacleMaskPass.main, veq4; cbn [r g b a].
    split; [ apply chevronMask_rasterised | repeat split; reflexivity ].
  - apply rasterised_configured.
  - intros Hoff. unfold ObstacleMaskPass.main; cbn [r].
    rewrite chevronMask_rasterised, Hoff. reflexivity.
Qed.

Lemma obstacle_mask_rasterised_witness :
  Spec.rasterised Examples.default_pattern = Spec.configured Examples.default_pattern
  /\ r (ObstacleMaskPass.main (H := Examples.at_angle_zero) Examples.no_chevrons
          Examples.inner_cell) == 0.
Proof.
  destruct (@obstacle_mask_rasterised Examples.at_angle_zero
              Examples.default_pattern Examples.inner_cell) as (_ & Hall & _).
  destruct (@obstacle_mask_rasterised Examples.at_angle_zero
              Examples.no_chevrons Examples.inner_cell) as (_ & _ & Hoff).
  split; [ apply Hall; vm_compute; discriminate | apply Hoff; reflexivity ].
Defined.

(** ** Fragments at cell centres: which neighbours leave the grid *)

Lemma div_lt_compat (w a c : Q) : 0 < w -> (a / w < c / w <-> a < c).
Proof.
  intros Hw. unfold Qdiv. apply Qmult_lt_r. apply Qinv_lt_0_compat, Hw.
Qed.

Lemma width_pos (n : positive) : 0 < inject_Z (Zpos n).
Proof. unfold Qlt; cbn. lia. Qed.

Lemma centre_high (n : positive) (k : Z) :
  (k < Zpos n)%Z ->
  ((inject_Z k + (1 # 2)) / inject_Z (Zpos n) >? 1.0 - 1 / inject_Z (Zpos n) * 1.5)
  = (k =? Zpos n - 1)%Z.
Proof.
  intros Hk. pose proof (width_pos n) as Hw. unfold gtb.
  assert (1.0 - 1 / inject_Z (Zpos n) * 1.5
          == (inject_Z (Zpos n) - 1.5) / inject_Z (Zpos n)) as E
    by (field; lra).
  destruct (Z.eqb_spec k (Zpos n - 1)) as [-> | Hne].
  - apply ltb_lt. rewrite E. apply div_lt_compat; [ exact Hw | ].
    unfold Z.sub. rewrite inject_Z_plus. change (inject_Z (- (1))) with (- (1)). lra.
  - apply ltb_ge. rewrite E. apply Qnot_lt_le. intros Hlt.
    apply div_lt_compat in Hlt; [ | exact Hw ].
    assert (Zpos n - 2 < k)%Z.
    { rewrite Zlt_Qlt. unfold Z.sub. rewrite inject_Z_plus.
      change (inject_Z (- (2))) with (- (2)). lra. }
    lia.
Qed.

Section CellEdges.
Variables (W H : positive) (i j : Z).
Hypothesis Hgrid : in_grid W H i j.

Lemma cell_right :
  (x (cell_uv W H i j) >? 1.0 - x (cell_texel W H) * 1.5) = (i =? Zpos W - 1)%Z.
Proof. apply centre_high. apply Hgrid. Qed.

End CellEdges.

(** ** The edge tests of the stencil passes at a fragment of a cell *)

Lemma low_test (w c xu xt : Q) :
  0 < w ->
  Qabs (xu - (c + (1 # 2)) * w) <= (1 # 4) * w ->
  Qabs (xt - w) <= (1 # 4) * w ->
  (c == 0 -> xu < xt * 1.5) /\ (2 <= c -> xt * 1.5 <= xu).
Proof.
  intros Hw Hu Ht.
  apply Qabs_Qle_condition in Hu. apply Qabs_Qle_condition in Ht.
  split; intros Hc.
  - rewrite Hc in Hu. lra.
  - assert (0 <= (c - 2) * w) by (apply Qmult_le_0_compat; lra). lra.
Qed.

Lemma high_test (w n c xu xt : Q) :
  0 < w -> n * w == 1 ->
  Qabs (xu - (c + (1 # 2)) * w) <= (1 # 4) * w ->
  Qabs (xt - w) <= (1 # 4) * w ->
  (c == n - 1 -> 1.0 - xt * 1.5 < xu) /\ (c <= n - 3 -> xu <= 1.0 - xt * 1.5).
Proof.
  intros Hw Hn Hu Ht.
  apply Qabs_Qle_condition in Hu. apply Qabs_Qle_condition in Ht.
  split; intros Hc.
  - rewrite Hc in Hu. lra.
  - assert (0 <= (n - 3 - c) * w) by (apply Qmult_le_0_compat; lra). lra.
Qed.

Lemma near_low (n : positive) (k : Z) (xu xt : Q) :
  (0 <= k)%Z ->
  Qabs (xu - (inject_Z k + (1 # 2)) / inject_Z (Zpos n))
  <= (1 # 4) * (1 / inject_Z (Zpos n)) ->
  Qabs (xt - 1 / inject_Z (Zpos n)) <= (1 # 4) * (1 / inject_Z (Zpos n)) ->
  (xu <? xt * 1.5) = Spec.at_edge k 0 1 (xu <? xt * 1.5).
Proof.
  intros Hk Hu Ht. pose proof (width_pos n) as Hn.
  set (w := 1 / inject_Z (Zpos n)) in *.
  assert (0 < w) as Hw by (apply Qlt_shift_div_l; [ exact Hn | lra ]).
  assert ((inject_Z k + (1 # 2)) / inject_Z (Zpos n) == (inject_Z k + (1 # 2)) * w) as E
    by (subst w; field; lra).
  rewrite E in Hu.
  destruct (low_test w (inject_Z k) xu xt Hw Hu Ht) as [Hedge Hinner].
  unfold Spec.at_edge.
  destruct (Z.eqb_spec k 0) as [-> | Hne0]; cbn [orb].
  - apply ltb_lt, Hedge. reflexivity.
  - destruct (Z.eqb_spec k 1) as [-> | Hne1]; cbn [andb]; [ reflexivity | ].
    apply ltb_ge, Hinner.
    assert (2 <= k)%Z as Hk2 by lia. rewrite Zle_Qle in Hk2. exact Hk2.
Qed.

Lemma near_high (n : positive) (k : Z) (xu xt : Q) :
  (k < Zpos n)%Z ->
  Qabs (xu - (inject_Z k + (1 # 2)) / inject_Z (Zpos n))
  <= (1 # 4) * (1 / inject_Z (Zpos n)) ->
  Qabs (xt - 1 / inject_Z (Zpos n)) <= (1 # 4) * (1 / inject_Z (Zpos n)) ->
  (xu >? 1.0 - xt * 1.5)
  = Spec.at_edge k (Zpos n - 1) (Zpos n - 2) (xu >? 1.0 - xt * 1.5).
Proof.
  intros Hk Hu Ht. pose proof (width_pos n) as Hn.
  set (w := 1 / inject_Z (Zpos n)) in *.
  assert (0 < w) as Hw by (apply Qlt_shift_div_l; [ exact Hn | lra ]).
  assert ((inject_Z k + (1 # 2)) / inject_Z (Zpos n) == (inject_Z k + (1 # 2)) * w) as E
    by (subst w; field; lra).
  assert (inject_Z (Zpos n) * w == 1) as En by (subst w; field; lra).
  rewrite E in Hu.
  destruct (high_test w (inject_Z (Zpos n)) (inject_Z k) xu xt Hw En Hu Ht)
    as [Hedge Hinner].
  unfold Spec.at_edge, gtb.
  destruct (Z.eqb_spec k (Zpos n - 1)) as [-> | Hne0]; cbn [orb].
  - apply ltb_lt, Hedge. unfold Z.sub. rewrite inject_Z_plus. reflexivity.
  - destruct (Z.eqb_spec k (Zpos n - 2)) as [-> | Hne1]; cbn [andb]; [ reflexivity | ].
    apply ltb_ge, Hinner.
    assert (k <= Zpos n - 3)%Z as Hk3 by lia. rewrite Zle_Qle in Hk3.
    unfold Z.sub in Hk3. rewrite inject_Z_plus in Hk3. exact Hk3.
Qed.

Section FragmentEdges.
Variables (W H : positive) (i j : Z) (t uv : vec2).
Hypothesis Hgrid : in_grid W H i j.
Hypothesis Hnear : fragment_of W H i j t uv.

Lemma fragment_left :
  (x uv <? x t * 1.5) = Spec.at_edge i 0 1 (x uv <? x t * 1.5).
Proof. apply (near_low W); [ apply Hgrid | apply Hnear | apply Hnear ]. Qed.

Lemma fragment_right :
  (x uv >? 1.0 - x t * 1.5)
  = Spec.at_edge i (Zpos W - 1) (Zpos W - 2) (x uv >? 1.0 - x t * 1.5).
Proof. apply (near_high W); [ apply Hgrid | apply Hnear | apply Hnear ]. Qed.

Lemma fragment_bottom :
  (y uv <? y t * 1.5) = Spec.at_edge j 0 1 (y uv <? y t * 1.5).
Proof. apply (near_low H); [ apply Hgrid | apply Hnear | apply Hnear ]. Qed.

Lemma fragment_top :
  (y uv >? 1.0 - y t * 1.5)
  = Spec.at_edge j (Zpos H - 1) (Zpos H - 2) (y uv >? 1.0 - y t * 1.5).
Proof. apply (near_high H); [ apply Hgrid | apply Hnear | apply Hnear ]. Qed.

End FragmentEdges.

(* The exact centre and texel of a cell are a fragment of it. *)
Lemma fragment_exact (W H : positive) (i j : Z) :
  fragment_of W H i j (cell_texel W H) (cell_uv W H i j).
Proof.
  pose proof (width_pos W) as HW. pose proof (width_pos H) as HH.
  assert (forall a w, 0 < w -> Qabs (a - a) <= (1 # 4) * (1 / w)) as Hzero.
  { intros a w Hw.
    assert (Qabs (a - a) == 0) as ->
      by (assert (a - a == 0) as -> by ring; reflexivity).
    apply Qmult_le_0_compat; [ lra | ].
    apply Qlt_le_weak, Qlt_shift_div_l; [ exact Hw | lra ]. }
  unfold fragment_of, cell_texel. cbn [x y].
  split; [ | split; [ | split ] ]; apply Hzero; assumption.
Qed.

(** ** The stencil passes *)

Ltac componentwise tac :=
  unfold veq4; cbn [r g b a x y vec4_1 scale4 add4]; repeat split; tac.

Lemma veq4_trans (u v w : vec4) : veq4 u v -> veq4 v w -> veq4 u w.
Proof.
  unfold veq4. intros (E1 & E2 & E3 & E4) (F1 & F2 & F3 & F4).
  rewrite E1, E2, E3, E4. auto.
Qed.

(* Two substitutions in a row, by the obstacle test and by the edge test. *)
Lemma substituted_twice {A : Type} (obstacle edge : bool) (centre neighbour : A) :
  (if edge then centre else if obstacle then centre else neighbour)
  = Spec.substituted (obstacle || edge) centre neighbour.
Proof. destruct obstacle, edge; reflexivity. Qed.

Lemma central_divergence_half (x0 x1 y0 y1 : Q) :
  (x1 - x0 + y1 - y0) * 0.5 == Spec.central_divergence x0 x1 y0 y1.
Proof. unfold Spec.central_divergence. field. Qed.

Lemma divergence_plain (u : DivergencePass.uniforms) (t uv : vec2) :
  DivergencePass.useObstacleMask u = false ->
  veq4 (DivergencePass.main u t uv)
    (vec4_1 (Spec.central_divergence
       (r (DivergencePass.velocity u (uvLeft t uv)))
       (r (DivergencePass.velocity u (uvRight t uv)))
       (g (DivergencePass.velocity u (uvDown t uv)))
       (g (DivergencePass.velocity u (uvUp t uv))))).
Proof.
  intros Hmode. unfold DivergencePass.main. rewrite Hmode. cbn [andb].
  cbv beta iota zeta. unfold texture2D.
  componentwise ltac:(apply central_divergence_half).
Qed.

Lemma jacobi_plain (u : JacobiIterationsPass.uniforms) (t uv : vec2) :
  JacobiIterationsPass.useObstacleMask u = false ->
  veq4 (JacobiIterationsPass.main u t uv)
    (Spec.map5 (Spec.relaxation (JacobiIterationsPass.alpha u)
                  (JacobiIterationsPass.beta u))
       (JacobiIterationsPass.previousIteration u (uvLeft t uv))
       (JacobiIterationsPass.previousIteration u (uvRight t uv))
       (JacobiIterationsPass.previousIteration u (uvDown t uv))
       (JacobiIterationsPass.previousIteration u (uvUp t uv))
       (JacobiIterationsPass.divergence u uv)).
Proof.
  intros Hmode. unfold JacobiIterationsPass.main. rewrite Hmode. cbn [andb].
  cbv beta iota zeta. unfold texture2D, Spec.map5, Spec.relaxation.
  componentwise ltac:(ring).
Qed.

Lemma projection_plain (u : GradientSubstractionPass.uniforms) (t uv : vec2) :
  GradientSubstractionPass.useObstacleMask u = false ->
  veq4 (GradientSubstractionPass.main u t uv)
    (Spec.projected (GradientSubstractionPass.velocity u uv)
       (r (GradientSubstractionPass.pressure u (uvLeft t uv)))
       (r (GradientSubstractionPass.pressure u (uvRight t uv)))
       (r (GradientSubstractionPass.pressure u (uvDown t uv)))
       (r (GradientSubstractionPass.pressure u (uvUp t uv)))).
Proof.
  intros Hmode. unfold GradientSubstractionPass.main. rewrite Hmode. cbn [andb].
  cbv beta iota zeta. unfold texture2D, Spec.projected.
  componentwise ltac:(ring).
Qed.

(* The three stencils at any fragment, in either mode: the substitutions
   are those of the obstacle-aware branches and are off in plain mode. *)
Lemma divergence_general (u : DivergencePass.uniforms) (t uv : vec2) :
  let aware := DivergencePass.useObstacleMask u in
  let vel := DivergencePass.velocity u in
  let obstacle := Spec.is_obstacle (DivergencePass.obstacleMask u) in
  veq4 (DivergencePass.main u t uv)
    (if aware && obstacle uv then vec4_1 0
     else vec4_1 (Spec.central_divergence
       (Spec.substituted (aware && (obstacle (uvLeft t uv) || (x uv <? x t * 1.5)))
          (r (vel uv)) (r (vel (uvLeft t uv))))
       (Spec.substituted
          (aware && (obstacle (uvRight t uv) || (x uv >? 1.0 - x t * 1.5)))
          (r (vel uv)) (r (vel (uvRight t uv))))
       (Spec.substituted (aware && (obstacle (uvDown t uv) || (y uv <? y t * 1.5)))
          (g (vel uv)) (g (vel (uvDown t uv))))
       (Spec.substituted
          (aware && (obstacle (uvUp t uv) || (y uv >? 1.0 - y t * 1.5)))
          (g (vel uv)) (g (vel (uvUp t uv)))))).
Proof.
  intros aware vel obstacle. subst aware vel obstacle.
  destruct (DivergencePass.useObstacleMask u) eqn:Hmode;
    [ | apply divergence_plain, Hmode ].
  unfold DivergencePass.main; rewrite Hmode; cbn [andb]; cbv beta iota zeta.
  rewrite !substituted_twice. unfold Spec.is_obstacle, texture2D.
  destruct (r (DivergencePass.obstacleMask u uv) >? 0.5).
  - componentwise ltac:(reflexivity).
  - componentwise ltac:(apply central_divergence_half).
Qed.

Lemma jacobi_general (u : JacobiIterationsPass.uniforms) (t uv : vec2) :
  let aware := JacobiIterationsPass.useObstacleMask u in
  let prev := JacobiIterationsPass.previousIteration u in
  let obstacle := Spec.is_obstacle (JacobiIterationsPass.obstacleMask u) in
  veq4 (JacobiIterationsPass.main u t uv)
    (if aware && (obstacle uv || (x uv >? 1.0 - x t * 1.5)) then vec4_1 0
     else Spec.map5 (Spec.relaxation (JacobiIterationsPass.alpha u)
                       (JacobiIterationsPass.beta u))
       (Spec.substituted (aware && (obstacle (uvLeft t uv) || (x uv <? x t * 1.5)))
          (prev uv) (prev (uvLeft t uv)))
       (Spec.substituted (aware && obstacle (uvRight t uv))
          (prev uv) (prev (uvRight t uv)))
       (Spec.substituted (aware && (obstacle (uvDown t uv) || (y uv <? y t * 1.5)))
          (prev uv) (prev (uvDown t uv)))
       (Spec.substituted
          (aware && (obstacle (uvUp t uv) || (y uv >? 1.0 - y t * 1.5)))
          (prev uv) (prev (uvUp t uv)))
       (JacobiIterationsPass.divergence u uv)).
Proof.
  intros aware prev obstacle. subst aware prev obstacle.
  destruct (JacobiIterationsPass.useObstacleMask u) eqn:Hmode;
    [ | apply jacobi_plain, Hmode ].
  unfold JacobiIterationsPass.main; rewrite Hmode; cbn [andb]; cbv beta iota zeta.
  unfold Spec.is_obstacle, texture2D.
  destruct (r (JacobiIterationsPass.obstacleMask u uv) >? 0.5);
    [ componentwise ltac:(reflexivity) | ].
  destruct (x uv >? 1.0 - x t * 1.5); [ componentwise ltac:(reflexivity) | ].
  cbn [orb]. rewrite !substituted_twice.
  unfold Spec.map5, Spec.relaxation.
  fold (Spec.substituted (r (JacobiIterationsPass.obstacleMask u (uvRight t uv)) >? 0.5)
          (JacobiIterationsPass.previousIteration u uv)
          (JacobiIterationsPass.previousIteration u (uvRight t uv))).
  componentwise ltac:(ring).
Qed.

Lemma projection_general (u : GradientSubstractionPass.uniforms) (t uv : vec2) :
  let aware := GradientSubstractionPass.useObstacleMask u in
  let vel := GradientSubstractionPass.velocity u in
  let p := fun q => r (GradientSubstractionPass.pressure u q) in
  let obstacle := Spec.is_obstacle (GradientSubstractionPass.obstacleMask u) in
  veq4 (GradientSubstractionPass.main u t uv)
    (if aware && obstacle uv then Vec4 0 0 0 1
     else Spec.projected (vel uv)
       (Spec.substituted (aware && (obstacle (uvLeft t uv) || (x uv <? x t * 1.5)))
          (p uv) (p (uvLeft t uv)))
       (if aware && (x uv >? 1.0 - x t * 1.5) then 0
        else Spec.substituted (aware && obstacle (uvRight t uv))
               (p uv) (p (uvRight t uv)))
       (Spec.substituted (aware && (obstacle (uvDown t uv) || (y uv <? y t * 1.5)))
          (p uv) (p (uvDown t uv)))
       (Spec.substituted
          (aware && (obstacle (uvUp t uv) || (y uv >? 1.0 - y t * 1.5)))
          (p uv) (p (uvUp t uv)))).
Proof.
  intros aware vel p obstacle. subst aware vel p obstacle.
  destruct (GradientSubstractionPass.useObstacleMask u) eqn:Hmode;
    [ | apply projection_plain, Hmode ].
  unfold GradientSubstractionPass.main; rewrite Hmode; cbn [andb];
    cbv beta iota zeta.
  unfold Spec.is_obstacle, texture2D.
  destruct (r (GradientSubstractionPass.obstacleMask u uv) >? 0.5);
    [ componentwise ltac:(reflexivity) | ].
  rewrite !substituted_twice.
  unfold Spec.projected.
  destruct (x uv >? 1.0 - x t * 1.5); cbn [Spec.substituted];
    componentwise ltac:(try ring).
Qed.

(** C4, as stated, fails: with the uniform [useObstacleMask] at its
    default a cell inside an obstacle does not report divergence 0; on
    the velocity field (x, y) on a 128 x 128 grid it reports 1/64. *)
Lemma divergence_obstacle_counterexample :
  Spec.is_obstacle (DivergencePass.obstacleMask Examples.divergence_unaware)
    Examples.inner_cell = true
  /\ r (DivergencePass.main Examples.divergence_unaware Examples.texel128
          Examples.inner_cell) == 1 # 64
  /\ ~ r (DivergencePass.main Examples.divergence_unaware Examples.texel128
            Examples.inner_cell) == 0.
Proof.
  split; [ | split ]; vm_compute; [ reflexivity | reflexivity | ].
  intros E. discriminate E.
Qed.

(** C4, amended.  At a fragment of the cell (i, j) of a W x H grid, when
    the uniform [useObstacleMask] is set: a cell inside an obstacle reports
    divergence 0, and a fluid cell reports ((vx(right) - vx(left)) +
    (vy(up) - vy(down))) / 2, where a neighbour that is an obstacle or lies
    outside the grid is replaced by the centre cell's own velocity
    component.  The shader takes a neighbour to lie outside the grid when
    the fragment is within one and a half texels of that edge: this holds
    in the edge column or row, fails two or more cells in, and one cell in,
    where the cell centre lies exactly on that line, it goes as the
    rounding of the fragment's coordinates decides, so that there the
    neighbour towards the edge may be replaced as well.  The fragment's
    coordinates and texel size may be off the exact ones by up to a quarter
    of a texel.  When the uniform is not set (the constructor's default)
    every fragment reports the plain central difference, with no
    substitution. *)
Theorem divergence_stencil (W H : positive) (i j : Z) (u : DivergencePass.uniforms)
    (t uv : vec2) :
  in_grid W H i j -> fragment_of W H i j t uv ->
  let vel := DivergencePass.velocity u in
  let obstacle := Spec.is_obstacle (DivergencePass.obstacleMask u) in
  let left := Spec.at_edge i 0 1 (x uv <? x t * 1.5) in
  let right := Spec.at_edge i (Zpos W - 1) (Zpos W - 2) (x uv >? 1.0 - x t * 1.5) in
  let bottom := Spec.at_edge j 0 1 (y uv <? y t * 1.5) in
  let top := Spec.at_edge j (Zpos H - 1) (Zpos H - 2) (y uv >? 1.0 - y t * 1.5) in
  (DivergencePass.useObstacleMask u = true ->
   veq4 (DivergencePass.main u t uv)
     (if obstacle uv then vec4_1 0
      else vec4_1 (Spec.central_divergence
        (Spec.substituted (obstacle (uvLeft t uv) || left)
           (r (vel uv)) (r (vel (uvLeft t uv))))
        (Spec.substituted (obstacle (uvRight t uv) || right)
           (r (vel uv)) (r (vel (uvRight t uv))))
        (Spec.substituted (obstacle (uvDown t uv) || bottom)
           (g (vel uv)) (g (vel (uvDown t uv))))
        (Spec.substituted (obstacle (uvUp t uv) || top)
           (g (vel uv)) (g (vel (uvUp t uv)))))))
  /\ (DivergencePass.useObstacleMask u = false ->
      veq4 (DivergencePass.main u t uv)
        (vec4_1 (Spec.central_divergence
           (r (vel (uvLeft t uv))) (r (vel (uvRight t uv)))
           (g (vel (uvDown t uv))) (g (vel (uvUp t uv)))))).
Proof.
  intros Hgrid Hnear vel obstacle left right bottom top.
  subst vel obstacle left right bottom top.
  split; intros Hmode; [ | apply divergence_plain, Hmode ].
  rewrite <- (fragment_left W H i j t uv Hgrid Hnear),
    <- (fragment_right W H i j t uv Hgrid Hnear),
    <- (fragment_bottom W H i j t uv Hgrid Hnear),
    <- (fragment_top W H i j t uv Hgrid Hnear).
  pose proof (divergence_general u t uv) as G. cbv zeta in G.
  rewrite Hmode in G. cbn [andb] in G. exact G.
Qed.

Lemma divergence_stencil_witness :
  veq4 (DivergencePass.main Examples.divergence_roofed Examples.texel128
          Examples.left_edge_cell) (vec4_1 (1 # 128))
  /\ veq4 (DivergencePass.main Examples.divergence_roofed Examples.texel128
             Examples.roofed_cell) (vec4_1 0)
  /\ veq4 (DivergencePass.main Examples.divergence_unaware Examples.texel128
             Examples.left_edge_cell) (vec4_1 (1 # 64)).
Proof.
  assert (in_grid 128 128 0 64) as Hedge by (unfold in_grid; lia).
  assert (in_grid 128 128 0 66) as Hroof by (unfold in_grid; lia).
  assert (fragment_of 128 128 0 64 Examples.texel128 Examples.left_edge_cell)
    as Fedge
    by (split; [ | split; [ | split ] ]; vm_compute; intros E; discriminate E).
  assert (fragment_of 128 128 0 66 Examples.texel128 Examples.roofed_cell)
    as Froof
    by (split; [ | split; [ | split ] ]; vm_compute; intros E; discriminate E).
  destruct (divergence_stencil 128 128 0 64 Examples.divergence_roofed
              Examples.texel128 Examples.left_edge_cell Hedge Fedge)
    as [Haware _].
  destruct (divergence_stencil 128 128 0 66 Examples.divergence_roofed
              Examples.texel128 Examples.roofed_cell Hroof Froof)
    as [Hinside _].
  destruct (divergence_stencil 128 128 0 64 Examples.divergence_unaware
              Examples.texel128 Examples.left_edge_cell Hedge Fedge)
    as [_ Hplain].
  split; [ | split ].
  - eapply veq4_trans; [ exact (Haware eq_refl) | vm_compute; repeat split ].
  - eapply veq4_trans; [ exact (Hinside eq_refl) | vm_compute; repeat split ].
  - eapply veq4_trans; [ exact (Hplain eq_refl) | vm_compute; repeat split ].
Defined.

(** C1, as stated, fails.  First, the sum is multiplied by beta = 0.25,
    not divided by it: with pressure 1 in every cell and no divergence a
    fluid cell in the middle of the grid gets 1, where the formula as
    stated gives 16.  Second, with the uniform [useObstacleMask] at its
    default no neighbour is substituted: a cell with a wall on its left
    still reads the pressure of the wall cell. *)
Lemma jacobi_counterexample :
  let t := Examples.texel128 in
  let uv := Examples.inner_cell in
  (let u := Examples.flat_pressure in
   Spec.is_obstacle (JacobiIterationsPass.obstacleMask u) uv = false
   /\ r (JacobiIterationsPass.main u t uv) == 1
   /\ Spec.relaxation_as_stated (JacobiIterationsPass.alpha u)
        (JacobiIterationsPass.beta u) 1 1 1 1 0 == 16
   /\ ~ r (JacobiIterationsPass.main u t uv)
        == Spec.relaxation_as_stated (JacobiIterationsPass.alpha u)
             (JacobiIterationsPass.beta u) 1 1 1 1 0)
  /\ (let u := Examples.jacobi_unaware in
      let prev := JacobiIterationsPass.previousIteration u in
      Spec.is_obstacle (JacobiIterationsPass.obstacleMask u) uv = false
      /\ Spec.is_obstacle (JacobiIterationsPass.obstacleMask u) (uvLeft t uv) = true
      /\ ~ r (JacobiIterationsPass.main u t uv)
           == Spec.relaxation (JacobiIterationsPass.alpha u)
                (JacobiIterationsPass.beta u)
                (r (prev uv)) (r (prev (uvRight t uv)))
                (r (prev (uvDown t uv))) (r (prev (uvUp t uv))) 0).
Proof.
  cbv zeta. split; [ split; [ | split; [ | split ] ] | split; [ | split ] ];
    vm_compute; try reflexivity; intros E; discriminate E.
Qed.

Lemma jacobi_constants :
  number (prop JacobiIterationsPass.constructor "alpha") == - (1)
  /\ number (prop JacobiIterationsPass.constructor "beta") == 1 # 4.
Proof. split; vm_compute; reflexivity. Qed.

(** C1, amended.  The constructor sets alpha = -1 and beta = 0.25.  At a
    fragment of the cell (i, j) of a W x H grid, when the uniform
    [useObstacleMask] is set, a cell that is not an obstacle and that the
    shader does not take to be on the outflow (right) edge gets
    p' = (p_left + p_right + p_down + p_up + alpha * divergence) * beta,
    where a neighbour that is an obstacle or lies outside the grid is
    replaced by the centre value.  The shader takes a fragment to be on an
    edge when it is within one and a half texels of it: this holds in the
    edge column or row, fails two or more cells in, and one cell in, where
    the cell centre lies exactly on that line, it goes as the rounding of
    the fragment's coordinates decides.  The fragment's coordinates and
    texel size may be off the exact ones by up to a quarter of a texel.
    A cell that is an obstacle, or that the shader takes to be on the
    outflow edge, gets pressure 0.  When the uniform is not set (the constructor's default) every fragment
    gets that value from its four neighbours as they are. *)
Theorem jacobi_stencil (W H : positive) (i j : Z) (u : JacobiIterationsPass.uniforms)
    (t uv : vec2) :
  in_grid W H i j -> fragment_of W H i j t uv ->
  let prev := JacobiIterationsPass.previousIteration u in
  let obstacle := Spec.is_obstacle (JacobiIterationsPass.obstacleMask u) in
  let relax :=
    Spec.map5 (Spec.relaxation (JacobiIterationsPass.alpha u)
                 (JacobiIterationsPass.beta u)) in
  let left := Spec.at_edge i 0 1 (x uv <? x t * 1.5) in
  let right := Spec.at_edge i (Zpos W - 1) (Zpos W - 2) (x uv >? 1.0 - x t * 1.5) in
  let bottom := Spec.at_edge j 0 1 (y uv <? y t * 1.5) in
  let top := Spec.at_edge j (Zpos H - 1) (Zpos H - 2) (y uv >? 1.0 - y t * 1.5) in
  (number (prop JacobiIterationsPass.constructor "alpha") == - (1)
   /\ number (prop JacobiIterationsPass.constructor "beta") == 1 # 4)
  /\ (JacobiIterationsPass.useObstacleMask u = true ->
      obstacle uv = false -> right = false ->
      veq4 (JacobiIterationsPass.main u t uv)
        (relax
           (Spec.substituted (obstacle (uvLeft t uv) || left)
              (prev uv) (prev (uvLeft t uv)))
           (Spec.substituted (obstacle (uvRight t uv))
              (prev uv) (prev (uvRight t uv)))
           (Spec.substituted (obstacle (uvDown t uv) || bottom)
              (prev uv) (prev (uvDown t uv)))
           (Spec.substituted (obstacle (uvUp t uv) || top)
              (prev uv) (prev (uvUp t uv)))
           (JacobiIterationsPass.divergence u uv)))
  /\ (JacobiIterationsPass.useObstacleMask u = true ->
      obstacle uv = true \/ right = true ->
      veq4 (JacobiIterationsPass.main u t uv) (vec4_1 0))
  /\ (JacobiIterationsPass.useObstacleMask u = false ->
      veq4 (JacobiIterationsPass.main u t uv)
        (relax (prev (uvLeft t uv)) (prev (uvRight t uv))
               (prev (uvDown t uv)) (prev (uvUp t uv))
               (JacobiIterationsPass.divergence u uv))).
Proof.
  intros Hgrid Hnear prev obstacle relax left right bottom top.
  subst prev obstacle relax left right bottom top.
  split; [ exact jacobi_constants | ].
  pose proof (jacobi_general u t uv) as G. cbv zeta in G.
  rewrite <- (fragment_right W H i j t uv Hgrid Hnear).
  split; [ intros Hmode Hfluid Hinner | split ].
  - rewrite <- (fragment_left W H i j t uv Hgrid Hnear),
      <- (fragment_bottom W H i j t uv Hgrid Hnear),
      <- (fragment_top W H i j t uv Hgrid Hnear).
    rewrite Hmode, Hfluid, Hinner in G. cbn [andb orb] in G. exact G.
  - intros Hmode Hzero. rewrite Hmode in G. cbn [andb] in G.
    destruct Hzero as [Hzero | Hzero]; rewrite Hzero in G;
      rewrite ?orb_true_r in G; exact G.
  - intros Hmode. apply jacobi_plain, Hmode.
Qed.

Lemma jacobi_stencil_witness :
  veq4 (JacobiIterationsPass.main Examples.jacobi_roofed Examples.texel128
          Examples.left_edge_cell) (Vec4 (3 # 512) (257 # 512) 0 0)
  /\ veq4 (JacobiIterationsPass.main Examples.jacobi_roofed Examples.texel128
             Examples.outflow_cell) (vec4_1 0)
  /\ veq4 (JacobiIterationsPass.main Examples.jacobi_unaware Examples.texel128
             Examples.inner_cell) (Vec4 (129 # 256) (129 # 256) 0 0).
Proof.
  assert (in_grid 128 128 0 64) as Hedge by (unfold in_grid; lia).
  assert (in_grid 128 128 127 64) as Hout by (unfold in_grid; lia).
  assert (in_grid 128 128 64 64) as Hgrid by (unfold in_grid; lia).
  assert (fragment_of 128 128 127 64 Examples.texel128 Examples.outflow_cell)
    as Fout
    by (split; [ | split; [ | split ] ]; vm_compute; intros E; discriminate E).
  assert (fragment_of 128 128 0 64 Examples.texel128 Examples.left_edge_cell)
    as Fedge
    by (split; [ | split; [ | split ] ]; vm_compute; intros E; discriminate E).
  assert (fragment_of 128 128 64 64 Examples.texel128 Examples.inner_cell)
    as Fgrid
    by (split; [ | split; [ | split ] ]; vm_compute; intros E; discriminate E).
  destruct (jacobi_stencil 128 128 0 64 Examples.jacobi_roofed
              Examples.texel128 Examples.left_edge_cell Hedge Fedge)
    as (_ & Haware & _).
  destruct (jacobi_stencil 128 128 127 64 Examples.jacobi_roofed
              Examples.texel128 Examples.outflow_cell Hout Fout)
    as (_ & _ & Hzero & _).
  destruct (jacobi_stencil 128 128 64 64 Examples.jacobi_unaware
              Examples.texel128 Examples.inner_cell Hgrid Fgrid)
    as (_ & _ & _ & Hplain).
  split; [ | split ].
  - eapply veq4_trans;
      [ exact (Haware eq_refl eq_refl eq_refl) | vm_compute; repeat split ].
  - exact (Hzero eq_refl (or_intror eq_refl)).
  - eapply veq4_trans; [ exact (Hplain eq_refl) | vm_compute; repeat split ].
Defined.

(** C5, as stated, fails: with the uniform [useObstacleMask] at its
    default a cell inside an obstacle is not forced to zero velocity; under
    a flat pressure it keeps its velocity (1, 1). *)
Lemma projection_obstacle_counterexample :
  let u := Examples.projection_unaware in
  let out := GradientSubstractionPass.main u Examples.texel128 Examples.inner_cell in
  Spec.is_obstacle (GradientSubstractionPass.obstacleMask u) Examples.inner_cell = true
  /\ r out == 1 /\ g out == 1 /\ ~ r out == 0.
Proof.
  cbv zeta. split; [ | split; [ | split ] ];
    vm_compute; try reflexivity; intros E; discriminate E.
Qed.

(** C5, amended.  At a fragment of the cell (i, j) of a W x H grid, when
    the uniform [useObstacleMask] is set: a cell inside an obstacle gets
    velocity zero, and a fluid cell gets v' = v - 0.5 * grad p by central
    differences, where on the outflow (right) edge the outward neighbour
    counts as pressure 0 and every other neighbour that is an obstacle or
    lies outside the grid is replaced by the centre pressure.  The shader
    takes a fragment to be on an edge when it is within one and a half
    texels of it: this holds in the edge column or row, fails two or more
    cells in, and one cell in, where the cell centre lies exactly on that
    line, it goes as the rounding of the fragment's coordinates decides, so
    that there the neighbour towards the edge may be treated as outside as
    well.  The fragment's coordinates and texel size may be off the exact
    ones by up to a quarter of a texel.  When the uniform is not set (the
    constructor's default) every fragment gets v - 0.5 * grad p from its
    four neighbours as they are. *)
Theorem projection_stencil (W H : positive) (i j : Z)
    (u : GradientSubstractionPass.uniforms) (t uv : vec2) :
  in_grid W H i j -> fragment_of W H i j t uv ->
  let vel := GradientSubstractionPass.velocity u in
  let p := fun q => r (GradientSubstractionPass.pressure u q) in
  let obstacle := Spec.is_obstacle (GradientSubstractionPass.obstacleMask u) in
  let left := Spec.at_edge i 0 1 (x uv <? x t * 1.5) in
  let right := Spec.at_edge i (Zpos W - 1) (Zpos W - 2) (x uv >? 1.0 - x t * 1.5) in
  let bottom := Spec.at_edge j 0 1 (y uv <? y t * 1.5) in
  let top := Spec.at_edge j (Zpos H - 1) (Zpos H - 2) (y uv >? 1.0 - y t * 1.5) in
  (GradientSubstractionPass.useObstacleMask u = true ->
   veq4 (GradientSubstractionPass.main u t uv)
     (if obstacle uv then Vec4 0 0 0 1
      else Spec.projected (vel uv)
        (Spec.substituted (obstacle (uvLeft t uv) || left)
           (p uv) (p (uvLeft t uv)))
        (if right then 0
         else Spec.substituted (obstacle (uvRight t uv)) (p uv) (p (uvRight t uv)))
        (Spec.substituted (obstacle (uvDown t uv) || bottom)
           (p uv) (p (uvDown t uv)))
        (Spec.substituted (obstacle (uvUp t uv) || top)
           (p uv) (p (uvUp t uv)))))
  /\ (GradientSubstractionPass.useObstacleMask u = false ->
      veq4 (GradientSubstractionPass.main u t uv)
        (Spec.projected (vel uv) (p (uvLeft t uv)) (p (uvRight t uv))
           (p (uvDown t uv)) (p (uvUp t uv)))).
Proof.
  intros Hgrid Hnear vel p obstacle left right bottom top.
  subst vel p obstacle left right bottom top.
  split; intros Hmode; [ | apply projection_plain, Hmode ].
  rewrite <- (fragment_left W H i j t uv Hgrid Hnear),
    <- (fragment_right W H i j t uv Hgrid Hnear),
    <- (fragment_bottom W H i j t uv Hgrid Hnear),
    <- (fragment_top W H i j t uv Hgrid Hnear).
  pose proof (projection_general u t uv) as G. cbv zeta in G.
  rewrite Hmode in G. cbn [andb] in G. exact G.
Qed.

Lemma projection_stencil_witness :
  veq4 (GradientSubstractionPass.main Examples.projection_roofed Examples.texel128
          Examples.outflow_cell) (Vec4 (765 # 512) 1 0 1)
  /\ veq4 (GradientSubstractionPass.main Examples.projection_roofed
             Examples.texel128 Examples.roofed_cell) (Vec4 0 0 0 1)
  /\ veq4 (GradientSubstractionPass.main Examples.projection_unaware
             Examples.texel128 Examples.inner_cell) (Vec4 1 1 0 1).
Proof.
  assert (in_grid 128 128 127 64) as Hout by (unfold in_grid; lia).
  assert (in_grid 128 128 0 66) as Hroof by (unfold in_grid; lia).
  assert (in_grid 128 128 64 64) as Hgrid by (unfold in_grid; lia).
  assert (fragment_of 128 128 127 64 Examples.texel128 Examples.outflow_cell)
    as Fout
    by (split; [ | split; [ | split ] ]; vm_compute; intros E; discriminate E).
  assert (fragment_of 128 128 0 66 Examples.texel128 Examples.roofed_cell)
    as Froof
    by (split; [ | split; [ | split ] ]; vm_compute; intros E; discriminate E).
  assert (fragment_of 128 128 64 64 Examples.texel128 Examples.inner_cell)
    as Fgrid
    by (split; [ | split; [ | split ] ]; vm_compute; intros E; discriminate E).
  destruct (projection_stencil 128 128 127 64 Examples.projection_roofed
              Examples.texel128 Examples.outflow_cell Hout Fout)
    as [Haware _].
  destruct (projection_stencil 128 128 0 66 Examples.projection_roofed
              Examples.texel128 Examples.roofed_cell Hroof Froof)
    as [Hinside _].
  destruct (projection_stencil 128 128 64 64 Examples.projection_unaware
              Examples.texel128 Examples.inner_cell Hgrid Fgrid)
    as [_ Hplain].
  split; [ | split ].
  - eapply veq4_trans; [ exact (Haware eq_refl) | vm_compute; repeat split ].
  - eapply veq4_trans; [ exact (Hinside eq_refl) | vm_compute; repeat split ].
  - eapply veq4_trans; [ exact (Hplain eq_refl) | vm_compute; repeat split ].
Defined.

(** ** The update methods *)

Lemma set_uniform_eq (k : string) (params m : gmap string value) :
  set_uniform k params m
  = if defined (prop params k)
    then match m !! k with
         | Some _ => Returned (<[k := prop params k]> m)
         | None => Thrown m
         end
    else Returned m.
Proof. unfold set_uniform. destruct (prop params k); reflexivity. Qed.

(* A key the parameter object does not define is never written, whether
   the method returns or throws. *)
Lemma set_uniforms_untouched (ks : list string) (params m : gmap string value)
    (k : string) :
  defined (prop params k) = false ->
  state_of (set_uniforms ks params m) !! k = m !! k.
Proof.
  intros Hk. revert m. induction ks as [| k0 ks IH]; intros m; cbn; [ reflexivity | ].
  rewrite set_uniform_eq.
  destruct (defined (prop params k0)) eqn:Hk0; cbn; [ | apply IH ].
  destruct (m !! k0); cbn; [ | reflexivity ].
  rewrite IH. apply lookup_insert_ne. intros ->. congruence.
Qed.

Lemma set_uniforms_returns (ks : list string) (params m : gmap string value) :
  (forall k, k ∈ ks -> defined (prop params k) = true -> is_Some (m !! k)) ->
  exists m', set_uniforms ks params m = Returned m'
             /\ dom m' = dom m
             /\ forall k, m' !! k = Spec.updated ks params m k.
Proof.
  revert m. induction ks as [| k0 ks IH]; intros m Hkeys; cbn.
  - exists m. split; [ reflexivity | split; [ reflexivity | ] ].
    intros k. unfold Spec.updated. rewrite bool_decide_eq_false_2; [ reflexivity | ].
    apply not_elem_of_nil.
  - rewrite set_uniform_eq.
    destruct (defined (prop params k0)) eqn:Hk0; cbn.
    + destruct (Hkeys k0 ltac:(left) Hk0) as [v0 Hv0]. rewrite Hv0. cbn.
      destruct (IH (<[k0 := prop params k0]> m)) as (m' & Hrun & Hdom & Hget).
      { intros k Hin Hdef. rewrite lookup_insert. case_decide; [ eauto | ].
        apply Hkeys; [ right; exact Hin | exact Hdef ]. }
      exists m'. split; [ exact Hrun | split ].
      * rewrite Hdom, dom_insert_L.
        assert (k0 ∈ dom m) by (apply elem_of_dom; eauto). set_solver.
      * intros k. rewrite Hget. unfold Spec.updated.
        destruct (decide (k = k0)) as [-> | Hne].
        -- rewrite (bool_decide_eq_true_2 (k0 ∈ k0 :: ks)) by left.
           rewrite Hk0, lookup_insert_eq. cbn.
           destruct (bool_decide (k0 ∈ ks)); reflexivity.
        -- rewrite lookup_insert_ne by congruence.
           rewrite (bool_decide_ext (k ∈ k0 :: ks) (k ∈ ks)); [ reflexivity | ].
           rewrite elem_of_cons. tauto.
    + destruct (IH m) as (m' & Hrun & Hdom & Hget).
      { intros k Hin Hdef. apply Hkeys; [ right; exact Hin | exact Hdef ]. }
      exists m'. split; [ exact Hrun | split; [ exact Hdom | ] ].
      intros k. rewrite Hget. unfold Spec.updated.
      destruct (decide (k = k0)) as [-> | Hne].
      * rewrite Hk0, !andb_false_r. reflexivity.
      * rewrite (bool_decide_ext (k ∈ k0 :: ks) (k ∈ ks)); [ reflexivity | ].
        rewrite elem_of_cons. tauto.
Qed.

Lemma updated_app (ks1 ks2 : list string) (params m m1 : gmap string value)
    (k : string) :
  (forall k, m1 !! k = Spec.updated ks1 params m k) ->
  Spec.updated ks2 params m1 k = Spec.updated (ks1 ++ ks2) params m k.
Proof.
  intros Hm1. unfold Spec.updated. rewrite Hm1. unfold Spec.updated.
  rewrite (bool_decide_ext (k ∈ ks1 ++ ks2) (k ∈ ks1 \/ k ∈ ks2))
    by apply elem_of_app.
  destruct (defined (prop params k)); rewrite ?andb_true_r, ?andb_false_r;
    [ | reflexivity ].
  repeat case_bool_decide; tauto || reflexivity.
Qed.

Lemma composition_update_returns (params : gmap string value)
    (mat : CompositionPass.material) :
  dom (CompositionPass.uniforms mat)
  = dom (CompositionPass.uniforms CompositionPass.constructor) ->
  exists mat',
    CompositionPass.update params mat = Returned mat'
    /\ forall k, CompositionPass.uniforms mat' !! k
                 = Spec.updated CompositionPass.handled params
                     (CompositionPass.uniforms mat) k.
Proof.
  intros Hdom.
  assert (forall (m : gmap string value) k,
            dom m = dom (CompositionPass.uniforms CompositionPass.constructor) ->
            k ∈ CompositionPass.handled -> is_Some (m !! k)) as Hsome.
  { intros m k Hm Hin. apply elem_of_dom. rewrite Hm.
    unfold CompositionPass.handled, CompositionPass.handled_before_mode,
      CompositionPass.handled_after_mode in Hin. cbn in Hin.
    repeat (apply elem_of_cons in Hin as [-> | Hin]; [ vm_compute; reflexivity | ]).
    apply elem_of_nil in Hin. destruct Hin. }
  unfold CompositionPass.update, CompositionPass.on_uniforms.
  destruct (set_uniforms_returns CompositionPass.handled_before_mode params
              (CompositionPass.uniforms mat)) as (m1 & Hrun1 & Hdom1 & Hget1).
  { intros k Hin _. apply Hsome; [ exact Hdom | ].
    unfold CompositionPass.handled. apply elem_of_app. left. exact Hin. }
  rewrite Hrun1. cbn [and_then].
  destruct (set_uniforms_returns CompositionPass.handled_after_mode params m1)
    as (m2 & Hrun2 & Hdom2 & Hget2).
  { intros k Hin _. apply Hsome; [ congruence | ].
    unfold CompositionPass.handled. apply elem_of_app. right. exact Hin. }
  assert (forall k, m2 !! k
                    = Spec.updated CompositionPass.handled params
                        (CompositionPass.uniforms mat) k) as Hget.
  { intros k. rewrite Hget2. apply updated_app, Hget1. }
  unfold CompositionPass.set_mode.
  destruct (prop params "mode");
    try (destruct (decide _));
    cbn [and_then CompositionPass.uniforms];
    rewrite Hrun2; eexists; (split; [ reflexivity | exact Hget ]).
Qed.

(** C10, as stated, fails: JacobiIterationsPass.update does not handle the
    keys alpha and beta, so a parameter object that supplies alpha leaves
    the uniform alpha at its previous value. *)
Lemma update_alpha_counterexample :
  let params : gmap string value := {[ "alpha" := Number 2 ]} in
  let m' := state_of (JacobiIterationsPass.update params
                        JacobiIterationsPass.constructor) in
  defined (prop params "alpha") = true
  /\ JacobiIterationsPass.constructor !! "alpha" = Some (Number (- (1.0)))
  /\ m' !! "alpha" = Some (Number (- (1.0)))
  /\ m' !! "alpha" <> Some (prop params "alpha").
Proof.
  cbv zeta. split; [ | split; [ | split ] ]; vm_compute; try reflexivity.
  intros E. discriminate E.
Qed.

(* The update of DivergencePass and of GradientSubstractionPass also tests
   the key density, for which the material has no uniform: a parameter
   object that supplies it makes the method throw, and the keys after it
   are not applied. *)
Lemma update_density_throws :
  let params : gmap string value :=
    list_to_map [("density", Number 1); ("velocity", Tex (Target velocityRT 0))] in
  let gradient :=
    GradientSubstractionPass.update params GradientSubstractionPass.constructor in
  let divergence := DivergencePass.update params DivergencePass.constructor in
  (thrown gradient = true /\ state_of gradient !! "velocity" = Some DEFAULT_IMAGE)
  /\ (thrown divergence = true
      /\ state_of divergence !! "velocity" = Some DEFAULT_IMAGE).
Proof. cbv zeta. repeat split; vm_compute; reflexivity. Qed.

(** C10, amended.  For every render pass, calling update with a parameter
    object returns with exactly these uniforms set to the supplied value:
    those whose key update handles and the object defines (not undefined);
    every other uniform keeps its previous value -- in particular alpha and
    beta of JacobiIterationsPass, which update does not handle.  This is
    for parameter objects that define no handled key without a uniform
    (the key density of DivergencePass and GradientSubstractionPass). *)
Theorem update_sets_handled_uniforms (resolution : vec2)
    (params : gmap string value) :
  (forall (P : Spec.pass) (m : gmap string value),
     P ∈ Spec.render_passes resolution ->
     dom m = dom (Spec.created P) ->
     (forall k, k ∈ Spec.handled P -> k ∉ dom (Spec.created P) ->
                defined (prop params k) = false) ->
     exists m', Spec.update P params m = Returned m'
                /\ dom m' = dom m
                /\ forall k, m' !! k = Spec.updated (Spec.handled P) params m k)
  /\ (forall mat : CompositionPass.material,
        dom (CompositionPass.uniforms mat)
        = dom (CompositionPass.uniforms CompositionPass.constructor) ->
        exists mat',
          CompositionPass.update params mat = Returned mat'
          /\ forall k, CompositionPass.uniforms mat' !! k
                       = Spec.updated CompositionPass.handled params
                           (CompositionPass.uniforms mat) k)
  /\ ("alpha" ∉ JacobiIterationsPass.handled)
  /\ ("beta" ∉ JacobiIterationsPass.handled).
Proof.
  split; [ | split; [ apply composition_update_returns | ] ].
  - intros P m HP Hdom Hhandled.
    assert (Spec.update P params = set_uniforms (Spec.handled P) params) as ->.
    { unfold Spec.render_passes in HP.
      repeat (apply elem_of_cons in HP as [-> | HP]; [ reflexivity | ]).
      apply elem_of_nil in HP. destruct HP. }
    apply set_uniforms_returns. intros k Hin Hdef.
    apply elem_of_dom. rewrite Hdom.
    destruct (decide (k ∈ dom (Spec.created P))) as [Hk | Hk]; [ exact Hk | ].
    rewrite (Hhandled k Hin Hk) in Hdef. discriminate Hdef.
  - split; intros Hin; vm_compute in Hin;
      repeat (apply elem_of_cons in Hin as [Hin | Hin]; [ discriminate Hin | ]);
      apply elem_of_nil in Hin; destruct Hin.
Qed.

Lemma update_sets_handled_uniforms_witness :
  let params : gmap string value :=
    {[ "previousIteration" := Tex (Target pressureRT 0) ]} in
  exists m',
    JacobiIterationsPass.update params JacobiIterationsPass.constructor = Returned m'
    /\ m' !! "previousIteration" = Some (Tex (Target pressureRT 0))
    /\ m' !! "alpha" = Some (Number (- (1.0))).
Proof.
  cbv zeta.
  destruct (update_sets_handled_uniforms (Vec2 128 128)
              {[ "previousIteration" := Tex (Target pressureRT 0) ]})
    as [Hpasses _].
  destruct (Hpasses
              {| Spec.created := JacobiIterationsPass.constructor;
                 Spec.handled := JacobiIterationsPass.handled;
                 Spec.update := JacobiIterationsPass.update |}
              JacobiIterationsPass.constructor)
    as (m' & Hrun & _ & Hget).
  - unfold Spec.render_passes. do 4 apply list_elem_of_further.
    apply list_elem_of_here.
  - reflexivity.
  - intros k Hin Hout. exfalso. apply Hout. apply elem_of_dom. cbn in Hin.
    repeat (apply elem_of_cons in Hin as [-> | Hin]; [ vm_compute; eauto | ]).
    apply elem_of_nil in Hin. destruct Hin.
  - exists m'. split; [ exact Hrun | ].
    rewrite !Hget. split; vm_compute; reflexivity.
Defined.

(** ** The measurement channel *)

Lemma encode_in_range (x : Q) :
  - (5) < x < 5 ->
  MeasurementPass.encode Main.VALUE_SCALE x == x * (1 # 10) + (1 # 2).
Proof.
  intros Hx. unfold MeasurementPass.encode, Main.VALUE_SCALE.
  assert (x / 10.0 + 0.5 == x * (1 # 10) + (1 # 2)) as E by field.
  rewrite (clamp01_comp _ _ E). apply clamp01_id. lra.
Qed.

Lemma decode_linear (byte : Z) :
  Main.decode byte == (inject_Z byte - (255 # 2)) * (10 # 255).
Proof. unfold Main.decode, Main.VALUE_SCALE. field. Qed.

Lemma to_byte_nearest (e : Q) :
  - (1 # 2) <= inject_Z (Main.to_byte e) - e * 255 <= 1 # 2.
Proof.
  unfold Main.to_byte. pose proof (floor_bounds (e * 255 + 0.5)) as [Hlo Hhi].
  lra.
Qed.

Lemma to_byte_comp (e e' : Q) : e == e' -> Main.to_byte e = Main.to_byte e'.
Proof. intros E. unfold Main.to_byte. apply Qfloor_comp. rewrite E. reflexivity. Qed.

Lemma round_trip_error (x : Q) :
  - (5) < x < 5 ->
  - (1 # 51) <= Main.decode (Main.to_byte (MeasurementPass.encode Main.VALUE_SCALE x)) - x
  <= 1 # 51.
Proof.
  intros Hx.
  rewrite (to_byte_comp _ _ (encode_in_range x Hx)), decode_linear.
  pose proof (to_byte_nearest (x * (1 # 10) + (1 # 2))) as [Hlo Hhi].
  lra.
Qed.

Lemma round_trip_abs (x : Q) :
  Qabs x < Main.VALUE_SCALE / 2 ->
  Qabs (Main.decode (Main.to_byte (MeasurementPass.encode Main.VALUE_SCALE x)) - x)
  <= 1 # 51.
Proof.
  intros Hx. apply Qabs_Qlt_condition in Hx.
  set (h := Main.VALUE_SCALE / 2) in *.
  assert (h == 5) as Eh by reflexivity.
  apply Qabs_Qle_condition. apply round_trip_error. lra.
Qed.

(* Whichever of the two neighbouring levels the device stores, the error
   stays below one step. *)
Lemma round_trip_either_level (x : Q) (byte : Z) :
  Qabs x < Main.VALUE_SCALE / 2 ->
  byte = Qfloor (MeasurementPass.encode Main.VALUE_SCALE x * 255)
  \/ byte = Qceiling (MeasurementPass.encode Main.VALUE_SCALE x * 255) ->
  Qabs (Main.decode byte - x) <= Main.VALUE_SCALE / 255.
Proof.
  intros Hx Hbyte. apply Qabs_Qlt_condition in Hx.
  set (h := Main.VALUE_SCALE / 2) in *.
  assert (h == 5) as Eh by reflexivity.
  set (step := Main.VALUE_SCALE / 255).
  assert (step == 2 # 51) as Es by reflexivity.
  assert (MeasurementPass.encode Main.VALUE_SCALE x * 255
          == (x * (1 # 10) + (1 # 2)) * 255) as E
    by (rewrite encode_in_range by lra; reflexivity).
  pose proof (floor_bounds ((x * (1 # 10) + (1 # 2)) * 255)) as [Hf1 Hf2].
  pose proof (ceiling_bounds ((x * (1 # 10) + (1 # 2)) * 255)) as [Hc1 Hc2].
  rewrite (Qfloor_comp _ _ E), (Qceiling_comp _ _ E) in Hbyte.
  apply Qabs_Qle_condition. rewrite decode_linear.
  destruct Hbyte as [-> | ->]; lra.
Qed.

(** C6.  In exact arithmetic and with the 8-bit target storing the nearest
    level: for every value x with |x| < scale/2, decoding the encoding of x
    gives x within one quantisation step (scale/255), indeed within 0.02
    for the scale 10 of the program; one step also bounds the error when
    the target stores either of the two neighbouring levels; and
    sampleAtPosition hands its own constant VALUE_SCALE to the shader, so
    that the pressure and the two velocity components it returns are within
    0.02 of the sampled values whenever these lie in the range. *)
Theorem measurement_round_trip :
  (forall x : Q,
     Qabs x < Main.VALUE_SCALE / 2 ->
     let back :=
       Main.decode (Main.to_byte (MeasurementPass.encode Main.VALUE_SCALE x)) in
     Qabs (back - x) <= Main.VALUE_SCALE / 255 /\ Qabs (back - x) <= 0.02)
  /\ (forall (x : Q) (byte : Z),
        Qabs x < Main.VALUE_SCALE / 2 ->
        byte = Qfloor (MeasurementPass.encode Main.VALUE_SCALE x * 255)
        \/ byte = Qceiling (MeasurementPass.encode Main.VALUE_SCALE x * 255) ->
        Qabs (Main.decode byte - x) <= Main.VALUE_SCALE / 255)
  /\ (forall (s : store) (m : gmap string value) (p v : value) (x y : Q),
        dom m = dom MeasurementPass.constructor ->
        exists m' smp,
          Main.sampleAtPosition s m p v x y = (Returned m', Some smp)
          /\ let u := MeasurementPass.of_material s m' in
             let pos := MeasurementPass.samplePosition u in
             let P := r (MeasurementPass.pressureTexture u pos) in
             let V := MeasurementPass.velocityTexture u pos in
             MeasurementPass.valueScale u = Main.VALUE_SCALE
             /\ (Qabs P < Main.VALUE_SCALE / 2 ->
                 Qabs (Main.pressure smp - P) <= 0.02)
             /\ (Qabs (r V) < Main.VALUE_SCALE / 2 ->
                 Qabs (Main.velX smp - r V) <= 0.02)
             /\ (Qabs (g V) < Main.VALUE_SCALE / 2 ->
                 Qabs (Main.velY smp - g V) <= 0.02)).
Proof.
  split; [ | split ].
  - intros x Hx back. subst back. pose proof (round_trip_abs x Hx) as Herr.
    set (step := Main.VALUE_SCALE / 255).
    assert (step == 2 # 51) as Es by reflexivity.
    split; lra.
  - exact round_trip_either_level.
  - intros s m p v x y Hdom.
    destruct (set_uniforms_returns MeasurementPass.handled
                (Main.sample_params p v x y) m) as (m' & Hrun & _ & Hget).
    { intros k Hin _. apply elem_of_dom. rewrite Hdom. cbn in Hin.
      repeat (apply elem_of_cons in Hin as [-> | Hin]; [ vm_compute; eauto | ]).
      apply elem_of_nil in Hin. destruct Hin. }
    exists m', (Main.read_sample s m'). split.
    + unfold Main.sampleAtPosition, MeasurementPass.update. rewrite Hrun. reflexivity.
    + assert (prop m' "valueScale" = Number Main.VALUE_SCALE) as Hscale.
      { unfold prop at 1. rewrite Hget. reflexivity. }
      cbv zeta. unfold Main.read_sample, MeasurementPass.main,
        MeasurementPass.of_material, texture2D;
        cbn [MeasurementPass.valueScale MeasurementPass.samplePosition
             MeasurementPass.pressureTexture MeasurementPass.velocityTexture
             Main.pressure Main.velX Main.velY r g b].
      rewrite Hscale. cbn [number].
      split; [ reflexivity | ].
      repeat split; intros Hrange; pose proof (round_trip_abs _ Hrange); lra.
Qed.

Lemma measurement_round_trip_witness :
  Qabs (Main.decode (Main.to_byte (MeasurementPass.encode Main.VALUE_SCALE (7 # 3)))
        - (7 # 3)) <= 0.02.
Proof.
  destruct measurement_round_trip as [Hvalue _].
  apply (Hvalue (7 # 3)). vm_compute. reflexivity.
Defined.

(** ** The render loop never supplies an obstacle mask *)

(* Reduce the field selections of a state built by the stage functions. *)
Ltac app_fields :=
  unfold Main.render_scene, Main.with_velocityDivergencePass,
    Main.with_pressurePass, Main.with_pressureSubstractionPass,
    Main.set_divergenceRT, Main.set_pressureRT, Main.set_velocityRT,
    RenderTarget.set in *;
  cbn [Main.velocityDivergencePass Main.pressurePass
       Main.pressureSubstractionPass Main.velocityRT_ Main.divergenceRT_
       Main.pressureRT_ Main.v Main.d Main.p Main.textures Main.texelSize
       Main.drawn RenderTarget.name RenderTarget.nBuffers RenderTarget.index
       state_of and_then] in *.

Lemma state_of_and_then (P : Main.App -> Prop) (o : outcome Main.App)
    (f : Main.App -> outcome Main.App) :
  P (state_of o) -> (forall st, P st -> P (state_of (f st))) ->
  P (state_of (o >>> f)).
Proof. destruct o; cbn; auto. Qed.

Lemma mask_unused_update (ks : list string) (params m : gmap string value) :
  defined (prop params "useObstacleMask") = false ->
  defined (prop params "obstacleMask") = false ->
  Main.mask_unused m -> Main.mask_unused (state_of (set_uniforms ks params m)).
Proof.
  intros Huse Hmask [Hm1 Hm2]. unfold Main.mask_unused.
  rewrite !set_uniforms_untouched by assumption. auto.
Qed.

Lemma branches_off_divergence (cfg : Main.configuration) (st : Main.App) :
  Main.obstacle_branches_off st ->
  Main.obstacle_branches_off (state_of (Main.divergence_stage cfg st)).
Proof.
  intros (Hd & Hp & Hg). unfold Main.divergence_stage, Main.lift.
  pose proof (mask_unused_update DivergencePass.handled
                (list_to_map [("timeDelta", Number (Main.dt cfg));
                              ("velocity", Main.v st)])
                (Main.velocityDivergencePass st) eq_refl eq_refl Hd) as Hd'.
  unfold DivergencePass.update.
  destruct (set_uniforms _ _ _); cbn [state_of] in *;
    unfold Main.obstacle_branches_off; app_fields; tauto.
Qed.

Lemma branches_off_iteration (st : Main.App) :
  Main.obstacle_branches_off st ->
  Main.obstacle_branches_off (state_of (Main.pressure_iteration st)).
Proof.
  intros (Hd & Hp & Hg). unfold Main.pressure_iteration, Main.lift.
  cbn [Main.set_pressureRT RenderTarget.set Main.render_scene Main.p
       Main.pressurePass Main.textures Main.texelSize].
  pose proof (mask_unused_update JacobiIterationsPass.handled
                (list_to_map
                   [("previousIteration",
                     Tex (Target (RenderTarget.name (Main.pressureRT_ st))
                            (RenderTarget.index (Main.pressureRT_ st))))])
                (Main.pressurePass st) eq_refl eq_refl Hp) as Hp'.
  unfold JacobiIterationsPass.update.
  destruct (set_uniforms _ _ _); cbn [state_of] in *;
    unfold Main.obstacle_branches_off; app_fields; tauto.
Qed.

Lemma branches_off_loop (n : nat) (st : Main.App) :
  Main.obstacle_branches_off st ->
  Main.obstacle_branches_off (state_of (Main.pressure_loop n st)).
Proof.
  revert st. induction n as [| n IH]; intros st Hst; cbn [Main.pressure_loop].
  - exact Hst.
  - apply state_of_and_then; [ apply branches_off_iteration, Hst | exact IH ].
Qed.

Lemma branches_off_pressure (cfg : Main.configuration) (st : Main.App) :
  Main.obstacle_branches_off st ->
  Main.obstacle_branches_off (state_of (Main.pressure_stage cfg st)).
Proof.
  intros (Hd & Hp & Hg). unfold Main.pressure_stage.
  apply state_of_and_then; [ | intros st'; apply branches_off_loop ].
  unfold Main.lift.
  pose proof (mask_unused_update JacobiIterationsPass.handled
                (list_to_map [("divergence", Main.d st)])
                (Main.pressurePass st) eq_refl eq_refl Hp) as Hp'.
  unfold JacobiIterationsPass.update.
  destruct (set_uniforms _ _ _); cbn [state_of] in *;
    unfold Main.obstacle_branches_off; app_fields; tauto.
Qed.

Lemma branches_off_projection (cfg : Main.configuration) (st : Main.App) :
  Main.obstacle_branches_off st ->
  Main.obstacle_branches_off (state_of (Main.projection_stage cfg st)).
Proof.
  intros (Hd & Hp & Hg). unfold Main.projection_stage, Main.lift.
  pose proof (mask_unused_update GradientSubstractionPass.handled
                (list_to_map [("timeDelta", Number (Main.dt cfg));
                              ("velocity", Main.v st); ("pressure", Main.p st)])
                (Main.pressureSubstractionPass st) eq_refl eq_refl Hg) as Hg'.
  unfold GradientSubstractionPass.update.
  destruct (set_uniforms _ _ _); cbn [state_of] in *;
    unfold Main.obstacle_branches_off; app_fields; tauto.
Qed.

Lemma branches_off_solver (cfg : Main.configuration) (st : Main.App) :
  Main.obstacle_branches_off st ->
  Main.obstacle_branches_off (state_of (Main.solver cfg st)).
Proof.
  intros Hst. unfold Main.solver.
  apply state_of_and_then; [ | intros st'; apply branches_off_projection ].
  apply state_of_and_then; [ | intros st'; apply branches_off_pressure ].
  apply branches_off_divergence, Hst.
Qed.

Lemma branches_off_event (st st' : Main.App) :
  Main.event st st' ->
  Main.obstacle_branches_off st -> Main.obstacle_branches_off st'.
Proof.
  intros Hev Hst. destruct Hev as [st st' Hew | | | | ].
  - destruct Hew. unfold Main.obstacle_branches_off in *. congruence.
  - apply branches_off_solver, Hst.
  - apply branches_off_divergence, Hst.
  - apply branches_off_pressure, Hst.
  - apply branches_off_projection, Hst.
Qed.

Lemma branches_off_initial (st : Main.App) :
  Main.initial st -> Main.obstacle_branches_off st.
Proof.
  intros (Hd & Hp & Hg & _). unfold Main.obstacle_branches_off.
  rewrite Hd, Hp, Hg. repeat split.
Qed.

Lemma branches_off_reachable (st : Main.App) :
  Main.reachable st -> Main.obstacle_branches_off st.
Proof.
  induction 1 as [st Hinit | st st' _ IH Hev].
  - apply branches_off_initial, Hinit.
  - exact (branches_off_event st st' Hev IH).
Qed.

Lemma mask_unused_flag (m : gmap string value) :
  Main.mask_unused m -> boolean (prop m "useObstacleMask") = false.
Proof. intros [Huse _]. unfold prop. rewrite Huse. reflexivity. Qed.

(** C3.  In every state the render loop can reach, the uniform
    [useObstacleMask] of DivergencePass, JacobiIterationsPass and
    GradientSubstractionPass is still the constructor's false and their
    [obstacleMask] is still the default image; so, whatever the textures,
    these shaders take none of their obstacle or domain-edge branches:
    each fragment gets the plain stencil over its four neighbours. *)
Theorem obstacle_branches_never_run (st : Main.App) :
  Main.reachable st ->
  Main.obstacle_branches_off st
  /\ forall (s : store) (t uv : vec2),
       (let u := DivergencePass.of_material s (Main.velocityDivergencePass st) in
        DivergencePass.useObstacleMask u = false
        /\ veq4 (DivergencePass.main u t uv)
             (vec4_1 (Spec.central_divergence
                (r (DivergencePass.velocity u (uvLeft t uv)))
                (r (DivergencePass.velocity u (uvRight t uv)))
                (g (DivergencePass.velocity u (uvDown t uv)))
                (g (DivergencePass.velocity u (uvUp t uv))))))
       /\ (let u := JacobiIterationsPass.of_material s (Main.pressurePass st) in
           JacobiIterationsPass.useObstacleMask u = false
           /\ veq4 (JacobiIterationsPass.main u t uv)
                (Spec.map5 (Spec.relaxation (JacobiIterationsPass.alpha u)
                              (JacobiIterationsPass.beta u))
                   (JacobiIterationsPass.previousIteration u (uvLeft t uv))
                   (JacobiIterationsPass.previousIteration u (uvRight t uv))
                   (JacobiIterationsPass.previousIteration u (uvDown t uv))
                   (JacobiIterationsPass.previousIteration u (uvUp t uv))
                   (JacobiIterationsPass.divergence u uv)))
       /\ (let u := GradientSubstractionPass.of_material s
                      (Main.pressureSubstractionPass st) in
           GradientSubstractionPass.useObstacleMask u = false
           /\ veq4 (GradientSubstractionPass.main u t uv)
                (Spec.projected (GradientSubstractionPass.velocity u uv)
                   (r (GradientSubstractionPass.pressure u (uvLeft t uv)))
                   (r (GradientSubstractionPass.pressure u (uvRight t uv)))
                   (r (GradientSubstractionPass.pressure u (uvDown t uv)))
                   (r (GradientSubstractionPass.pressure u (uvUp t uv))))).
Proof.
  intros Hreach. pose proof (branches_off_reachable st Hreach) as Hoff.
  split; [ exact Hoff | ]. destruct Hoff as (Hd & Hp & Hg).
  intros s t uv. cbv zeta.
  pose proof (mask_unused_flag _ Hd) as Fd.
  pose proof (mask_unused_flag _ Hp) as Fp.
  pose proof (mask_unused_flag _ Hg) as Fg.
  split; [ | split ]; (split; [ assumption | ]).
  - apply divergence_plain. exact Fd.
  - apply jacobi_plain. exact Fp.
  - apply projection_plain. exact Fg.
Qed.

Lemma obstacle_branches_never_run_witness :
  Main.obstacle_branches_off
    (state_of (Main.solver Examples.two_iterations Examples.loaded)).
Proof.
  apply obstacle_branches_never_run.
  apply (Main.reach_event Examples.loaded).
  - apply Main.reach_initial. unfold Main.initial. repeat split.
  - apply Main.ev_solver. reflexivity.
Defined.

(** ** The pressure solve *)

Lemma prop_lookup (m : gmap string value) (k : string) (v : value) :
  m !! k = Some v -> prop m k = v.
Proof. intros E. unfold prop. rewrite E. reflexivity. Qed.

Lemma write_same (s : store) (t : texture) (f : sampler2D) : write s t f t = f.
Proof. unfold write. destruct (decide (t = t)); congruence. Qed.

Lemma write_other (s : store) (t t' : texture) (f : sampler2D) :
  t' <> t -> write s t f t' = s t'.
Proof. intros Hne. unfold write. destruct (decide (t' = t)); congruence. Qed.

Lemma sampler_outside (s s' : store) (v : value) :
  ~ Main.pressure_texture v ->
  (forall t, ~ Main.pressure_texture (Tex t) -> s' t = s t) ->
  sampler s' v = sampler s v.
Proof.
  intros Hv Hkeep. destruct v; cbn; try reflexivity. apply Hkeep, Hv.
Qed.

Lemma next_index (i : nat) : (i < 2)%nat -> ((i + 1) mod 2 < 2)%nat /\ (i + 1) mod 2 <> i.
Proof.
  intros Hi. destruct i as [| [| i]]; [ | | lia ]; cbn; split; lia.
Qed.

(* The uniforms the Jacobi shader is drawn with, between stages. *)
Lemma jacobi_uniforms (st : Main.App) (s : store) :
  Main.pressure_inv st ->
  JacobiIterationsPass.main
    (JacobiIterationsPass.of_material s (Main.pressurePass st)) (Main.texelSize st)
  = Main.jacobi_step (Main.texelSize st)
      (sampler s (prop (Main.pressurePass st) "divergence"))
      (sampler s (prop (Main.pressurePass st) "previousIteration")).
Proof.
  intros Hinv. destruct Hinv as [[Huse Hmask] Halpha Hbeta _ _ _ _ _ _].
  unfold Main.jacobi_step, JacobiIterationsPass.of_material.
  rewrite (prop_lookup _ _ _ Huse), (prop_lookup _ _ _ Hmask),
    (prop_lookup _ _ _ Halpha), (prop_lookup _ _ _ Hbeta).
  reflexivity.
Qed.

Lemma jacobi_update_returns (m : gmap string value) (k : string) (v : value) :
  k = "previousIteration" \/ k = "divergence" ->
  Main.mask_unused m ->
  is_Some (m !! k) ->
  exists m', JacobiIterationsPass.update (list_to_map [(k, v)]) m = Returned m'
             /\ m' = state_of (JacobiIterationsPass.update (list_to_map [(k, v)]) m).
Proof.
  intros Hk [Huse Hmask] Hsome.
  destruct (set_uniforms_returns JacobiIterationsPass.handled
              (list_to_map [(k, v)]) m) as (m' & Hrun & _).
  - intros k' Hin Hdef. cbn in Hin.
    repeat (apply elem_of_cons in Hin as [-> | Hin]); try (apply elem_of_nil in Hin; destruct Hin);
      destruct Hk as [-> | ->]; try exact Hsome; eauto;
      vm_compute in Hdef; discriminate Hdef.
  - exists m'. unfold JacobiIterationsPass.update. rewrite Hrun. auto.
Qed.

Lemma lookup_previous_updated (m : gmap string value) (v : value) :
  defined v = true -> is_Some (m !! "previousIteration") ->
  state_of (JacobiIterationsPass.update
              (list_to_map [("previousIteration", v)]) m) !! "previousIteration"
  = Some v.
Proof.
  intros Hv Hsome.
  destruct (set_uniforms_returns JacobiIterationsPass.handled
              (list_to_map [("previousIteration", v)]) m) as (m' & Hrun & _ & Hget).
  - intros k' Hin Hdef. cbn in Hin.
    repeat (apply elem_of_cons in Hin as [-> | Hin]);
      try (apply elem_of_nil in Hin; destruct Hin); try exact Hsome;
      vm_compute in Hdef; discriminate Hdef.
  - unfold JacobiIterationsPass.update. rewrite Hrun. cbn [state_of].
    rewrite Hget. unfold Spec.updated.
    replace (prop (list_to_map [("previousIteration", v)]) "previousIteration")
      with v by reflexivity.
    rewrite Hv. reflexivity.
Qed.

Lemma pressure_iteration_spec (st : Main.App) :
  Main.pressure_inv st ->
  let t := Target pressureRT (RenderTarget.index (Main.pressureRT_ st)) in
  exists st',
    Main.pressure_iteration st = Returned st'
    /\ Main.pressure_inv st'
    /\ Main.outside_pressure_kept st st'
    /\ Main.p st' = Tex t
    /\ prop (Main.pressurePass st') "previousIteration" = Tex t
    /\ Main.textures st' t
       = Main.jacobi_step (Main.texelSize st)
           (sampler (Main.textures st) (prop (Main.pressurePass st) "divergence"))
           (sampler (Main.textures st)
              (prop (Main.pressurePass st) "previousIteration"))
    /\ Main.drawn st' = Main.drawn st ++ [(Main.JacobiScene, t)].
Proof.
  intros Hinv t. subst t.
  set (t := Target pressureRT (RenderTarget.index (Main.pressureRT_ st))).
  pose proof (jacobi_uniforms st (Main.textures st) Hinv) as Hdraw.
  destruct Hinv as [Hmask Halpha Hbeta Hprev [Hdiv Hdivtex] Hd
                      (Hname & Hbuffers & Hindex) Hdname Hwarm].
  destruct (next_index _ Hindex) as [Hnext Hswap].
  destruct (jacobi_update_returns (Main.pressurePass st) "previousIteration"
              (Tex t) ltac:(left; reflexivity) Hmask Hprev) as (m' & Hrun & Hm').
  pose proof (lookup_previous_updated (Main.pressurePass st) (Tex t) eq_refl Hprev)
    as Hnew.
  rewrite <- Hm' in Hnew.
  assert (forall k, defined (prop (list_to_map [("previousIteration", Tex t)]
                                   : gmap string value) k) = false ->
                    m' !! k = Main.pressurePass st !! k) as Hkeep.
  { intros k Hk. rewrite Hm'. unfold JacobiIterationsPass.update.
    apply set_uniforms_untouched, Hk. }
  unfold Main.pressure_iteration, Main.lift. app_fields.
  rewrite Hname. fold t. rewrite Hrun. app_fields.
  eexists. split; [ reflexivity | ].
  split; [ | split; [ | repeat split ] ].
  - constructor; app_fields.
    + destruct Hmask as [Huse Hobst]. split; rewrite Hkeep by reflexivity; assumption.
    + rewrite Hkeep by reflexivity. exact Halpha.
    + rewrite Hkeep by reflexivity. exact Hbeta.
    + rewrite Hnew. eauto.
    + unfold prop. rewrite Hkeep by reflexivity. split; assumption.
    + exact Hd.
    + rewrite Hbuffers. auto.
    + exact Hdname.
    + right. exists (RenderTarget.index (Main.pressureRT_ st)).
      rewrite Hbuffers. split; [ reflexivity | split; [ | exact Hswap ] ].
      apply prop_lookup, Hnew.
  - constructor; app_fields; try reflexivity.
    + unfold prop. rewrite Hkeep by reflexivity. reflexivity.
    + intros t' Ht'. apply write_other. intros ->. apply Ht'. eexists. reflexivity.
  - apply prop_lookup, Hnew.
  - cbn [Main.textures]. rewrite write_same. exact Hdraw.
Qed.

Lemma outside_pressure_kept_refl (st : Main.App) : Main.outside_pressure_kept st st.
Proof. constructor; reflexivity. Qed.

Lemma outside_pressure_kept_trans (st1 st2 st3 : Main.App) :
  Main.outside_pressure_kept st1 st2 -> Main.outside_pressure_kept st2 st3 ->
  Main.outside_pressure_kept st1 st3.
Proof.
  intros H12 H23. constructor.
  1-8: etransitivity; [ apply H23 | apply H12 ].
  intros t Ht. rewrite (Main.opk_textures _ _ H23 t Ht). apply H12, Ht.
Qed.

(* The loop runs its body [n] times: it returns, has drawn the Jacobi scene
   [n] times, and [p] is the [n]-fold relaxation of the texture that the
   uniform previousIteration named at the start. *)
Lemma pressure_loop_spec (n : nat) (st : Main.App) :
  Main.pressure_inv st ->
  exists st',
    Main.pressure_loop n st = Returned st'
    /\ Main.pressure_inv st'
    /\ Main.outside_pressure_kept st st'
    /\ (n = 0%nat -> st' = st)
    /\ ((0 < n)%nat ->
        exists ts t',
          length (ts ++ [t']) = n
          /\ Main.drawn st'
             = Main.drawn st ++ map (pair Main.JacobiScene) (ts ++ [t'])
          /\ Main.p st' = Tex t'
          /\ Main.textures st' t'
             = Nat.iter n
                 (Main.jacobi_step (Main.texelSize st)
                    (sampler (Main.textures st)
                       (prop (Main.pressurePass st) "divergence")))
                 (sampler (Main.textures st)
                    (prop (Main.pressurePass st) "previousIteration"))).
Proof.
  revert st. induction n as [| n IH]; intros st Hinv; cbn [Main.pressure_loop].
  - exists st. split; [ reflexivity | ]. split; [ exact Hinv | ].
    split; [ apply outside_pressure_kept_refl | ]. split; [ reflexivity | lia ].
  - destruct (pressure_iteration_spec st Hinv)
      as (st1 & Hrun1 & Hinv1 & Hkept1 & Hp1 & Hprev1 & Htex1 & Hdrawn1).
    rewrite Hrun1. cbn [and_then].
    destruct (IH st1 Hinv1) as (st' & Hrun & Hinv' & Hkept & Hzero & Hpos).
    exists st'. split; [ exact Hrun | ]. split; [ exact Hinv' | ].
    split; [ exact (outside_pressure_kept_trans _ _ _ Hkept1 Hkept) | ].
    split; [ discriminate | ]. intros _.
    set (t1 := Target pressureRT (RenderTarget.index (Main.pressureRT_ st))) in *.
    destruct n as [| n].
    + rewrite (Hzero eq_refl). exists [], t1.
      repeat split; [ exact Hdrawn1 | exact Hp1 | exact Htex1 ].
    + destruct (Hpos ltac:(lia)) as (ts & t' & Hlen & Hdrawn & Hp & Htex).
      exists (t1 :: ts), t'. split; [ cbn; rewrite Hlen; reflexivity | ].
      split; [ rewrite Hdrawn, Hdrawn1, <- app_assoc; reflexivity | ].
      split; [ exact Hp | ].
      rewrite Htex, Hprev1. cbn [sampler]. rewrite Htex1.
      rewrite (Main.opk_texelSize _ _ Hkept1), (Main.opk_divergence _ _ Hkept1).
      rewrite (sampler_outside (Main.textures st) (Main.textures st1)
                 (prop (Main.pressurePass st) "divergence")
                 (proj2 (Main.pi_divergence _ Hinv))
                 (Main.opk_textures _ _ Hkept1)).
      rewrite <- Nat.iter_succ_r. reflexivity.
Qed.

Lemma lookup_jacobi_updated (m : gmap string value) (k : string) (v : value) :
  k = "previousIteration" \/ k = "divergence" ->
  is_Some (m !! k) ->
  state_of (JacobiIterationsPass.update (list_to_map [(k, v)]) m) !! k
  = if defined v then Some v else m !! k.
Proof.
  intros Hk Hsome.
  destruct (defined v) eqn:Hv.
  - destruct (set_uniforms_returns JacobiIterationsPass.handled
                (list_to_map [(k, v)]) m) as (m' & Hrun & _ & Hget).
    + intros k' Hin Hdef. cbn in Hin.
      repeat (apply elem_of_cons in Hin as [-> | Hin]);
        try (apply elem_of_nil in Hin; destruct Hin);
        destruct Hk as [-> | ->]; try exact Hsome;
        vm_compute in Hdef; discriminate Hdef.
    + unfold JacobiIterationsPass.update. rewrite Hrun. cbn [state_of].
      rewrite Hget. unfold Spec.updated.
      replace (prop (list_to_map [(k, v)]) k) with v
        by (destruct Hk as [-> | ->]; reflexivity).
      rewrite Hv. destruct Hk as [-> | ->]; reflexivity.
  - unfold JacobiIterationsPass.update. apply set_uniforms_untouched.
    destruct Hk as [-> | ->]; exact Hv.
Qed.

Lemma pressure_stage_spec (cfg : Main.configuration) (st : Main.App) :
  Main.pressure_inv st ->
  let n := Main.Iterations cfg in
  let div :=
    sampler (Main.textures st)
      (if defined (Main.d st) then Main.d st
       else prop (Main.pressurePass st) "divergence") in
  let start :=
    sampler (Main.textures st) (prop (Main.pressurePass st) "previousIteration") in
  exists st',
    Main.pressure_stage cfg st = Returned st'
    /\ Main.pressure_inv st'
    /\ Main.velocityRT_ st' = Main.velocityRT_ st
    /\ (n = 0%nat ->
        Main.p st' = Main.p st /\ Main.textures st' = Main.textures st
        /\ Main.drawn st' = Main.drawn st)
    /\ ((0 < n)%nat ->
        exists ts t',
          length (ts ++ [t']) = n
          /\ Main.drawn st'
             = Main.drawn st ++ map (pair Main.JacobiScene) (ts ++ [t'])
          /\ Main.p st' = Tex t'
          /\ Main.textures st' t'
             = Nat.iter n (Main.jacobi_step (Main.texelSize st) div) start).
Proof.
  intros Hinv n div start. subst n div start.
  pose proof Hinv as [Hmask Halpha Hbeta Hprev [Hdiv Hdivtex] Hd Htarget Hdname Hwarm].
  unfold Main.pressure_stage.
  destruct (jacobi_update_returns (Main.pressurePass st) "divergence" (Main.d st)
              ltac:(right; reflexivity) Hmask Hdiv) as (m0 & Hrun0 & Hm0).
  pose proof (lookup_jacobi_updated (Main.pressurePass st) "divergence" (Main.d st)
                ltac:(right; reflexivity) Hdiv) as Hnew.
  rewrite <- Hm0 in Hnew.
  assert (forall k, defined (prop (list_to_map [("divergence", Main.d st)]
                                   : gmap string value) k) = false ->
                    m0 !! k = Main.pressurePass st !! k) as Hkeep.
  { intros k Hk. rewrite Hm0. unfold JacobiIterationsPass.update.
    apply set_uniforms_untouched, Hk. }
  rewrite Hrun0. unfold Main.lift. cbn [and_then].
  set (st0 := Main.with_pressurePass m0 st).
  assert (prop m0 "divergence"
          = if defined (Main.d st) then Main.d st
            else prop (Main.pressurePass st) "divergence") as Hdiv0.
  { unfold prop. rewrite Hnew. destruct (defined (Main.d st)); reflexivity. }
  assert (prop m0 "previousIteration"
          = prop (Main.pressurePass st) "previousIteration") as Hprev0.
  { unfold prop. rewrite Hkeep by reflexivity. reflexivity. }
  assert (Main.pressure_inv st0) as Hinv0.
  { subst st0. constructor; app_fields.
    - destruct Hmask as [Huse Hobst]. split; rewrite Hkeep by reflexivity; assumption.
    - rewrite Hkeep by reflexivity. exact Halpha.
    - rewrite Hkeep by reflexivity. exact Hbeta.
    - rewrite Hkeep by reflexivity. exact Hprev.
    - split.
      + rewrite Hnew. destruct (defined (Main.d st)); eauto.
      + rewrite Hdiv0. destruct (defined (Main.d st)); assumption.
    - exact Hd.
    - exact Htarget.
    - exact Hdname.
    - rewrite Hprev0. exact Hwarm. }
  destruct (pressure_loop_spec (Main.Iterations cfg) st0 Hinv0)
    as (st' & Hrun & Hinv' & Hkept & Hzero & Hpos).
  exists st'. split; [ exact Hrun | ]. split; [ exact Hinv' | ].
  split; [ apply (Main.opk_velocityRT _ _ Hkept) | ]. split.
  - intros Hn. rewrite (Hzero Hn). subst st0. app_fields. auto.
  - intros Hn. destruct (Hpos Hn) as (ts & t' & Hlen & Hdrawn & Hp & Htex).
    exists ts, t'. subst st0. app_fields.
    rewrite Hdiv0, Hprev0 in Htex. auto.
Qed.

Lemma pressure_inv_transfer (st st' : Main.App) :
  Main.pressurePass st' = Main.pressurePass st ->
  Main.pressureRT_ st' = Main.pressureRT_ st ->
  Main.p st' = Main.p st ->
  RenderTarget.name (Main.divergenceRT_ st') = divergenceRT ->
  ~ Main.pressure_texture (Main.d st') ->
  Main.pressure_inv st -> Main.pressure_inv st'.
Proof.
  intros Hpass Hrt Hp Hname Hd [].
  constructor; rewrite ?Hpass, ?Hrt, ?Hp; assumption.
Qed.

Lemma latest_pressure_app (st st' : Main.App) (t : texture)
    (l : list (Main.scene * texture)) :
  Main.drawn st' = Main.drawn st ++ l ->
  Forall (fun e => snd e <> t) l ->
  Main.latest_pressure st t -> Main.latest_pressure st' t.
Proof.
  intros Hdrawn Hl (before & after & Hst & Hafter).
  exists before, (after ++ l). split.
  - rewrite Hdrawn, Hst, <- app_assoc. reflexivity.
  - apply Forall_app. auto.
Qed.

Lemma not_pressure_divergence (i : nat) :
  ~ Main.pressure_texture (Tex (Target divergenceRT i)).
Proof. intros [k Hk]. discriminate Hk. Qed.

Lemma solver_inv_transfer (st st' : Main.App) (l : list (Main.scene * texture)) :
  Main.pressurePass st' = Main.pressurePass st ->
  Main.pressureRT_ st' = Main.pressureRT_ st ->
  Main.p st' = Main.p st ->
  RenderTarget.name (Main.divergenceRT_ st') = divergenceRT ->
  ~ Main.pressure_texture (Main.d st') ->
  RenderTarget.name (Main.velocityRT_ st') = velocityRT ->
  Main.drawn st' = Main.drawn st ++ l ->
  Forall (fun e => ~ Main.pressure_texture (Tex (snd e))) l ->
  Main.solver_inv st -> Main.solver_inv st'.
Proof.
  intros Hpass Hrt Hp Hname Hd Hvel Hdrawn Hl [Hpress _ Hlatest].
  constructor.
  - exact (pressure_inv_transfer st st' Hpass Hrt Hp Hname Hd Hpress).
  - exact Hvel.
  - intros t Ht. rewrite Hp in Ht.
    apply (latest_pressure_app st st' t l Hdrawn); [ | apply Hlatest, Ht ].
    destruct (Main.pi_warm _ Hpress) as [[Hundef _] | (i & Hi & _)];
      [ congruence | ].
    assert (t = Target pressureRT i) as -> by congruence.
    eapply Forall_impl; [ exact Hl | ].
    intros e He Heq. apply He. exists i. rewrite Heq. reflexivity.
Qed.

Lemma solver_inv_initial (st : Main.App) : Main.initial st -> Main.solver_inv st.
Proof.
  intros (_ & Hp & _ & Hvrt & Hdrt & Hprt & _ & Hd & Hpv & _).
  constructor.
  - constructor; rewrite ?Hp, ?Hprt, ?Hdrt, ?Hd, ?Hpv.
    + split; reflexivity.
    + reflexivity.
    + reflexivity.
    + eexists; reflexivity.
    + split; [ eexists; reflexivity | ]. intros [i Hi]. discriminate Hi.
    + intros [i Hi]. discriminate Hi.
    + cbn. repeat split. lia.
    + reflexivity.
    + left. split; reflexivity.
  - rewrite Hvrt. reflexivity.
  - intros t Ht. congruence.
Qed.

Lemma solver_inv_elsewhere (st st' : Main.App) :
  Main.elsewhere st st' -> Main.solver_inv st -> Main.solver_inv st'.
Proof.
  intros Hew Hinv. destruct Hew as [_ Hpass _ Hdrt Hprt [Hvel _] Hd Hp _ _ (l & Hdrawn & Hl)].
  apply (solver_inv_transfer st st' l); try assumption.
  - rewrite Hdrt. apply (Main.pi_divergence_target _ (Main.si_pressure _ Hinv)).
  - rewrite Hd. apply (Main.pi_d _ (Main.si_pressure _ Hinv)).
  - eapply Forall_impl; [ exact Hl | ].
    intros e [_ He] [i Hi]. apply He. exists i. right. congruence.
Qed.

Lemma solver_inv_divergence (cfg : Main.configuration) (st : Main.App) :
  Main.solver_inv st -> Main.solver_inv (state_of (Main.divergence_stage cfg st)).
Proof.
  intros Hinv. pose proof (Main.si_pressure _ Hinv) as Hpress.
  pose proof (Main.pi_divergence_target _ Hpress) as Hname.
  unfold Main.divergence_stage, Main.lift.
  destruct (DivergencePass.update _ _); cbn [and_then state_of].
  - apply (solver_inv_transfer st _
             [(Main.DivergenceScene,
               Target divergenceRT (RenderTarget.index (Main.divergenceRT_ st)))]);
      app_fields; try reflexivity; try assumption.
    + rewrite Hname. apply not_pressure_divergence.
    + apply (Main.si_velocity_target _ Hinv).
    + rewrite Hname. reflexivity.
    + repeat constructor. apply not_pressure_divergence.
  - apply (solver_inv_transfer st _ []); app_fields;
      try reflexivity; try assumption.
    + apply (Main.pi_d _ Hpress).
    + apply (Main.si_velocity_target _ Hinv).
    + rewrite app_nil_r. reflexivity.
    + constructor.
Qed.

Lemma solver_inv_projection (cfg : Main.configuration) (st : Main.App) :
  Main.solver_inv st -> Main.solver_inv (state_of (Main.projection_stage cfg st)).
Proof.
  intros Hinv. pose proof (Main.si_pressure _ Hinv) as Hpress.
  pose proof (Main.si_velocity_target _ Hinv) as Hname.
  unfold Main.projection_stage, Main.lift.
  destruct (GradientSubstractionPass.update _ _); cbn [and_then state_of].
  - apply (solver_inv_transfer st _
             [(Main.GradientScene,
               Target velocityRT (RenderTarget.index (Main.velocityRT_ st)))]);
      app_fields; try reflexivity; try assumption.
    + apply (Main.pi_divergence_target _ Hpress).
    + apply (Main.pi_d _ Hpress).
    + rewrite Hname. reflexivity.
    + repeat constructor. intros [i Hi]. discriminate Hi.
  - apply (solver_inv_transfer st _ []); app_fields;
      try reflexivity; try assumption.
    + apply (Main.pi_divergence_target _ Hpress).
    + apply (Main.pi_d _ Hpress).
    + rewrite app_nil_r. reflexivity.
    + constructor.
Qed.

Lemma solver_inv_pressure (cfg : Main.configuration) (st : Main.App) :
  Main.solver_inv st -> Main.solver_inv (state_of (Main.pressure_stage cfg st)).
Proof.
  intros [Hpress Hvel Hlatest].
  destruct (pressure_stage_spec cfg st Hpress)
    as (st' & Hrun & Hinv' & Hvrt & Hzero & Hpos).
  rewrite Hrun. cbn [state_of]. constructor.
  - exact Hinv'.
  - rewrite Hvrt. exact Hvel.
  - intros t Ht. destruct (Main.Iterations cfg) as [| n] eqn:Hn.
    + destruct (Hzero eq_refl) as (Hp & _ & Hdrawn).
      rewrite Hp in Ht. destruct (Hlatest t Ht) as (before & after & Hst & Hafter).
      exists before, after. rewrite Hdrawn. auto.
    + destruct (Hpos ltac:(lia)) as (ts & t' & _ & Hdrawn & Hp & _).
      assert (t = t') as -> by congruence.
      exists (Main.drawn st ++ map (pair Main.JacobiScene) ts), [].
      split; [ | constructor ].
      rewrite Hdrawn, map_app, app_assoc. reflexivity.
Qed.

Lemma solver_inv_event (st st' : Main.App) :
  Main.event st st' -> Main.solver_inv st -> Main.solver_inv st'.
Proof.
  intros Hev Hst. destruct Hev as [st st' Hew | cfg st _ | | | ].
  - exact (solver_inv_elsewhere st st' Hew Hst).
  - unfold Main.solver.
    apply state_of_and_then; [ | intros ?; apply solver_inv_projection ].
    apply state_of_and_then; [ | intros ?; apply solver_inv_pressure ].
    apply solver_inv_divergence, Hst.
  - apply solver_inv_divergence, Hst.
  - apply solver_inv_pressure, Hst.
  - apply solver_inv_projection, Hst.
Qed.

Lemma solver_inv_reachable (st : Main.App) : Main.reachable st -> Main.solver_inv st.
Proof.
  induction 1 as [st Hinit | st st' _ IH Hev].
  - apply solver_inv_initial, Hinit.
  - exact (solver_inv_event st st' Hev IH).
Qed.



(** * Further properties of the passes *)

(** ** More on the update methods *)

Lemma returned_state_of {A : Type} (o : outcome A) :
  thrown o = false -> o = Returned (state_of o).
Proof. destruct o; [ reflexivity | discriminate ]. Qed.

Lemma set_uniforms_dom (ks : list string) (params m : gmap string value) :
  dom (state_of (set_uniforms ks params m)) = dom m.
Proof.
  revert m. induction ks as [| k0 ks IH]; intros m; cbn; [ reflexivity | ].
  rewrite set_uniform_eq.
  destruct (defined (prop params k0)); cbn; [ | apply IH ].
  destruct (m !! k0) as [v0 |] eqn:Hk0; cbn; [ | reflexivity ].
  rewrite IH, dom_insert_L.
  assert (k0 ∈ dom m) by (apply elem_of_dom; eauto). set_solver.
Qed.

Lemma set_uniforms_thrown (ks : list string) (params m : gmap string value) :
  thrown (set_uniforms ks params m) = true
  <-> exists k, k ∈ ks /\ defined (prop params k) = true /\ m !! k = None.
Proof.
  revert m. induction ks as [| k0 ks IH]; intros m; cbn.
  - split; [ discriminate | ]. intros (k & Hin & _). apply elem_of_nil in Hin. destruct Hin.
  - rewrite set_uniform_eq.
    destruct (defined (prop params k0)) eqn:Hd0; cbn.
    + destruct (m !! k0) as [v0 |] eqn:Hk0; cbn.
      * rewrite IH. split; intros (k & Hin & Hdef & Hnone).
        -- exists k. split; [ right; exact Hin | ]. split; [ exact Hdef | ].
           rewrite lookup_insert in Hnone. case_decide; [ discriminate | exact Hnone ].
        -- exists k. apply elem_of_cons in Hin as [-> | Hin]; [ congruence | ].
           split; [ exact Hin | ]. split; [ exact Hdef | ].
           rewrite lookup_insert. case_decide; [ congruence | exact Hnone ].
      * split; [ | reflexivity ]. intros _. exists k0.
        split; [ left | ]; auto.
    + rewrite IH. split; intros (k & Hin & Hdef & Hnone).
      * exists k. split; [ right; exact Hin | auto ].
      * exists k. apply elem_of_cons in Hin as [-> | Hin]; [ congruence | auto ].
Qed.

Lemma set_uniforms_returned_keys (ks : list string) (params m m' : gmap string value) :
  set_uniforms ks params m = Returned m' ->
  forall k, k ∈ ks -> defined (prop params k) = true -> is_Some (m !! k).
Proof.
  intros Hrun k Hin Hdef.
  destruct (m !! k) as [v |] eqn:Hk; [ eauto | ].
  assert (thrown (set_uniforms ks params m) = true) as Hthrown
    by (apply set_uniforms_thrown; eauto).
  rewrite Hrun in Hthrown. discriminate Hthrown.
Qed.

Lemma set_uniforms_returned_spec (ks : list string) (params m m' : gmap string value) :
  set_uniforms ks params m = Returned m' ->
  dom m' = dom m /\ forall k, m' !! k = Spec.updated ks params m k.
Proof.
  intros Hrun.
  destruct (set_uniforms_returns ks params m
              (set_uniforms_returned_keys ks params m m' Hrun))
    as (m'' & Hrun' & Hdom & Hget).
  assert (m'' = m') as <- by congruence. auto.
Qed.

Lemma pass_update_is_set_uniforms (resolution : vec2) (P : Spec.pass) :
  P ∈ Spec.render_passes resolution ->
  Spec.update P = set_uniforms (Spec.handled P).
Proof.
  intros HP. unfold Spec.render_passes in HP.
  repeat (apply elem_of_cons in HP as [-> | HP]; [ reflexivity | ]).
  apply elem_of_nil in HP. destruct HP.
Qed.

Lemma set_uniforms_idempotent (ks : list string) (params m m' : gmap string value) :
  set_uniforms ks params m = Returned m' ->
  set_uniforms ks params m' = Returned m'.
Proof.
  intros Hrun.
  destruct (set_uniforms_returned_spec _ _ _ _ Hrun) as [Hdom Hget].
  destruct (set_uniforms_returns ks params m') as (m'' & Hrun' & _ & Hget').
  - intros k Hin Hdef. apply elem_of_dom. rewrite Hdom. apply elem_of_dom.
    exact (set_uniforms_returned_keys _ _ _ _ Hrun k Hin Hdef).
  - rewrite Hrun'. f_equal. apply map_eq. intros k.
    rewrite Hget'. unfold Spec.updated. rewrite Hget. unfold Spec.updated.
    destruct (bool_decide (k ∈ ks) && defined (prop params k)); reflexivity.
Qed.

Lemma set_uniforms_commute (ks : list string) (p1 p2 m m1 m12 : gmap string value) :
  (forall k, k ∈ ks -> defined (prop p1 k) && defined (prop p2 k) = false) ->
  set_uniforms ks p1 m = Returned m1 ->
  set_uniforms ks p2 m1 = Returned m12 ->
  exists m2, set_uniforms ks p2 m = Returned m2
             /\ set_uniforms ks p1 m2 = Returned m12.
Proof.
  intros Hdisjoint Hrun1 Hrun12.
  destruct (set_uniforms_returned_spec _ _ _ _ Hrun1) as [Hdom1 Hget1].
  destruct (set_uniforms_returned_spec _ _ _ _ Hrun12) as [Hdom12 Hget12].
  pose proof (set_uniforms_returned_keys _ _ _ _ Hrun1) as Hkeys1.
  pose proof (set_uniforms_returned_keys _ _ _ _ Hrun12) as Hkeys12.
  destruct (set_uniforms_returns ks p2 m) as (m2 & Hrun2 & Hdom2 & Hget2).
  { intros k Hin Hdef. apply elem_of_dom. rewrite <- Hdom1. apply elem_of_dom.
    exact (Hkeys12 k Hin Hdef). }
  destruct (set_uniforms_returns ks p1 m2) as (m21 & Hrun21 & _ & Hget21).
  { intros k Hin Hdef. apply elem_of_dom. rewrite Hdom2. apply elem_of_dom.
    exact (Hkeys1 k Hin Hdef). }
  exists m2. split; [ exact Hrun2 | ]. rewrite Hrun21. f_equal.
  apply map_eq. intros k.
  rewrite Hget21, Hget12. unfold Spec.updated. rewrite Hget2, Hget1.
  unfold Spec.updated.
  destruct (bool_decide (k ∈ ks)) eqn:Hin; cbn [andb]; [ | reflexivity ].
  apply bool_decide_eq_true in Hin. specialize (Hdisjoint k Hin).
  destruct (defined (prop p1 k)), (defined (prop p2 k));
    try reflexivity; discriminate Hdisjoint.
Qed.

(* CompositionPass.update sets its uniforms like every other pass; between
   the first key and the others it handles [mode], which sets the define
   MODE, touches no uniform and cannot throw. *)
Lemma set_uniforms_app (ks1 ks2 : list string) (params m : gmap string value) :
  set_uniforms (ks1 ++ ks2) params m
  = set_uniforms ks1 params m >>> set_uniforms ks2 params.
Proof.
  revert m. induction ks1 as [| k ks1 IH]; intros m; cbn; [ reflexivity | ].
  destruct (set_uniform k params m) as [m1 | m1]; cbn; [ apply IH | reflexivity ].
Qed.

Lemma set_mode_undefined (params : gmap string value) (m : CompositionPass.material) :
  defined (prop params "mode") = false -> CompositionPass.set_mode params m = Returned m.
Proof.
  unfold CompositionPass.set_mode.
  destruct (prop params "mode"); cbn; intros Hdef; (reflexivity || discriminate Hdef).
Qed.

Lemma set_mode_returns (params : gmap string value) (m : CompositionPass.material) :
  CompositionPass.set_mode params m
  = Returned (state_of (CompositionPass.set_mode params m))
  /\ CompositionPass.uniforms (state_of (CompositionPass.set_mode params m))
     = CompositionPass.uniforms m.
Proof.
  unfold CompositionPass.set_mode.
  destruct (prop params "mode"); cbn; try (split; reflexivity);
    case_decide; cbn; split; reflexivity.
Qed.

(* What set_mode leaves in MODE and needsUpdate depends on these two fields
   only. *)
Lemma set_mode_fields (params : gmap string value) (m m' : CompositionPass.material) :
  CompositionPass.MODE m = CompositionPass.MODE m' ->
  CompositionPass.needsUpdate m = CompositionPass.needsUpdate m' ->
  CompositionPass.MODE (state_of (CompositionPass.set_mode params m))
  = CompositionPass.MODE (state_of (CompositionPass.set_mode params m'))
  /\ CompositionPass.needsUpdate (state_of (CompositionPass.set_mode params m))
     = CompositionPass.needsUpdate (state_of (CompositionPass.set_mode params m')).
Proof.
  intros Hmode Hneeds. unfold CompositionPass.set_mode.
  destruct (prop params "mode"); cbn; try (split; assumption);
    rewrite <- Hmode; case_decide; cbn; split; auto.
Qed.

Lemma set_mode_again (params : gmap string value) (m0 m1 : CompositionPass.material) :
  CompositionPass.MODE m1
  = CompositionPass.MODE (state_of (CompositionPass.set_mode params m0)) ->
  CompositionPass.set_mode params m1 = Returned m1.
Proof.
  unfold CompositionPass.set_mode.
  destruct (prop params "mode"); cbn; try reflexivity;
    intros Hmode; repeat case_decide; cbn in *; try reflexivity; congruence.
Qed.

Lemma composition_update_uniforms (params : gmap string value)
    (mat : CompositionPass.material) :
  thrown (CompositionPass.update params mat)
  = thrown (set_uniforms CompositionPass.handled params (CompositionPass.uniforms mat))
  /\ CompositionPass.uniforms (state_of (CompositionPass.update params mat))
     = state_of (set_uniforms CompositionPass.handled params
                   (CompositionPass.uniforms mat)).
Proof.
  unfold CompositionPass.update, CompositionPass.handled, CompositionPass.on_uniforms.
  rewrite set_uniforms_app.
  destruct (set_uniforms CompositionPass.handled_before_mode params
              (CompositionPass.uniforms mat)) as [u1 | u1];
    cbn [and_then thrown state_of CompositionPass.uniforms]; [ | split; reflexivity ].
  match goal with
  | |- context [ CompositionPass.set_mode params ?m ] =>
      destruct (set_mode_returns params m) as [Hret Hsame]; rewrite Hret;
      cbn [and_then]; rewrite Hsame
  end.
  cbn [CompositionPass.uniforms].
  destruct (set_uniforms CompositionPass.handled_after_mode params u1);
    split; reflexivity.
Qed.

Lemma composition_update_returned (params : gmap string value)
    (mat : CompositionPass.material) (u' : gmap string value) :
  set_uniforms CompositionPass.handled params (CompositionPass.uniforms mat)
  = Returned u' ->
  CompositionPass.update params mat = Returned (Spec.composition_after params mat u').
Proof.
  unfold CompositionPass.update, CompositionPass.handled, CompositionPass.on_uniforms,
    Spec.composition_after.
  rewrite set_uniforms_app.
  destruct (set_uniforms CompositionPass.handled_before_mode params
              (CompositionPass.uniforms mat)) as [u1 | u1];
    cbn [and_then]; [ | discriminate ].
  intros Hrun.
  match goal with
  | |- context [ CompositionPass.set_mode params ?m ] =>
      destruct (set_mode_returns params m) as [Hret Hsame];
      destruct (set_mode_fields params m mat eq_refl eq_refl) as [Hmode Hneeds];
      rewrite Hret; cbn [and_then]; rewrite Hsame
  end.
  cbn [CompositionPass.uniforms]. rewrite Hrun, Hmode, Hneeds. reflexivity.
Qed.

Lemma composition_update_inv (params : gmap string value)
    (mat mat' : CompositionPass.material) :
  CompositionPass.update params mat = Returned mat' ->
  set_uniforms CompositionPass.handled params (CompositionPass.uniforms mat)
  = Returned (CompositionPass.uniforms mat')
  /\ mat' = Spec.composition_after params mat (CompositionPass.uniforms mat').
Proof.
  intros Hrun.
  destruct (composition_update_uniforms params mat) as [Hthrown Hstate].
  rewrite Hrun in Hthrown, Hstate. cbn [thrown state_of] in Hthrown, Hstate.
  assert (set_uniforms CompositionPass.handled params (CompositionPass.uniforms mat)
          = Returned (CompositionPass.uniforms mat')) as Hset.
  { rewrite Hstate. apply returned_state_of. symmetry. exact Hthrown. }
  split; [ exact Hset | ].
  pose proof (composition_update_returned params mat _ Hset) as Hrun'.
  congruence.
Qed.

(** X1.  For every render pass of the sources -- the nine passes whose
    update only sets uniforms, and CompositionPass, whose update also takes
    the key [mode], which sets the define MODE and is no uniform -- update
    throws exactly when the parameter object defines a uniform key that
    update handles and for which the material has no uniform; and whether
    it returns or throws, it neither adds nor removes a uniform. *)
Theorem update_throws_exactly (resolution : vec2) (params : gmap string value) :
  (forall (P : Spec.pass) (m : gmap string value),
     P ∈ Spec.render_passes resolution ->
     (thrown (Spec.update P params m) = true
      <-> exists k, k ∈ Spec.handled P /\ defined (prop params k) = true
                    /\ m !! k = None)
     /\ dom (state_of (Spec.update P params m)) = dom m)
  /\ (forall mat : CompositionPass.material,
        (thrown (CompositionPass.update params mat) = true
         <-> exists k, k ∈ CompositionPass.handled
                       /\ defined (prop params k) = true
                       /\ CompositionPass.uniforms mat !! k = None)
        /\ dom (CompositionPass.uniforms
                  (state_of (CompositionPass.update params mat)))
           = dom (CompositionPass.uniforms mat)).
Proof.
  split.
  - intros P m HP. rewrite (pass_update_is_set_uniforms resolution P HP).
    split; [ apply set_uniforms_thrown | apply set_uniforms_dom ].
  - intros mat. destruct (composition_update_uniforms params mat) as [-> ->].
    split; [ apply set_uniforms_thrown | apply set_uniforms_dom ].
Qed.

Lemma update_throws_exactly_witness :
  thrown (GradientSubstractionPass.update {[ "density" := Number 1 ]}
            GradientSubstractionPass.constructor) = true
  /\ dom (CompositionPass.uniforms
            (state_of (CompositionPass.update {[ "mode" := Str "Spectral" ]}
                         CompositionPass.constructor)))
     = dom (CompositionPass.uniforms CompositionPass.constructor).
Proof.
  split.
  - destruct (update_throws_exactly (Vec2 128 128) {[ "density" := Number 1 ]})
      as [Hpass _].
    destruct (Hpass
                {| Spec.created := GradientSubstractionPass.constructor;
                   Spec.handled := GradientSubstractionPass.handled;
                   Spec.update := GradientSubstractionPass.update |}
                GradientSubstractionPass.constructor)
      as [[_ Hthrows] _].
    + unfold Spec.render_passes. do 5 apply list_elem_of_further.
      apply list_elem_of_here.
    + apply Hthrows. exists "density". repeat split.
      cbn. apply list_elem_of_further, list_elem_of_here.
  - destruct (update_throws_exactly (Vec2 128 128) {[ "mode" := Str "Spectral" ]})
      as [_ Hcomposition].
    destruct (Hcomposition CompositionPass.constructor) as [_ Hdom].
    exact Hdom.
Defined.

(** X2.  For every render pass of the sources, CompositionPass with its
    define MODE and its flag needsUpdate included, update is idempotent:
    when a call returns, repeating it with the same parameter object
    returns the same material. *)
Theorem update_idempotent (resolution : vec2) (params : gmap string value) :
  (forall (P : Spec.pass) (m m' : gmap string value),
     P ∈ Spec.render_passes resolution ->
     Spec.update P params m = Returned m' ->
     Spec.update P params m' = Returned m')
  /\ (forall mat mat' : CompositionPass.material,
        CompositionPass.update params mat = Returned mat' ->
        CompositionPass.update params mat' = Returned mat').
Proof.
  split.
  - intros P m m' HP. rewrite (pass_update_is_set_uniforms resolution P HP).
    apply set_uniforms_idempotent.
  - intros mat mat' Hrun.
    destruct (composition_update_inv params mat mat' Hrun) as [Hset Hmat'].
    apply set_uniforms_idempotent in Hset.
    rewrite (composition_update_returned params mat' _ Hset).
    unfold Spec.composition_after.
    rewrite (set_mode_again params mat mat') by (rewrite Hmat' at 1; reflexivity).
    cbn [state_of]. destruct mat'; reflexivity.
Qed.

Lemma update_idempotent_witness :
  (let params : gmap string value := {[ "divergence" := Tex (Target divergenceRT 0) ]} in
   let m' := state_of (JacobiIterationsPass.update params
                         JacobiIterationsPass.constructor) in
   JacobiIterationsPass.update params m' = Returned m')
  /\ (let params : gmap string value := {[ "mode" := Str "Spectral" ]} in
      let mat' := state_of (CompositionPass.update params
                              CompositionPass.constructor) in
      CompositionPass.update params mat' = Returned mat').
Proof.
  cbv zeta. split.
  - destruct (update_idempotent (Vec2 128 128)
                {[ "divergence" := Tex (Target divergenceRT 0) ]}) as [Hpass _].
    apply (Hpass
             {| Spec.created := JacobiIterationsPass.constructor;
                Spec.handled := JacobiIterationsPass.handled;
                Spec.update := JacobiIterationsPass.update |}
             JacobiIterationsPass.constructor).
    + unfold Spec.render_passes. do 4 apply list_elem_of_further.
      apply list_elem_of_here.
    + cbn [Spec.update]. apply returned_state_of. vm_compute. reflexivity.
  - destruct (update_idempotent (Vec2 128 128) {[ "mode" := Str "Spectral" ]})
      as [_ Hcomposition].
    apply (Hcomposition CompositionPass.constructor).
    apply returned_state_of. vm_compute. reflexivity.
Defined.

(** X3.  For every render pass of the sources, two updates whose parameter
    objects define no handled key in common -- for CompositionPass the key
    [mode] counts as handled -- commute: when they return in one order they
    return in the other order, with the same material. *)
Theorem update_disjoint_commute (resolution : vec2) (p1 p2 : gmap string value) :
  (forall (P : Spec.pass) (m m1 m12 : gmap string value),
     P ∈ Spec.render_passes resolution ->
     (forall k, k ∈ Spec.handled P ->
                defined (prop p1 k) && defined (prop p2 k) = false) ->
     Spec.update P p1 m = Returned m1 ->
     Spec.update P p2 m1 = Returned m12 ->
     exists m2, Spec.update P p2 m = Returned m2
                /\ Spec.update P p1 m2 = Returned m12)
  /\ (forall mat mat1 mat12 : CompositionPass.material,
        (forall k, k ∈ "mode" :: CompositionPass.handled ->
                   defined (prop p1 k) && defined (prop p2 k) = false) ->
        CompositionPass.update p1 mat = Returned mat1 ->
        CompositionPass.update p2 mat1 = Returned mat12 ->
        exists mat2, CompositionPass.update p2 mat = Returned mat2
                     /\ CompositionPass.update p1 mat2 = Returned mat12).
Proof.
  split.
  - intros P m m1 m12 HP Hdisjoint.
    rewrite (pass_update_is_set_uniforms resolution P HP).
    apply set_uniforms_commute, Hdisjoint.
  - intros mat mat1 mat12 Hdisjoint Hrun1 Hrun12.
    destruct (composition_update_inv p1 mat mat1 Hrun1) as [Hset1 Hmat1].
    destruct (composition_update_inv p2 mat1 mat12 Hrun12) as [Hset12 Hmat12].
    destruct (set_uniforms_commute CompositionPass.handled p1 p2 _ _ _
                ltac:(intros k Hk; apply Hdisjoint; right; exact Hk) Hset1 Hset12)
      as (u2 & Hset2 & Hset21).
    exists (Spec.composition_after p2 mat u2).
    split; [ exact (composition_update_returned p2 mat u2 Hset2) | ].
    rewrite (composition_update_returned p1 (Spec.composition_after p2 mat u2)
               (CompositionPass.uniforms mat12) Hset21).
    f_equal. etransitivity; [ | symmetry; exact Hmat12 ].
    assert (CompositionPass.MODE mat1
            = CompositionPass.MODE (state_of (CompositionPass.set_mode p1 mat))
            /\ CompositionPass.needsUpdate mat1
               = CompositionPass.needsUpdate
                   (state_of (CompositionPass.set_mode p1 mat)))
      as [Hmode1 Hneeds1] by (rewrite Hmat1; split; reflexivity).
    assert (defined (prop p1 "mode") && defined (prop p2 "mode") = false) as Hmode
      by (apply Hdisjoint; left).
    assert (CompositionPass.MODE
              (state_of (CompositionPass.set_mode p1 (Spec.composition_after p2 mat u2)))
            = CompositionPass.MODE (state_of (CompositionPass.set_mode p2 mat1))
            /\ CompositionPass.needsUpdate
                 (state_of (CompositionPass.set_mode p1 (Spec.composition_after p2 mat u2)))
               = CompositionPass.needsUpdate
                   (state_of (CompositionPass.set_mode p2 mat1)))
      as [Emode Eneeds].
    { destruct (defined (prop p2 "mode")) eqn:H2.
      - assert (defined (prop p1 "mode") = false) as H1
          by (destruct (defined (prop p1 "mode"));
              [ discriminate Hmode | reflexivity ]).
        rewrite (set_mode_undefined p1 mat H1) in Hmode1, Hneeds1.
        rewrite (set_mode_undefined p1 _ H1).
        cbn [state_of Spec.composition_after CompositionPass.MODE
             CompositionPass.needsUpdate] in *.
        apply set_mode_fields; congruence.
      - rewrite (set_mode_undefined p2 mat1 H2). cbn [state_of].
        rewrite Hmode1, Hneeds1.
        apply set_mode_fields; unfold Spec.composition_after;
          rewrite (set_mode_undefined p2 mat H2); reflexivity. }
    unfold Spec.composition_after at 1. rewrite Emode, Eneeds. reflexivity.
Qed.

Lemma update_disjoint_commute_witness :
  (let p1 : gmap string value := {[ "divergence" := Tex (Target divergenceRT 0) ]} in
   let p2 : gmap string value := {[ "previousIteration" := Tex (Target pressureRT 0) ]} in
   exists m2,
     JacobiIterationsPass.update p2 JacobiIterationsPass.constructor = Returned m2
     /\ thrown (JacobiIterationsPass.update p1 m2) = false)
  /\ (let p1 : gmap string value := {[ "mode" := Str "Spectral" ]} in
      let p2 : gmap string value := {[ "spectralMin" := Number 380 ]} in
      exists mat2,
        CompositionPass.update p2 CompositionPass.constructor = Returned mat2
        /\ thrown (CompositionPass.update p1 mat2) = false).
Proof.
  cbv zeta. split.
  - destruct (update_disjoint_commute (Vec2 128 128)
                {[ "divergence" := Tex (Target divergenceRT 0) ]}
                {[ "previousIteration" := Tex (Target pressureRT 0) ]})
      as [Hpass _].
    destruct (Hpass
                {| Spec.created := JacobiIterationsPass.constructor;
                   Spec.handled := JacobiIterationsPass.handled;
                   Spec.update := JacobiIterationsPass.update |}
                JacobiIterationsPass.constructor
                (state_of (JacobiIterationsPass.update
                             {[ "divergence" := Tex (Target divergenceRT 0) ]}
                             JacobiIterationsPass.constructor))
                (state_of (JacobiIterationsPass.update
                             {[ "previousIteration" := Tex (Target pressureRT 0) ]}
                             (state_of (JacobiIterationsPass.update
                                          {[ "divergence" := Tex (Target divergenceRT 0) ]}
                                          JacobiIterationsPass.constructor)))))
      as (m2 & Hrun2 & Hrun21).
    + unfold Spec.render_passes. do 4 apply list_elem_of_further.
      apply list_elem_of_here.
    + intros k Hin. cbn in Hin.
      repeat (apply elem_of_cons in Hin as [-> | Hin]; [ vm_compute; reflexivity | ]).
      apply elem_of_nil in Hin. destruct Hin.
    + cbn [Spec.update]. apply returned_state_of. vm_compute. reflexivity.
    + cbn [Spec.update]. apply returned_state_of. vm_compute. reflexivity.
    + exists m2. split; [ exact Hrun2 | ].
      cbn [Spec.update] in Hrun21. rewrite Hrun21. reflexivity.
  - destruct (update_disjoint_commute (Vec2 128 128)
                {[ "mode" := Str "Spectral" ]} {[ "spectralMin" := Number 380 ]})
      as [_ Hcomposition].
    destruct (Hcomposition CompositionPass.constructor
                (state_of (CompositionPass.update {[ "mode" := Str "Spectral" ]}
                             CompositionPass.constructor))
                (state_of (CompositionPass.update {[ "spectralMin" := Number 380 ]}
                             (state_of (CompositionPass.update
                                          {[ "mode" := Str "Spectral" ]}
                                          CompositionPass.constructor)))))
      as (mat2 & Hrun2 & Hrun21).
    + intros k Hin.
      unfold CompositionPass.handled, CompositionPass.handled_before_mode,
        CompositionPass.handled_after_mode in Hin. cbn [app] in Hin.
      repeat (apply elem_of_cons in Hin as [-> | Hin]; [ vm_compute; reflexivity | ]).
      apply elem_of_nil in Hin. destruct Hin.
    + apply returned_state_of. vm_compute. reflexivity.
    + apply returned_state_of. vm_compute. reflexivity.
    + exists mat2. split; [ exact Hrun2 | ]. rewrite Hrun21. reflexivity.
Defined.


Lemma mode_name_cases (s : string) :
  (match s with
   | "Luminance" => 1 | "Spectral" => 2 | "Gradient" => 3 | _ => 0 end)%Z
  = (if decide (s = "Luminance") then 1
     else if decide (s = "Spectral") then 2
     else if decide (s = "Gradient") then 3 else 0)%Z.
Proof.
  repeat case_decide; subst; try reflexivity.
  repeat (first [ reflexivity | congruence
                | destruct s as [| [b0 b1 b2 b3 b4 b5 b6 b7] s];
                  [ | destruct b0, b1, b2, b3, b4, b5, b6, b7 ] ]).
Qed.

Lemma set_mode_step (mode : Z) (m : CompositionPass.material) :
  exists m',
    (if decide (mode = CompositionPass.MODE m) then Returned m
     else Returned {| CompositionPass.uniforms := CompositionPass.uniforms m;
                      CompositionPass.MODE := mode;
                      CompositionPass.needsUpdate := true |}) = Returned m'
    /\ CompositionPass.uniforms m' = CompositionPass.uniforms m
    /\ CompositionPass.MODE m' = mode
    /\ CompositionPass.needsUpdate m'
       = CompositionPass.needsUpdate m
         || negb (CompositionPass.MODE m' =? CompositionPass.MODE m)%Z.
Proof.
  case_decide as Hmode.
  - exists m. rewrite Z.eqb_refl, orb_false_r. auto.
  - eexists. split; [ reflexivity | ]. cbn.
    apply Z.eqb_neq in Hmode. rewrite Hmode, orb_true_r. auto.
Qed.

Lemma set_mode_spec (params : gmap string value) (m : CompositionPass.material) :
  exists m',
    CompositionPass.set_mode params m = Returned m'
    /\ CompositionPass.uniforms m' = CompositionPass.uniforms m
    /\ CompositionPass.MODE m'
       = match prop params "mode" with
         | Undefined => CompositionPass.MODE m
         | Str s => if decide (s = "Luminance") then 1
                    else if decide (s = "Spectral") then 2
                    else if decide (s = "Gradient") then 3 else 0
         | _ => 0
         end%Z
    /\ CompositionPass.needsUpdate m'
       = CompositionPass.needsUpdate m
         || negb (CompositionPass.MODE m' =? CompositionPass.MODE m)%Z.
Proof.
  unfold CompositionPass.set_mode.
  destruct (prop params "mode") as [ | | bv | q | s | t | w | vx vy vz ];
    try apply set_mode_step.
  - exists m. rewrite Z.eqb_refl, orb_false_r. auto.
  - rewrite <- mode_name_cases. apply set_mode_step.
Qed.
(** X4.  CompositionPass.update turns the mode name into the define MODE:
    1 for Luminance, 2 for Spectral, 3 for Gradient and 0 for every other
    defined value, leaving MODE alone when mode is undefined; it raises
    needsUpdate exactly when MODE changes and never clears it. *)
Theorem composition_update_mode (params : gmap string value)
    (mat : CompositionPass.material) :
  dom (CompositionPass.uniforms mat)
  = dom (CompositionPass.uniforms CompositionPass.constructor) ->
  exists mat',
    CompositionPass.update params mat = Returned mat'
    /\ CompositionPass.MODE mat'
       = match prop params "mode" with
         | Undefined => CompositionPass.MODE mat
         | Str s => if decide (s = "Luminance") then 1
                    else if decide (s = "Spectral") then 2
                    else if decide (s = "Gradient") then 3 else 0
         | _ => 0
         end%Z
    /\ CompositionPass.needsUpdate mat'
       = CompositionPass.needsUpdate mat
         || negb (CompositionPass.MODE mat' =? CompositionPass.MODE mat)%Z.
Proof.
  intros Hdom.
  assert (forall (m : gmap string value) k,
            dom m = dom (CompositionPass.uniforms CompositionPass.constructor) ->
            k ∈ CompositionPass.handled -> is_Some (m !! k)) as Hsome.
  { intros m k Hm Hin. apply elem_of_dom. rewrite Hm.
    unfold CompositionPass.handled, CompositionPass.handled_before_mode,
      CompositionPass.handled_after_mode in Hin. cbn in Hin.
    repeat (apply elem_of_cons in Hin as [-> | Hin]; [ vm_compute; reflexivity | ]).
    apply elem_of_nil in Hin. destruct Hin. }
  unfold CompositionPass.update, CompositionPass.on_uniforms.
  destruct (set_uniforms_returns CompositionPass.handled_before_mode params
              (CompositionPass.uniforms mat)) as (m1 & Hrun1 & Hdom1 & _).
  { intros k Hin _. apply Hsome; [ exact Hdom | ].
    unfold CompositionPass.handled. apply elem_of_app. left. exact Hin. }
  rewrite Hrun1. cbn [and_then].
  destruct (set_mode_spec params
              {| CompositionPass.uniforms := m1;
                 CompositionPass.MODE := CompositionPass.MODE mat;
                 CompositionPass.needsUpdate := CompositionPass.needsUpdate mat |})
    as (m2 & Hrun2 & Hu2 & Hmode2 & Hneeds2).
  rewrite Hrun2. cbn [and_then]. cbn in Hu2, Hmode2, Hneeds2.
  destruct (set_uniforms_returns CompositionPass.handled_after_mode params
              (CompositionPass.uniforms m2)) as (m3 & Hrun3 & _ & _).
  { intros k Hin _. apply Hsome; [ congruence | ].
    unfold CompositionPass.handled. apply elem_of_app. right. exact Hin. }
  rewrite Hrun3. eexists. split; [ reflexivity | ]. cbn. auto.
Qed.

Lemma composition_update_mode_witness :
  exists mat',
    CompositionPass.update {[ "mode" := Str "Spectral" ]} CompositionPass.constructor
    = Returned mat'
    /\ CompositionPass.MODE mat' = 2%Z
    /\ CompositionPass.needsUpdate mat' = true.
Proof.
  destruct (composition_update_mode {[ "mode" := Str "Spectral" ]}
              CompositionPass.constructor eq_refl)
    as (mat' & Hrun & Hmode & Hneeds).
  exists mat'. split; [ exact Hrun | ].
  change (prop {[ "mode" := Str "Spectral" ]} "mode") with (Str "Spectral") in Hmode.
  cbn in Hmode. split; [ exact Hmode | ].
  rewrite Hneeds, Hmode. reflexivity.
Defined.

(** ** More on the stencil passes *)

Lemma substituted_bounds (blocked : bool) (c n lo hi : Q) :
  lo <= c <= hi -> lo <= n <= hi -> lo <= Spec.substituted blocked c n <= hi.
Proof. destruct blocked; auto. Qed.

Lemma substituted_r (blocked : bool) (c n : vec4) :
  r (Spec.substituted blocked c n) = Spec.substituted blocked (r c) (r n).
Proof. destruct blocked; reflexivity. Qed.

(** X5.  With the obstacle mask in use, the pressure solver pins the
    pressure to 0 at every obstacle cell and at every cell of the outflow
    (right) column of the grid, whatever the previous iteration and the
    divergence hold. *)
Theorem jacobi_zero_at_obstacle_and_outflow (W H : positive) (i j : Z)
    (u : JacobiIterationsPass.uniforms) :
  in_grid W H i j ->
  JacobiIterationsPass.useObstacleMask u = true ->
  Spec.is_obstacle (JacobiIterationsPass.obstacleMask u) (cell_uv W H i j) = true
  \/ i = (Zpos W - 1)%Z ->
  veq4 (JacobiIterationsPass.main u (cell_texel W H) (cell_uv W H i j)) (vec4_1 0).
Proof.
  intros Hgrid Hmode Hzero.
  eapply veq4_trans; [ apply jacobi_general | ].
  rewrite Hmode, (cell_right W H i j Hgrid). cbn [andb].
  destruct Hzero as [-> | ->]; [ | rewrite Z.eqb_refl, orb_true_r ];
    componentwise ltac:(reflexivity).
Qed.

Lemma jacobi_zero_at_obstacle_and_outflow_witness :
  veq4 (JacobiIterationsPass.main Examples.flat_pressure
          (cell_texel 128 128) (cell_uv 128 128 127 64)) (vec4_1 0).
Proof.
  apply (jacobi_zero_at_obstacle_and_outflow 128 128 127 64 Examples.flat_pressure).
  - unfold in_grid. lia.
  - reflexivity.
  - right. reflexivity.
Defined.

(** X6.  Maximum principle of the relaxation step.  With beta = 1/4 and no
    divergence at the fragment, the new pressure lies between the bounds of
    the previous iteration: a step never creates a new extreme.  With the
    obstacle mask in use the range has to contain 0, the value of the
    obstacle and outflow cells. *)
Theorem jacobi_maximum_principle (u : JacobiIterationsPass.uniforms)
    (t uv : vec2) (lo hi : Q) :
  JacobiIterationsPass.beta u == 1 # 4 ->
  r (JacobiIterationsPass.divergence u uv) == 0 ->
  (JacobiIterationsPass.useObstacleMask u = true -> lo <= 0 <= hi) ->
  (forall q, lo <= r (JacobiIterationsPass.previousIteration u q) <= hi) ->
  lo <= r (JacobiIterationsPass.main u t uv) <= hi.
Proof.
  intros Hbeta Hdiv Hzero Hprev.
  destruct (jacobi_general u t uv) as [E _]. rewrite E. clear E.
  destruct (JacobiIterationsPass.useObstacleMask u && _) eqn:Hout.
  - apply andb_true_iff in Hout as [Hmode _]. exact (Hzero Hmode).
  - cbn [Spec.map5 r]. rewrite !substituted_r. unfold Spec.relaxation.
    rewrite Hbeta, Hdiv.
    match goal with
    | |- _ <= (Spec.substituted ?b1 ?c ?n1 + Spec.substituted ?b2 _ ?n2
               + Spec.substituted ?b3 _ ?n3 + Spec.substituted ?b4 _ ?n4
               + _) * _ <= _ =>
        pose proof (substituted_bounds b1 c n1 lo hi (Hprev _) (Hprev _));
        pose proof (substituted_bounds b2 c n2 lo hi (Hprev _) (Hprev _));
        pose proof (substituted_bounds b3 c n3 lo hi (Hprev _) (Hprev _));
        pose proof (substituted_bounds b4 c n4 lo hi (Hprev _) (Hprev _))
    end.
    lra.
Qed.

Lemma jacobi_maximum_principle_witness :
  1 <= r (JacobiIterationsPass.main
            {| JacobiIterationsPass.alpha := - (1.0);
               JacobiIterationsPass.beta := 0.25;
               JacobiIterationsPass.previousIteration :=
                 fun q => vec4_1 (if x q <? 0.5 then 1 else 2);
               JacobiIterationsPass.divergence := fun _ => vec4_1 0;
               JacobiIterationsPass.obstacleMask := unbound;
               JacobiIterationsPass.useObstacleMask := false |}
            Examples.texel128 Examples.inner_cell) <= 2.
Proof.
  apply jacobi_maximum_principle.
  - reflexivity.
  - reflexivity.
  - intros Hmode. discriminate Hmode.
  - intros q. cbn. destruct (x q <? 0.5); lra.
Defined.

(** X7.  The divergence of a uniform flow is 0: when the velocity texture
    holds the same velocity at every point, the divergence stage writes 0
    at every fragment, in either mode and whatever the obstacle mask
    holds. *)
Theorem divergence_of_uniform_flow (u : DivergencePass.uniforms)
    (t uv : vec2) (cx cy : Q) :
  (forall q, r (DivergencePass.velocity u q) == cx
             /\ g (DivergencePass.velocity u q) == cy) ->
  veq4 (DivergencePass.main u t uv) (vec4_1 0).
Proof.
  intros Hflow.
  eapply veq4_trans; [ apply divergence_general | ].
  destruct (DivergencePass.useObstacleMask u && _);
    [ componentwise ltac:(reflexivity) | ].
  destruct (Hflow uv) as [Hx Hy].
  destruct (Hflow (uvLeft t uv)) as [Hleft _].
  destruct (Hflow (uvRight t uv)) as [Hright _].
  destruct (Hflow (uvDown t uv)) as [_ Hdown].
  destruct (Hflow (uvUp t uv)) as [_ Hup].
  unfold Spec.central_divergence, Spec.substituted.
  repeat match goal with |- context [ if ?b then _ else _ ] => destruct b end;
    componentwise ltac:(rewrite ?Hx, ?Hy, ?Hleft, ?Hright, ?Hdown, ?Hup; field).
Qed.

Lemma divergence_of_uniform_flow_witness :
  veq4 (DivergencePass.main
          {| DivergencePass.timeDelta := 0;
             DivergencePass.velocity := Examples.diagonal;
             DivergencePass.obstacleMask := Examples.roof;
             DivergencePass.useObstacleMask := true |}
          Examples.texel128 Examples.left_edge_cell)
       (vec4_1 0).
Proof.
  apply (divergence_of_uniform_flow _ _ _ 1 1).
  intros q. split; reflexivity.
Defined.

(** X8.  Under a uniform pressure the projection changes nothing: when the
    pressure texture holds the same pressure at every point, the projection
    stage writes the velocity it read, in plain mode at every fragment and,
    with the obstacle mask in use, at every fluid fragment that the shader
    does not take to be on the outflow edge (where the outward neighbour
    counts as pressure 0). *)
Theorem projection_under_uniform_pressure (u : GradientSubstractionPass.uniforms)
    (t uv : vec2) (c : Q) :
  (forall q, r (GradientSubstractionPass.pressure u q) == c) ->
  GradientSubstractionPass.useObstacleMask u
  && (Spec.is_obstacle (GradientSubstractionPass.obstacleMask u) uv
      || (x uv >? 1.0 - x t * 1.5)) = false ->
  veq4 (GradientSubstractionPass.main u t uv)
    (Vec4 (r (GradientSubstractionPass.velocity u uv))
          (g (GradientSubstractionPass.velocity u uv)) 0 1).
Proof.
  intros Hflat Hinner.
  eapply veq4_trans; [ apply projection_general | ].
  assert (GradientSubstractionPass.useObstacleMask u
          && Spec.is_obstacle (GradientSubstractionPass.obstacleMask u) uv = false
          /\ GradientSubstractionPass.useObstacleMask u
             && (x uv >? 1.0 - x t * 1.5) = false) as [-> ->].
  { destruct (GradientSubstractionPass.useObstacleMask u); [ | auto ].
    cbn [andb] in *. apply orb_false_iff in Hinner. exact Hinner. }
  pose proof (Hflat uv) as Hcentre.
  pose proof (Hflat (uvLeft t uv)) as Hleft.
  pose proof (Hflat (uvRight t uv)) as Hright.
  pose proof (Hflat (uvDown t uv)) as Hdown.
  pose proof (Hflat (uvUp t uv)) as Hup.
  unfold Spec.projected, Spec.substituted.
  repeat match goal with |- context [ if ?b then _ else _ ] => destruct b end;
    componentwise
      ltac:(rewrite ?Hcentre, ?Hleft, ?Hright, ?Hdown, ?Hup; try ring).
Qed.

Lemma projection_under_uniform_pressure_witness :
  veq4 (GradientSubstractionPass.main
          {| GradientSubstractionPass.timeDelta := 0;
             GradientSubstractionPass.velocity := Examples.ramp;
             GradientSubstractionPass.pressure := fun _ => vec4_1 7;
             GradientSubstractionPass.obstacleMask := Examples.roof;
             GradientSubstractionPass.useObstacleMask := true |}
          Examples.texel128 Examples.left_edge_cell)
       (Vec4 (1 # 256) (129 # 256) 0 1).
Proof.
  eapply veq4_trans.
  - apply (projection_under_uniform_pressure _ _ _ 7).
    + intros q. reflexivity.
    + vm_compute. reflexivity.
  - vm_compute. repeat split.
Defined.

(** ** More on the boundary stage and the chevron pattern *)

Lemma clamp01_integer (z : Z) :
  clamp (inject_Z z) 0.0 1.0 == 0 \/ clamp (inject_Z z) 0.0 1.0 == 1.
Proof.
  destruct (Z_le_gt_dec z 0) as [Hz | Hz].
  - left. apply clamp01_zero. change 0 with (inject_Z 0). rewrite <- Zle_Qle. exact Hz.
  - right. apply clamp01_one. change 1 with (inject_Z 1). rewrite <- Zle_Qle. lia.
Qed.

Lemma edgeMask_binary (flow : bool) (t uv : vec2) :
  BoundaryEdges.edgeMask flow t uv == 0 \/ BoundaryEdges.edgeMask flow t uv == 1.
Proof.
  unfold BoundaryEdges.edgeMask, BoundaryEdges.leftEdgeMask,
    BoundaryEdges.bottomEdgeMask, BoundaryEdges.rightEdgeMask,
    BoundaryEdges.topEdgeMask, ceil.
  destruct flow.
  - rewrite <- inject_Z_plus. apply clamp01_integer.
  - rewrite <- !inject_Z_plus. apply clamp01_integer.
Qed.

Lemma union_binary (e o : Q) :
  e == 0 \/ e == 1 -> o == 0 \/ o == 1 ->
  clamp (e + o) 0.0 1.0 == 0 \/ clamp (e + o) 0.0 1.0 == 1.
Proof.
  intros [He | He] [Ho | Ho].
  - left. apply clamp01_zero. lra.
  - right. apply clamp01_one. lra.
  - right. apply clamp01_one. lra.
  - right. apply clamp01_one. lra.
Qed.

Lemma flip_twice (w : vec4) (m : Q) :
  m == 0 \/ m == 1 ->
  veq4 (scale4 (scale4 w (mix 1.0 (- (1.0)) m)) (mix 1.0 (- (1.0)) m)) w.
Proof.
  intros [E | E]; unfold mix; componentwise ltac:(rewrite E; ring).
Qed.

(** X9.  The boundary stage is its own inverse: run twice with the same
    uniforms it gives back the velocity field it started from, at every
    fragment and for every obstacle pattern, since all it ever does to a
    velocity is to negate it.  Both versions of the pass. *)
Theorem boundary_twice_restores `{Trig} (t uv : vec2) :
  (forall u,
     veq4 (BoundaryPass.main
             {| BoundaryPass.velocity := BoundaryPass.main u t;
                BoundaryPass.flowEnabled := BoundaryPass.flowEnabled u;
                BoundaryPass.chevron := BoundaryPass.chevron u |} t uv)
          (BoundaryPass.velocity u uv))
  /\ (forall u,
        veq4 (BoundaryPassSquare.main
                {| BoundaryPassSquare.velocity := BoundaryPassSquare.main u t;
                   BoundaryPassSquare.flowEnabled := BoundaryPassSquare.flowEnabled u;
                   BoundaryPassSquare.obstacleEnabled :=
                     BoundaryPassSquare.obstacleEnabled u;
                   BoundaryPassSquare.obstaclePos := BoundaryPassSquare.obstaclePos u;
                   BoundaryPassSquare.obstacleSize := BoundaryPassSquare.obstacleSize u;
                   BoundaryPassSquare.aspect := BoundaryPassSquare.aspect u |} t uv)
             (BoundaryPassSquare.velocity u uv)).
Proof.
  split; intros u.
  - unfold BoundaryPass.main at 1, texture2D. cbn [BoundaryPass.velocity].
    unfold BoundaryPass.main, texture2D.
    change (BoundaryPass.mask _ t uv) with (BoundaryPass.mask u t uv).
    apply flip_twice. unfold BoundaryPass.mask.
    apply union_binary; [ apply edgeMask_binary | apply chevronMask_binary ].
  - unfold BoundaryPassSquare.main at 1, texture2D. cbn [BoundaryPassSquare.velocity].
    unfold BoundaryPassSquare.main, texture2D.
    change (BoundaryPassSquare.mask _ t uv) with (BoundaryPassSquare.mask u t uv).
    apply flip_twice. unfold BoundaryPassSquare.mask.
    apply union_binary; [ apply edgeMask_binary | apply square_obstacleMask_binary ].
Qed.

Lemma centre_first (n : positive) (k : Z) :
  (0 <= k)%Z ->
  ((inject_Z k + (1 # 2)) / inject_Z (Zpos n) <? 1 / inject_Z (Zpos n)) = (k =? 0)%Z.
Proof.
  intros Hk. pose proof (width_pos n) as Hw.
  destruct (Z.eqb_spec k 0) as [-> | Hne].
  - apply ltb_lt. apply div_lt_compat; [ exact Hw | reflexivity ].
  - apply ltb_ge. apply Qnot_lt_le. intros Hlt.
    apply div_lt_compat in Hlt; [ | exact Hw ].
    assert (k < 1)%Z by (rewrite Zlt_Qlt; change (inject_Z 1) with 1; lra).
    lia.
Qed.

Lemma centre_last (n : positive) (k : Z) :
  (k < Zpos n)%Z ->
  ((inject_Z k + (1 # 2)) / inject_Z (Zpos n) >? 1 - 1 / inject_Z (Zpos n))
  = (k =? Zpos n - 1)%Z.
Proof.
  intros Hk. pose proof (width_pos n) as Hw. unfold gtb.
  assert (1 - 1 / inject_Z (Zpos n) == (inject_Z (Zpos n) - 1) / inject_Z (Zpos n)) as E
    by (field; lra).
  destruct (Z.eqb_spec k (Zpos n - 1)) as [-> | Hne].
  - apply ltb_lt. rewrite E. apply div_lt_compat; [ exact Hw | ].
    unfold Z.sub. rewrite inject_Z_plus. change (inject_Z (- (1))) with (- (1)). lra.
  - apply ltb_ge. rewrite E. apply Qnot_lt_le. intros Hlt.
    apply div_lt_compat in Hlt; [ | exact Hw ].
    assert (Zpos n - 2 < k)%Z.
    { rewrite Zlt_Qlt. unfold Z.sub. rewrite inject_Z_plus.
      change (inject_Z (- (2))) with (- (2)). lra. }
    lia.
Qed.

Lemma cell_in_domain (W H : positive) (i j : Z) :
  in_grid W H i j -> Spec.in_domain (cell_texel W H) (cell_uv W H i j).
Proof.
  intros [[Hi0 Hi1] [Hj0 Hj1]].
  pose proof (width_pos W) as HW. pose proof (width_pos H) as HH.
  assert (i + 1 <= Zpos W)%Z as Hi2 by lia. assert (j + 1 <= Zpos H)%Z as Hj2 by lia.
  rewrite Zle_Qle in Hi0, Hj0, Hi2, Hj2. rewrite inject_Z_plus in Hi2, Hj2.
  change (inject_Z 0) with 0 in Hi0, Hj0. change (inject_Z 1) with 1 in Hi2, Hj2.
  assert (1 <= Zpos W)%Z as HW1 by lia. assert (1 <= Zpos H)%Z as HH1 by lia.
  rewrite Zle_Qle in HW1, HH1. change (inject_Z 1) with 1 in HW1, HH1.
  unfold Spec.in_domain, cell_uv, cell_texel. cbn [x y].
  split; [ split | split; [ split | split; split ] ].
  - apply Qle_shift_div_l; [ exact HW | lra ].
  - apply Qle_shift_div_r; [ exact HW | lra ].
  - apply Qle_shift_div_l; [ exact HH | lra ].
  - apply Qle_shift_div_r; [ exact HH | lra ].
  - apply Qlt_shift_div_l; [ exact HW | lra ].
  - apply Qle_shift_div_r; [ exact HW | lra ].
  - apply Qlt_shift_div_l; [ exact HH | lra ].
  - apply Qle_shift_div_r; [ exact HH | lra ].
Qed.

(** X10.  On a W x H grid the wall the boundary stage enforces is exactly
    one cell thick: with the flow regime off the edge mask is 1 on the
    outermost ring of cells and 0 on every other cell; with it on, 1 on the
    bottom and top rows only, so that the left and right columns stay
    open. *)
Theorem boundary_wall_one_cell_thick (W H : positive) (i j : Z) (flow : bool) :
  in_grid W H i j ->
  BoundaryEdges.edgeMask flow (cell_texel W H) (cell_uv W H i j)
  == if (if flow then (j =? 0) || (j =? Zpos H - 1)
         else (i =? 0) || (j =? 0) || (i =? Zpos W - 1) || (j =? Zpos H - 1))%Z
     then 1 else 0.
Proof.
  intros Hgrid. rewrite (edgeMask_indicator _ _ _ (cell_in_domain W H i j Hgrid)).
  destruct Hgrid as [[Hi0 Hi1] [Hj0 Hj1]].
  unfold Spec.on_enforced_edge, cell_uv, cell_texel. cbn [x y].
  rewrite (centre_first W i Hi0), (centre_first H j Hj0),
    (centre_last W i Hi1), (centre_last H j Hj1).
  reflexivity.
Qed.

Lemma boundary_wall_one_cell_thick_witness :
  BoundaryEdges.edgeMask true Examples.texel128 Examples.left_edge_cell == 0
  /\ BoundaryEdges.edgeMask false Examples.texel128 Examples.left_edge_cell == 1.
Proof.
  assert (in_grid 128 128 0 64) as Hgrid by (unfold in_grid; lia).
  split.
  - exact (boundary_wall_one_cell_thick 128 128 0 64 true Hgrid).
  - exact (boundary_wall_one_cell_thick 128 128 0 64 false Hgrid).
Defined.

Lemma float_mirror (n k : Z) :
  float (n - 1 - k) == float n - 1 - float k.
Proof.
  unfold float, Z.sub. rewrite !inject_Z_plus, !inject_Z_opp.
  change (inject_Z 1) with 1. ring.
Qed.

Lemma even_mirror (n k : Z) :
  Z.even (n - 1 - k) = if Z.even n then negb (Z.even k) else Z.even k.
Proof.
  rewrite !Z.even_sub. change (Z.even 1) with false.
  destruct (Z.even n), (Z.even k); reflexivity.
Qed.

(** X11.  The chevron pattern is centred in the domain.  The centres of
    the rectangles of rows [row] and [rows - 1 - row] lie symmetric about
    the horizontal centre line y = 1/2.  With an even number of columns,
    columns [col] and [columns - 1 - col] are mirror images about the
    vertical centre line x = aspect.x / 2: centres symmetric, angles
    opposite.  With an odd number they have the same angle, and the gap
    moves both centres the same way, off the symmetric position. *)
Theorem chevron_pattern_centred (u : Chevron.uniforms) (row col : Z) :
  let rows := Chevron.chevronRows u in
  let columns := Chevron.chevronColumns u in
  y (Chevron.rect_center u row col)
    + y (Chevron.rect_center u (rows - 1 - row) col) == 1
  /\ x (Chevron.rect_center u row col)
       + x (Chevron.rect_center u row (columns - 1 - col))
     == x (Chevron.aspect u)
        + (if Z.even columns then 0
           else Chevron.chevronGap u * (if Z.even col then - (1) else 1))
  /\ Chevron.rect_angle u (columns - 1 - col)
     == if Z.even columns then - Chevron.rect_angle u col
        else Chevron.rect_angle u col.
Proof.
  cbv zeta. unfold Chevron.rect_center, Chevron.rect_angle, Chevron.startX,
    Chevron.startY. cbn [x y].
  rewrite !mod2_even, even_mirror, !float_mirror.
  split; [ | split ].
  - ring.
  - destruct (Z.even (Chevron.chevronColumns u)), (Z.even col); cbn [negb]; ring.
  - destruct (Z.even (Chevron.chevronColumns u)), (Z.even col); cbn [negb]; ring.
Qed.

(** ** More on the measurement read-back *)

Lemma clamp01_bounds (m : Q) : 0 <= clamp m 0.0 1.0 <= 1.
Proof. unfold clamp. case_minmax; lra. Qed.

Lemma clamp01_mono (m n : Q) : m <= n -> clamp m 0.0 1.0 <= clamp n 0.0 1.0.
Proof. intros Hmn. unfold clamp. case_minmax; lra. Qed.

Lemma encode_mono (x y : Q) :
  x <= y ->
  MeasurementPass.encode Main.VALUE_SCALE x <= MeasurementPass.encode Main.VALUE_SCALE y.
Proof.
  intros Hxy. unfold MeasurementPass.encode, Main.VALUE_SCALE.
  apply clamp01_mono.
  assert (x / 10.0 + 0.5 == x * (1 # 10) + (1 # 2)) as -> by field.
  assert (y / 10.0 + 0.5 == y * (1 # 10) + (1 # 2)) as -> by field.
  lra.
Qed.

Lemma to_byte_mono (e e' : Q) : e <= e' -> (Main.to_byte e <= Main.to_byte e')%Z.
Proof. intros He. unfold Main.to_byte. apply Qfloor_resp_le. lra. Qed.

Lemma decode_mono (b b' : Z) : (b <= b')%Z -> Main.decode b <= Main.decode b'.
Proof. intros Hb. rewrite !decode_linear. rewrite Zle_Qle in Hb. lra. Qed.

Lemma to_byte_range (e : Q) : 0 <= e <= 1 -> (0 <= Main.to_byte e <= 255)%Z.
Proof.
  intros [He0 He1]. split.
  - change 0%Z with (Main.to_byte 0). apply to_byte_mono, He0.
  - change 255%Z with (Main.to_byte 1). apply to_byte_mono, He1.
Qed.

Lemma reading_range (e : Q) :
  0 <= e <= 1 -> - (5) <= Main.decode (Main.to_byte e) <= 5.
Proof.
  intros He. apply to_byte_range in He as [H0 H255].
  pose proof (decode_mono _ _ H0) as Hlo. pose proof (decode_mono _ _ H255) as Hhi.
  assert (Main.decode 0 == - (5)) as E0 by reflexivity.
  assert (Main.decode 255 == 5) as E255 by reflexivity.
  lra.
Qed.

(** X12.  The read-back saturates and keeps the order.  Whatever is
    sampled, the value sampleAtPosition decodes lies in [-5, 5]: a sampled
    value of 5 or more is reported as exactly 5, one of -5 or less as
    exactly -5, and a larger sampled value never gives a smaller reading.
    The range holds for every channel of every sample, whatever the
    uniforms of the pass. *)
Theorem sample_saturates :
  let reading x :=
    Main.decode (Main.to_byte (MeasurementPass.encode Main.VALUE_SCALE x)) in
  (forall x, (5 <= x -> reading x == 5) /\ (x <= - (5) -> reading x == - (5)))
  /\ (forall x y, x <= y -> reading x <= reading y)
  /\ (forall (s : store) (m : gmap string value),
        let smp := Main.read_sample s m in
        - (5) <= Main.pressure smp <= 5
        /\ - (5) <= Main.velX smp <= 5
        /\ - (5) <= Main.velY smp <= 5).
Proof.
  cbv zeta. split; [ | split ].
  - intros x. split; intros Hx.
    + assert (MeasurementPass.encode Main.VALUE_SCALE x == 1) as E.
      { unfold MeasurementPass.encode, Main.VALUE_SCALE. apply clamp01_one.
        assert (x / 10.0 + 0.5 == x * (1 # 10) + (1 # 2)) as -> by field. lra. }
      rewrite (to_byte_comp _ _ E). reflexivity.
    + assert (MeasurementPass.encode Main.VALUE_SCALE x == 0) as E.
      { unfold MeasurementPass.encode, Main.VALUE_SCALE. apply clamp01_zero.
        assert (x / 10.0 + 0.5 == x * (1 # 10) + (1 # 2)) as -> by field. lra. }
      rewrite (to_byte_comp _ _ E). reflexivity.
  - intros x y Hxy. apply decode_mono, to_byte_mono, encode_mono, Hxy.
  - intros s m. unfold Main.read_sample, MeasurementPass.main, MeasurementPass.encode.
    cbn [Main.pressure Main.velX Main.velY r g b].
    split; [ | split ]; apply reading_range, clamp01_bounds.
Qed.

Lemma sample_saturates_witness :
  Main.decode (Main.to_byte (MeasurementPass.encode Main.VALUE_SCALE 8)) == 5
  /\ Main.decode (Main.to_byte (MeasurementPass.encode Main.VALUE_SCALE 1))
     <= Main.decode (Main.to_byte (MeasurementPass.encode Main.VALUE_SCALE 2)).
Proof.
  destruct sample_saturates as (Hsat & Hmono & _).
  split.
  - destruct (Hsat 8) as [Hhigh _]. apply Hhigh. vm_compute. discriminate.
  - apply (Hmono 1 2). vm_compute. discriminate.
Defined.

Lemma unit_clamp (x : Q) :
  let c := max 0 (min 1 x) in
  0 <= c <= 1 /\ (0 <= x <= 1 -> c == x) /\ (x < 0 -> c == 0) /\ (1 < x -> c == 1).
Proof.
  cbv zeta. unfold max, min.
  case_ltb x 1; [ case_ltb 0 x | case_ltb 0 1 ];
    (split; [ lra | split; [ | split ] ]); intros; lra.
Qed.

(** X13.  sampleAtPosition never samples outside the texture: the position
    it hands to the shader is the requested one moved to the nearest point
    of the unit square, so a probe placed beyond an edge reads the border.
    The call returns for every material that has the constructor's
    uniforms; a texture that is still undefined is not handed over, the
    uniform keeps the texture it had. *)
Theorem sample_position_clamped (s : store) (m : gmap string value)
    (p v : value) (px py : Q) :
  dom m = dom MeasurementPass.constructor ->
  exists m' smp,
    Main.sampleAtPosition s m p v px py = (Returned m', Some smp)
    /\ (let pos := MeasurementPass.samplePosition (MeasurementPass.of_material s m') in
        (0 <= x pos <= 1 /\ (0 <= px <= 1 -> x pos == px)
         /\ (px < 0 -> x pos == 0) /\ (1 < px -> x pos == 1))
        /\ (0 <= y pos <= 1 /\ (0 <= py <= 1 -> y pos == py)
            /\ (py < 0 -> y pos == 0) /\ (1 < py -> y pos == 1)))
    /\ m' !! "pressureTexture"
       = (if defined p then Some p else m !! "pressureTexture")
    /\ m' !! "velocityTexture"
       = (if defined v then Some v else m !! "velocityTexture").
Proof.
  intros Hdom.
  destruct (set_uniforms_returns MeasurementPass.handled
              (Main.sample_params p v px py) m) as (m' & Hrun & _ & Hget).
  { intros k Hin _. apply elem_of_dom. rewrite Hdom. cbn in Hin.
    repeat (apply elem_of_cons in Hin as [-> | Hin]; [ vm_compute; eauto | ]).
    apply elem_of_nil in Hin. destruct Hin. }
  exists m', (Main.read_sample s m'). split; [ | split; [ | split ] ].
  - unfold Main.sampleAtPosition, MeasurementPass.update. rewrite Hrun. reflexivity.
  - assert (prop m' "samplePosition"
            = Vector2 (Vec2 (max 0 (min 1 px)) (max 0 (min 1 py)))) as Hpos.
    { unfold prop at 1. rewrite Hget. reflexivity. }
    cbv zeta. unfold MeasurementPass.of_material.
    cbn [MeasurementPass.samplePosition]. rewrite Hpos. cbn [vector2 x y].
    split; apply unit_clamp.
  - rewrite Hget. unfold Spec.updated.
    change (prop (Main.sample_params p v px py) "pressureTexture") with p.
    rewrite bool_decide_eq_true_2; [ reflexivity | ].
    apply list_elem_of_here.
  - rewrite Hget. unfold Spec.updated.
    change (prop (Main.sample_params p v px py) "velocityTexture") with v.
    rewrite bool_decide_eq_true_2; [ reflexivity | ].
    apply list_elem_of_further, list_elem_of_here.
Qed.

Lemma sample_position_clamped_witness :
  exists m' smp,
    Main.sampleAtPosition (fun _ => unbound) MeasurementPass.constructor
      Undefined Undefined (13 # 10) (1 # 2) = (Returned m', Some smp)
    /\ x (MeasurementPass.samplePosition
            (MeasurementPass.of_material (fun _ => unbound) m')) == 1.
Proof.
  destruct (sample_position_clamped (fun _ => unbound) MeasurementPass.constructor
              Undefined Undefined (13 # 10) (1 # 2) eq_refl)
    as (m' & smp & Hrun & [(_ & _ & _ & Hx) _] & _).
  exists m', smp. split; [ exact Hrun | ]. apply Hx. reflexivity.
Defined.

(** ** The solver segment as a whole *)

Lemma kept_divergence (cfg : Main.configuration) (st : Main.App) :
  Frame.uniforms_kept st ->
  Frame.uniforms_kept (state_of (Main.divergence_stage cfg st)).
Proof.
  intros [Hd Hg]. unfold Main.divergence_stage, Main.lift.
  pose proof (set_uniforms_dom DivergencePass.handled
                (list_to_map [("timeDelta", Number (Main.dt cfg));
                              ("velocity", Main.v st)])
                (Main.velocityDivergencePass st)) as Hdom.
  unfold DivergencePass.update.
  destruct (set_uniforms _ _ _); cbn [state_of] in *;
    unfold Frame.uniforms_kept; app_fields; split; congruence.
Qed.

Lemma kept_projection (cfg : Main.configuration) (st : Main.App) :
  Frame.uniforms_kept st ->
  Frame.uniforms_kept (state_of (Main.projection_stage cfg st)).
Proof.
  intros [Hd Hg]. unfold Main.projection_stage, Main.lift.
  pose proof (set_uniforms_dom GradientSubstractionPass.handled
                (list_to_map [("timeDelta", Number (Main.dt cfg));
                              ("velocity", Main.v st); ("pressure", Main.p st)])
                (Main.pressureSubstractionPass st)) as Hdom.
  unfold GradientSubstractionPass.update.
  destruct (set_uniforms _ _ _); cbn [state_of] in *;
    unfold Frame.uniforms_kept; app_fields; split; congruence.
Qed.

Lemma stage_kept_refl (st : Main.App) : Frame.pressure_stage_kept st st.
Proof. constructor; reflexivity. Qed.

Lemma stage_kept_trans (st1 st2 st3 : Main.App) :
  Frame.pressure_stage_kept st1 st2 -> Frame.pressure_stage_kept st2 st3 ->
  Frame.pressure_stage_kept st1 st3.
Proof.
  intros H12 H23. destruct H12, H23. constructor; congruence.
Qed.

Lemma stage_kept_iteration (st : Main.App) :
  Frame.pressure_stage_kept st (state_of (Main.pressure_iteration st)).
Proof.
  unfold Main.pressure_iteration, Main.lift.
  cbn [Main.set_pressureRT RenderTarget.set Main.render_scene Main.p
       Main.pressurePass Main.textures Main.texelSize].
  pose proof (set_uniforms_untouched JacobiIterationsPass.handled
                (list_to_map
                   [("previousIteration",
                     Tex (Target (RenderTarget.name (Main.pressureRT_ st))
                            (RenderTarget.index (Main.pressureRT_ st))))])
                (Main.pressurePass st) "divergence" eq_refl) as Hdiv.
  unfold JacobiIterationsPass.update.
  destruct (set_uniforms _ _ _); cbn [state_of] in *;
    constructor; app_fields; try reflexivity; exact Hdiv.
Qed.

Lemma stage_kept_loop (n : nat) (st : Main.App) :
  Frame.pressure_stage_kept st (state_of (Main.pressure_loop n st)).
Proof.
  revert st. induction n as [| n IH]; intros st; cbn [Main.pressure_loop].
  - apply stage_kept_refl.
  - apply (state_of_and_then (Frame.pressure_stage_kept st));
      [ apply stage_kept_iteration | ].
    intros st' Hst'. eapply stage_kept_trans; [ exact Hst' | apply IH ].
Qed.

Lemma kept_pressure (cfg : Main.configuration) (st : Main.App) :
  Frame.uniforms_kept st ->
  Frame.uniforms_kept (state_of (Main.pressure_stage cfg st)).
Proof.
  intros [Hd Hg]. unfold Main.pressure_stage.
  apply state_of_and_then.
  - unfold Main.lift. destruct (JacobiIterationsPass.update _ _);
      cbn [state_of]; unfold Frame.uniforms_kept; app_fields; auto.
  - intros st' [Hd' Hg'].
    destruct (stage_kept_loop (Main.Iterations cfg) st') as [E1 E2 _ _ _ _ _ _].
    unfold Frame.uniforms_kept. rewrite E1, E2. auto.
Qed.

Lemma kept_reachable (st : Main.App) : Main.reachable st -> Frame.uniforms_kept st.
Proof.
  induction 1 as [st Hinit | st st' _ IH Hev].
  - destruct Hinit as (Hd & _ & Hg & _). unfold Frame.uniforms_kept.
    rewrite Hd, Hg. auto.
  - destruct Hev as [st st' Hew | cfg st _ | | | ].
    + destruct Hew. unfold Frame.uniforms_kept in *. congruence.
    + unfold Main.solver.
      apply state_of_and_then; [ | intros ?; apply kept_projection ].
      apply state_of_and_then; [ | intros ?; apply kept_pressure ].
      apply kept_divergence, IH.
    + apply kept_divergence, IH.
    + apply kept_pressure, IH.
    + apply kept_projection, IH.
Qed.

Lemma divergence_stage_spec (cfg : Main.configuration) (st : Main.App) :
  Frame.uniforms_kept st ->
  let td := Target (RenderTarget.name (Main.divergenceRT_ st))
                   (RenderTarget.index (Main.divergenceRT_ st)) in
  exists st1,
    Main.divergence_stage cfg st = Returned st1
    /\ Main.drawn st1 = Main.drawn st ++ [(Main.DivergenceScene, td)]
    /\ Main.d st1 = Tex td /\ Main.v st1 = Main.v st /\ Main.p st1 = Main.p st
    /\ Main.pressurePass st1 = Main.pressurePass st
    /\ Main.pressureSubstractionPass st1 = Main.pressureSubstractionPass st
    /\ prop (Main.velocityDivergencePass st1) "velocity"
       = Frame.handed (Main.v st) (prop (Main.velocityDivergencePass st) "velocity").
Proof.
  intros [Hd _] td. subst td. unfold Main.divergence_stage, DivergencePass.update.
  destruct (set_uniforms_returns DivergencePass.handled
              (list_to_map [("timeDelta", Number (Main.dt cfg));
                            ("velocity", Main.v st)])
              (Main.velocityDivergencePass st)) as (m' & Hrun & _ & Hget).
  { intros k Hin Hdef. apply elem_of_dom. rewrite Hd.
    unfold DivergencePass.handled in Hin.
    repeat (apply elem_of_cons in Hin as [-> | Hin];
            [ first [ discriminate Hdef | vm_compute; reflexivity ] | ]).
    apply elem_of_nil in Hin. destruct Hin. }
  rewrite Hrun. unfold Main.lift. cbn [and_then].
  eexists. split; [ reflexivity | ]. app_fields.
  repeat (split; [ reflexivity | ]).
  unfold prop at 1. rewrite Hget. unfold Spec.updated, Frame.handed.
  change (prop _ "velocity") with (Main.v st) at 1 2.
  rewrite bool_decide_eq_true_2
    by (unfold DivergencePass.handled; do 2 apply list_elem_of_further;
        apply list_elem_of_here).
  cbn [andb]. destruct (defined (Main.v st)); reflexivity.
Qed.

Lemma projection_stage_spec (cfg : Main.configuration) (st : Main.App) :
  Frame.uniforms_kept st ->
  let tv := Target (RenderTarget.name (Main.velocityRT_ st))
                   (RenderTarget.index (Main.velocityRT_ st)) in
  exists st1,
    Main.projection_stage cfg st = Returned st1
    /\ Main.drawn st1 = Main.drawn st ++ [(Main.GradientScene, tv)]
    /\ Main.v st1 = Tex tv /\ Main.d st1 = Main.d st /\ Main.p st1 = Main.p st
    /\ Main.pressurePass st1 = Main.pressurePass st
    /\ Main.velocityDivergencePass st1 = Main.velocityDivergencePass st
    /\ prop (Main.pressureSubstractionPass st1) "velocity"
       = Frame.handed (Main.v st) (prop (Main.pressureSubstractionPass st) "velocity")
    /\ prop (Main.pressureSubstractionPass st1) "pressure"
       = Frame.handed (Main.p st) (prop (Main.pressureSubstractionPass st) "pressure").
Proof.
  intros [_ Hg] tv. subst tv.
  unfold Main.projection_stage, GradientSubstractionPass.update.
  destruct (set_uniforms_returns GradientSubstractionPass.handled
              (list_to_map [("timeDelta", Number (Main.dt cfg));
                            ("velocity", Main.v st); ("pressure", Main.p st)])
              (Main.pressureSubstractionPass st)) as (m' & Hrun & _ & Hget).
  { intros k Hin Hdef. apply elem_of_dom. rewrite Hg.
    unfold GradientSubstractionPass.handled in Hin.
    repeat (apply elem_of_cons in Hin as [-> | Hin];
            [ first [ discriminate Hdef | vm_compute; reflexivity ] | ]).
    apply elem_of_nil in Hin. destruct Hin. }
  rewrite Hrun. unfold Main.lift. cbn [and_then].
  eexists. split; [ reflexivity | ]. app_fields.
  repeat (split; [ reflexivity | ]).
  unfold prop at 1 3. rewrite !Hget. unfold Spec.updated, Frame.handed.
  change (prop _ "velocity") with (Main.v st) at 1 2.
  change (prop _ "pressure") with (Main.p st) at 1 2.
  rewrite !bool_decide_eq_true_2
    by (unfold GradientSubstractionPass.handled;
        repeat first [ apply list_elem_of_here | apply list_elem_of_further ]).
  cbn [andb]. destruct (defined (Main.v st)), (defined (Main.p st)); auto.
Qed.

Lemma pressure_stage_frame (cfg : Main.configuration) (st : Main.App) :
  is_Some (Main.pressurePass st !! "divergence") ->
  let st' := state_of (Main.pressure_stage cfg st) in
  Main.velocityDivergencePass st' = Main.velocityDivergencePass st
  /\ Main.pressureSubstractionPass st' = Main.pressureSubstractionPass st
  /\ Main.velocityRT_ st' = Main.velocityRT_ st
  /\ Main.v st' = Main.v st /\ Main.d st' = Main.d st
  /\ prop (Main.pressurePass st') "divergence"
     = Frame.handed (Main.d st) (prop (Main.pressurePass st) "divergence").
Proof.
  intros Hdiv. cbv zeta. unfold Main.pressure_stage.
  pose proof (lookup_jacobi_updated (Main.pressurePass st) "divergence" (Main.d st)
                ltac:(right; reflexivity) Hdiv) as Hnew.
  apply (state_of_and_then
           (fun st' =>
              Main.velocityDivergencePass st' = Main.velocityDivergencePass st
              /\ Main.pressureSubstractionPass st' = Main.pressureSubstractionPass st
              /\ Main.velocityRT_ st' = Main.velocityRT_ st
              /\ Main.v st' = Main.v st /\ Main.d st' = Main.d st
              /\ prop (Main.pressurePass st') "divergence"
                 = Frame.handed (Main.d st) (prop (Main.pressurePass st) "divergence"))).
  - unfold Main.lift.
    assert (prop (state_of (JacobiIterationsPass.update
                              (list_to_map [("divergence", Main.d st)])
                              (Main.pressurePass st))) "divergence"
            = Frame.handed (Main.d st) (prop (Main.pressurePass st) "divergence"))
      as Hprop.
    { unfold prop at 1. rewrite Hnew. unfold Frame.handed, prop.
      destruct (defined (Main.d st)); reflexivity. }
    destruct (JacobiIterationsPass.update _ _); cbn [state_of] in *; app_fields;
      repeat (split; [ reflexivity | ]); exact Hprop.
  - intros st0 (E1 & E2 & E3 & E4 & E5 & E6).
    destruct (stage_kept_loop (Main.Iterations cfg) st0)
      as [F1 F2 F3 _ F5 F6 _ F8].
    rewrite F1, F2, F3, F5, F6. unfold prop at 1. rewrite F8.
    repeat (split; [ assumption | ]). exact E6.
Qed.

(** X14.  One run of the solver segment.  From every state the render loop
    can reach and for every iteration count N the segment returns (no
    update call of it throws), having drawn, in this order, the divergence
    scene once, the Jacobi scene N times and the gradient subtraction scene
    once.  Afterwards [d] and [v] name the targets of the first and the
    last of these draws, a divergence and a velocity texture, and [p] the
    target of the last Jacobi draw (it keeps its value when N = 0).  The
    stages are wired in sequence: the Jacobi pass reads the divergence just
    drawn, and the projection reads the velocity that entered the segment
    and the pressure left by the last iteration. *)
Theorem solver_frame (cfg : Main.configuration) (st : Main.App) :
  Main.reachable st ->
  exists st' i ts k,
    Main.solver cfg st = Returned st'
    /\ length ts = Main.Iterations cfg
    /\ Main.drawn st'
       = Main.drawn st
         ++ (Main.DivergenceScene, Target divergenceRT i)
            :: map (pair Main.JacobiScene) ts
         ++ [(Main.GradientScene, Target velocityRT k)]
    /\ Main.d st' = Tex (Target divergenceRT i)
    /\ Main.v st' = Tex (Target velocityRT k)
    /\ Main.p st' = match last ts with Some t => Tex t | None => Main.p st end
    /\ prop (Main.velocityDivergencePass st') "velocity"
       = Frame.handed (Main.v st) (prop (Main.velocityDivergencePass st) "velocity")
    /\ prop (Main.pressurePass st') "divergence" = Tex (Target divergenceRT i)
    /\ prop (Main.pressureSubstractionPass st') "velocity"
       = Frame.handed (Main.v st)
           (prop (Main.pressureSubstractionPass st) "velocity")
    /\ prop (Main.pressureSubstractionPass st') "pressure"
       = Frame.handed (Main.p st')
           (prop (Main.pressureSubstractionPass st) "pressure").
Proof.
  intros Hreach.
  pose proof (solver_inv_reachable st Hreach) as Hinv.
  pose proof (kept_reachable st Hreach) as Hkept.
  destruct (divergence_stage_spec cfg st Hkept)
    as (st1 & Hrun1 & Hdrawn1 & Hd1 & Hv1 & Hp1 & Hpp1 & Hpsp1 & Hvel1).
  pose proof (solver_inv_divergence cfg st Hinv) as Hinv1.
  pose proof (kept_divergence cfg st Hkept) as Hkept1.
  rewrite Hrun1 in Hinv1, Hkept1. cbn [state_of] in Hinv1, Hkept1.
  pose proof (Main.si_pressure _ Hinv1) as Hpress1.
  destruct (pressure_stage_spec cfg st1 Hpress1)
    as (st2 & Hrun2 & _ & _ & Hzero & Hpos).
  pose proof (pressure_stage_frame cfg st1
                (proj1 (Main.pi_divergence _ Hpress1))) as Hframe.
  pose proof (solver_inv_pressure cfg st1 Hinv1) as Hinv2.
  pose proof (kept_pressure cfg st1 Hkept1) as Hkept2.
  rewrite Hrun2 in Hframe, Hinv2, Hkept2. cbn [state_of] in Hframe, Hinv2, Hkept2.
  destruct Hframe as (Hvdp2 & Hpsp2 & _ & Hv2 & Hd2 & Hdiv2).
  destruct (projection_stage_spec cfg st2 Hkept2)
    as (st3 & Hrun3 & Hdrawn3 & Hv3 & Hd3 & Hp3 & Hpp3 & Hvdp3 & Hvel3 & Hpre3).
  assert (exists ts,
            length ts = Main.Iterations cfg
            /\ Main.drawn st2 = Main.drawn st1 ++ map (pair Main.JacobiScene) ts
            /\ Main.p st2
               = match last ts with Some t => Tex t | None => Main.p st1 end)
    as (ts & Hlen & Hdrawn2 & Hp2).
  { destruct (Main.Iterations cfg) as [| n] eqn:Hn.
    - destruct (Hzero eq_refl) as (Hp & _ & Hdrawn). exists [].
      rewrite Hdrawn, app_nil_r. auto.
    - destruct (Hpos ltac:(lia)) as (ts & t' & Hlen & Hdrawn & Hp & _).
      exists (ts ++ [t']). rewrite last_snoc. auto. }
  exists st3, (RenderTarget.index (Main.divergenceRT_ st)), ts,
         (RenderTarget.index (Main.velocityRT_ st2)).
  rewrite (Main.pi_divergence_target _ (Main.si_pressure _ Hinv)) in Hdrawn1, Hd1.
  rewrite (Main.si_velocity_target _ Hinv2) in Hdrawn3, Hv3.
  split; [ | split; [ exact Hlen | split; [ | split; [ | split; [ exact Hv3 | ] ] ] ] ].
  - unfold Main.solver. rewrite Hrun1. cbn [and_then]. rewrite Hrun2. exact Hrun3.
  - rewrite Hdrawn3, Hdrawn2, Hdrawn1, <- !app_assoc. reflexivity.
  - rewrite Hd3, Hd2. exact Hd1.
  - split; [ rewrite Hp3, Hp2, Hp1; reflexivity | ].
    split; [ rewrite Hvdp3, Hvdp2; exact Hvel1 | ].
    split.
    { rewrite Hpp3, Hdiv2, Hd1. reflexivity. }
    split.
    { rewrite Hvel3, Hv2, Hv1, Hpsp2, Hpsp1. reflexivity. }
    rewrite Hpre3, Hp3, Hpsp2, Hpsp1. reflexivity.
Qed.

Lemma solver_frame_witness :
  exists st', Main.solver Examples.two_iterations Examples.loaded = Returned st'
              /\ length (Main.drawn st') = 4%nat.
Proof.
  destruct (solver_frame Examples.two_iterations Examples.loaded)
    as (st' & i & ts & k & Hrun & Hlen & Hdrawn & _).
  - apply Main.reach_initial. unfold Main.initial. repeat split.
  - exists st'. split; [ exact Hrun | ].
    rewrite Hdrawn. change (Main.drawn Examples.loaded) with (@nil (Main.scene * texture)).
    rewrite app_nil_l. cbn [length]. rewrite length_app, length_map, Hlen.
    reflexivity.
Defined.

(** ** Pointer input *)

Lemma find_registered (touch : Input.pointer) (l : list Input.ITouchInput) :
  match List.find (fun value =>
                     bool_decide (Input.id value = Input.IdNumber (Input.identifier touch)))
          l with
  | Some reg => Input.id reg = Input.IdNumber (Input.identifier touch)
  | None => Forall (fun value =>
                      Input.id value <> Input.IdNumber (Input.identifier touch)) l
  end.
Proof.
  induction l as [| value l IH]; cbn; [ constructor | ].
  case_bool_decide as Hid; [ exact Hid | ].
  destruct (List.find _ l); [ exact IH | constructor; assumption ].
Qed.

Lemma touchend_one_filter (l : list Input.ITouchInput) (touch : Input.pointer) :
  Input.touchend_one l touch
  = filter (fun value => Input.id value <> Input.IdNumber (Input.identifier touch)) l.
Proof.
  unfold Input.touchend_one. pose proof (find_registered touch l) as Hfind.
  destruct (List.find _ l) as [reg |].
  - rewrite Hfind. reflexivity.
  - symmetry. clear -Hfind. induction Hfind as [| value l Hid _ IH]; [ reflexivity | ].
    rewrite filter_cons_True by exact Hid. rewrite IH. reflexivity.
Qed.

Lemma filter_filter_ids (P Q : Input.ITouchInput -> Prop)
    `{forall v, Decision (P v)} `{forall v, Decision (Q v)}
    (l : list Input.ITouchInput) :
  filter P (filter Q l) = filter (fun v => Q v /\ P v) l.
Proof.
  induction l as [| v l IH]; [ reflexivity | ].
  destruct (decide (Q v)) as [HQ | HQ].
  - rewrite (filter_cons_True Q) by exact HQ.
    destruct (decide (P v)) as [HP | HP].
    + rewrite !filter_cons_True by auto. rewrite IH. reflexivity.
    + rewrite !filter_cons_False by tauto. exact IH.
  - rewrite (filter_cons_False Q) by exact HQ.
    rewrite (filter_cons_False (fun v => Q v /\ P v)) by tauto. exact IH.
Qed.

Lemma touchend_filter (changed : list Input.pointer) (l : list Input.ITouchInput) :
  Input.touchend changed l
  = filter (fun value => Input.id value ∉ Input.ids changed) l.
Proof.
  unfold Input.touchend. revert l.
  induction changed as [| touch changed IH]; intros l; cbn [fold_left].
  - symmetry. induction l as [| v l IHl]; [ reflexivity | ].
    rewrite filter_cons_True by apply not_elem_of_nil. rewrite IHl. reflexivity.
  - rewrite IH, touchend_one_filter, filter_filter_ids.
    apply list_filter_iff. intros v. cbn [Input.ids map].
    rewrite not_elem_of_cons. tauto.
Qed.

Lemma touchstart_app (c : Input.page) (changed : list Input.pointer)
    (l : list Input.ITouchInput) :
  exists started,
    Input.touchstart c changed l = l ++ started
    /\ map Input.id started = Input.ids changed.
Proof.
  unfold Input.touchstart. revert l.
  induction changed as [| touch changed IH]; intros l; cbn [fold_left].
  - exists []. rewrite app_nil_r. auto.
  - destruct (IH (Input.push (Input.IdNumber (Input.identifier touch)) c touch l))
      as (started & Hrun & Hids).
    unfold Input.push in *. destruct (Input.position c touch) as [px py].
    eexists (_ :: started). rewrite Hrun, <- app_assoc. cbn [app].
    split; [ reflexivity | ]. cbn [map Input.ids Input.id]. rewrite Hids. reflexivity.
Qed.

Lemma filter_none_kept (ended : list Input.id_t) (l : list Input.ITouchInput) :
  Forall (fun value => Input.id value ∈ ended) l ->
  filter (fun value => Input.id value ∉ ended) l = [].
Proof.
  induction 1 as [| v l Hv _ IH]; [ reflexivity | ].
  rewrite filter_cons_False by auto. exact IH.
Qed.

(** X15.  touchend removes from inputTouches exactly the touches whose id
    is the identifier of one of the ended touches, and keeps the others in
    their order (the mouse entry among them: its id is a string).  It
    undoes touchstart: when none of the identifiers was registered before,
    touchstart followed by touchend of the same touches gives back the
    list. *)
Theorem touchend_removes_ended (c : Input.page) (changedTouches : list Input.pointer)
    (inputTouches : list Input.ITouchInput) :
  Input.touchend changedTouches inputTouches
  = filter (fun value => Input.id value ∉ Input.ids changedTouches) inputTouches
  /\ (Forall (fun value => Input.id value ∉ Input.ids changedTouches) inputTouches ->
      Input.touchend changedTouches (Input.touchstart c changedTouches inputTouches)
      = inputTouches).
Proof.
  split; [ apply touchend_filter | ].
  intros Hfresh. rewrite touchend_filter.
  destruct (touchstart_app c changedTouches inputTouches) as (started & -> & Hids).
  rewrite filter_app.
  assert (filter (fun value => Input.id value ∉ Input.ids changedTouches) started = [])
    as ->.
  { apply filter_none_kept. rewrite <- Hids. apply Forall_forall.
    intros v Hv. apply list_elem_of_In. apply in_map. apply list_elem_of_In, Hv. }
  rewrite app_nil_r.
  clear -Hfresh. induction Hfresh as [| v l Hv _ IH]; [ reflexivity | ].
  rewrite filter_cons_True by exact Hv. rewrite IH. reflexivity.
Qed.

Lemma touchend_removes_ended_witness :
  let c := {| Input.clientWidth := 800; Input.clientHeight := 600;
              Input.scrollY := 0; Input.aspect_x := 4 # 3 |} in
  let finger := {| Input.identifier := 7; Input.clientX := 400; Input.clientY := 300 |} in
  let mouse :=
    {| Input.id := Input.IdString "mouse";
       Input.input := {| Vector4.x := 0; Vector4.y := 0; Vector4.z := 0; Vector4.w := 0 |} |} in
  Input.touchend [finger] (Input.touchstart c [finger] [mouse]) = [mouse].
Proof.
  cbv zeta.
  refine (proj2 (touchend_removes_ended _ _ _) _).
  constructor; [ | constructor ].
  cbn. intros Hin. apply list_elem_of_singleton in Hin. discriminate Hin.
Defined.

Lemma spliced_spec (i : Input.id_t) (touches : list Input.pointer) :
  Input.spliced i touches = true <-> touches <> [] /\ i ∉ Input.ids touches.
Proof.
  induction touches as [| touch rest IH]; cbn [Input.spliced Input.ids map].
  - split; [ discriminate | intros [Hne _]; congruence ].
  - destruct (decide (i = Input.IdNumber (Input.identifier touch))) as [-> | Hne].
    + split; [ discriminate | ]. intros [_ Hnot]. exfalso. apply Hnot. left.
    + rewrite not_elem_of_cons. destruct rest as [| touch' rest'].
      * split; [ | reflexivity ]. intros _. split; [ discriminate | ].
        split; [ exact Hne | apply not_elem_of_nil ].
      * rewrite IH. split; intros [_ Hnot]; (split; [ discriminate | tauto ]).
Qed.

Lemma cancel_loop_spec (touches : list Input.pointer) (n i : nat)
    (l : list Input.ITouchInput) :
  (length l - i <= n)%nat ->
  Input.cancel_loop n touches i l
  = take i l ++ filter (fun value => Input.spliced (Input.id value) touches = false)
                  (drop i l).
Proof.
  revert i l. induction n as [| n IH]; intros i l Hn; cbn [Input.cancel_loop].
  - rewrite drop_ge, take_ge by lia. rewrite app_nil_r. reflexivity.
  - destruct (l !! i) as [value |] eqn:Hi.
    + pose proof (lookup_lt_Some _ _ _ Hi) as Hlt.
      rewrite (drop_S _ _ _ Hi).
      destruct (Input.spliced (Input.id value) touches) eqn:Hs.
      * rewrite IH by (rewrite length_delete by eauto; lia).
        rewrite filter_cons_False by congruence.
        f_equal.
        -- rewrite delete_take_drop, take_app_le by (rewrite length_take; lia).
           rewrite take_take. f_equal. lia.
        -- rewrite delete_take_drop, drop_app_ge by (rewrite length_take; lia).
           rewrite length_take, drop_drop. do 2 f_equal. lia.
      * rewrite IH by lia. rewrite filter_cons_True by exact Hs.
        rewrite (take_S_r _ _ _ Hi), <- app_assoc. reflexivity.
    + apply lookup_ge_None in Hi.
      rewrite drop_ge, take_ge by lia. rewrite app_nil_r. reflexivity.
Qed.

(** X16.  touchcancel keeps of inputTouches exactly the touches whose id
    is the identifier of a touch still on the surface, in their order --
    provided the event lists at least one such touch.  When event.touches
    is empty the inner loop never runs and inputTouches is left as it is.
    The loop needs no more rounds than inputTouches has elements. *)
Theorem touchcancel_keeps_active (touches : list Input.pointer)
    (inputTouches : list Input.ITouchInput) :
  Input.touchcancel touches inputTouches
  = match touches with
    | [] => inputTouches
    | _ :: _ => filter (fun value => Input.id value ∈ Input.ids touches) inputTouches
    end
  /\ forall n, (length inputTouches <= n)%nat ->
               Input.cancel_loop n touches 0 inputTouches
               = Input.touchcancel touches inputTouches.
Proof.
  assert (forall n, (length inputTouches <= n)%nat ->
            Input.cancel_loop n touches 0 inputTouches
            = filter (fun value => Input.spliced (Input.id value) touches = false)
                inputTouches) as Hloop.
  { intros n Hn. rewrite cancel_loop_spec by lia. reflexivity. }
  split.
  - unfold Input.touchcancel. rewrite Hloop by lia.
    destruct touches as [| touch rest].
    + induction inputTouches as [| v l IHl]; [ reflexivity | ].
      rewrite filter_cons_True by reflexivity. f_equal. apply IHl.
      intros n Hn. rewrite cancel_loop_spec by lia. reflexivity.
    + apply list_filter_iff. intros v.
      rewrite <- not_true_iff_false, spliced_spec.
      split.
      * intros Hnot. destruct (decide (Input.id v ∈ Input.ids (touch :: rest)));
          [ assumption | ]. exfalso. apply Hnot. split; [ discriminate | assumption ].
      * intros Hin [_ Hnot]. exact (Hnot Hin).
  - intros n Hn. unfold Input.touchcancel. rewrite !Hloop by lia. reflexivity.
Qed.

Lemma touchcancel_keeps_active_witness :
  let finger := {| Input.identifier := 7; Input.clientX := 400; Input.clientY := 300 |} in
  let origin := {| Vector4.x := 0; Vector4.y := 0; Vector4.z := 0; Vector4.w := 0 |} in
  let registered :=
    [ {| Input.id := Input.IdString "mouse"; Input.input := origin |};
      {| Input.id := Input.IdNumber 7; Input.input := origin |};
      {| Input.id := Input.IdNumber 9; Input.input := origin |} ] in
  Input.cancel_loop 5 [finger] 0 registered
  = [ {| Input.id := Input.IdNumber 7; Input.input := origin |} ].
Proof.
  cbv zeta.
  rewrite (proj2 (touchcancel_keeps_active _ _) 5%nat) by (cbn; lia).
  reflexivity.
Defined.

Lemma mousemove_length (c : Input.page) (e : Input.pointer)
    (l : list Input.ITouchInput) :
  length (Input.mousemove c e l) = length l.
Proof. destruct l; reflexivity. Qed.

Lemma mousemove_snoc (c : Input.page) (e : Input.pointer)
    (l : list Input.ITouchInput) (m : Input.ITouchInput) :
  l <> [] -> Input.mousemove c e (l ++ [m]) = Input.mousemove c e l ++ [m].
Proof. destruct l; [ congruence | reflexivity ]. Qed.

Lemma drag_snoc (c : Input.page) (moves : list Input.pointer)
    (l : list Input.ITouchInput) (m : Input.ITouchInput) :
  l <> [] ->
  fold_left (fun l e => Input.mousemove c e l) moves (l ++ [m])
  = fold_left (fun l e => Input.mousemove c e l) moves l ++ [m].
Proof.
  revert l. induction moves as [| e moves IH]; intros l Hl; cbn [fold_left];
    [ reflexivity | ].
  rewrite mousemove_snoc by exact Hl. apply IH.
  intros Hnil. apply (f_equal length) in Hnil. rewrite mousemove_length in Hnil.
  destruct l; [ congruence | discriminate Hnil ].
Qed.

Lemma drag_single (c : Input.page) (moves : list Input.pointer)
    (m : Input.ITouchInput) :
  exists m', fold_left (fun l e => Input.mousemove c e l) moves [m] = [m']
             /\ Input.id m' = Input.id m.
Proof.
  revert m. induction moves as [| e moves IH]; intros m; cbn [fold_left].
  - exists m. auto.
  - destruct (IH (Input.moved c e m)) as (m' & Hrun & Hid).
    exists m'. split; [ exact Hrun | ].
    rewrite Hid. unfold Input.moved. destruct (Input.position c e). reflexivity.
Qed.

Lemma drag_nil (c : Input.page) (moves : list Input.pointer) :
  fold_left (fun l e => Input.mousemove c e l) moves [] = [].
Proof. induction moves as [| e moves IH]; [ reflexivity | exact IH ]. Qed.

(** X17.  A press, drag and release of the left mouse button leaves no
    entry of its own in inputTouches: the list after mouseup is what the
    mousemove events alone would have made of the list before mousedown
    (they drag its first entry, whatever it is).  Starting from no
    registered touch, the list holds the single entry "mouse" throughout
    the drag and is empty again after the release. *)
Theorem mouse_press_drag_release (c : Input.page) (press : Input.pointer)
    (moves : list Input.pointer) (inputTouches : list Input.ITouchInput) :
  let drag := fold_left (fun l e => Input.mousemove c e l) moves in
  Input.mouseup 0 (drag (Input.mousedown c 0 press inputTouches))
  = drag inputTouches
  /\ (inputTouches = [] ->
      exists m, drag (Input.mousedown c 0 press inputTouches) = [m]
                /\ Input.id m = Input.IdString "mouse").
Proof.
  cbv zeta. unfold Input.mousedown, Input.mouseup, Input.push. cbn [Z.eqb].
  destruct (Input.position c press) as [px py].
  split.
  - destruct inputTouches as [| first rest].
    + cbn [app]. destruct (drag_single c moves
        {| Input.id := Input.IdString "mouse";
           Input.input := {| Vector4.x := px; Vector4.y := py;
                             Vector4.z := 0; Vector4.w := 0 |} |})
        as (m' & -> & _).
      rewrite drag_nil. reflexivity.
    + rewrite drag_snoc by discriminate. apply removelast_last.
  - intros ->. cbn [app]. destruct (drag_single c moves
        {| Input.id := Input.IdString "mouse";
           Input.input := {| Vector4.x := px; Vector4.y := py;
                             Vector4.z := 0; Vector4.w := 0 |} |})
        as (m' & Hrun & Hid).
    exists m'. auto.
Qed.

Lemma mouse_press_drag_release_witness :
  let c := {| Input.clientWidth := 800; Input.clientHeight := 600;
              Input.scrollY := 0; Input.aspect_x := 4 # 3 |} in
  let at_ x y := {| Input.identifier := 0; Input.clientX := x; Input.clientY := y |} in
  exists m,
    Input.mousemove c (at_ 500 300) (Input.mousedown c 0 (at_ 400 300) []) = [m]
    /\ Input.id m = Input.IdString "mouse".
Proof.
  cbv zeta.
  exact (proj2 (mouse_press_drag_release
                  {| Input.clientWidth := 800; Input.clientHeight := 600;
                     Input.scrollY := 0; Input.aspect_x := 4 # 3 |}
                  {| Input.identifier := 0; Input.clientX := 400; Input.clientY := 300 |}
                  [ {| Input.identifier := 0; Input.clientX := 500;
                       Input.clientY := 300 |} ] []) eq_refl).
Defined.

Lemma moved_id (c : Input.page) (e : Input.pointer) (t : Input.ITouchInput) :
  Input.id (Input.moved c e t) = Input.id t.
Proof. unfold Input.moved. destruct (Input.position c e). reflexivity. Qed.

Lemma move_registered_ids (c : Input.page) (touch : Input.pointer)
    (l : list Input.ITouchInput) :
  map Input.id (Input.move_registered c touch l) = map Input.id l.
Proof.
  induction l as [| value rest IH]; cbn [Input.move_registered]; [ reflexivity | ].
  case_decide; cbn [map]; [ rewrite moved_id | rewrite IH ]; reflexivity.
Qed.

(** X18.  touchmove never changes which touches are registered: the ids
    of inputTouches and their order stay as they were, and the touch of an
    identifier that is not registered changes nothing at all.  For a
    registered identifier the first entry with that id, and only it, is
    moved: its position becomes that of the event and its z and w become
    the displacement from the position it had. *)
Theorem touchmove_keeps_registered (c : Input.page) (changedTouches : list Input.pointer)
    (inputTouches : list Input.ITouchInput) :
  map Input.id (Input.touchmove c changedTouches inputTouches)
  = map Input.id inputTouches
  /\ (forall touch,
        Input.IdNumber (Input.identifier touch) ∉ map Input.id inputTouches ->
        Input.touchmove c [touch] inputTouches = inputTouches)
  /\ (forall touch before value after,
        inputTouches = before ++ value :: after ->
        Input.id value = Input.IdNumber (Input.identifier touch) ->
        Input.IdNumber (Input.identifier touch) ∉ map Input.id before ->
        exists value',
          Input.touchmove c [touch] inputTouches = before ++ value' :: after
          /\ (Vector4.x (Input.input value'), Vector4.y (Input.input value'))
             = Input.position c touch
          /\ Vector4.z (Input.input value')
             = Vector4.x (Input.input value') - Vector4.x (Input.input value)
          /\ Vector4.w (Input.input value')
             = Vector4.y (Input.input value') - Vector4.y (Input.input value)).
Proof.
  split; [ | split ].
  - unfold Input.touchmove. revert inputTouches.
    induction changedTouches as [| touch changed IH]; intros l; cbn [fold_left];
      [ reflexivity | ].
    rewrite IH. apply move_registered_ids.
  - intros touch Hfresh. cbn [Input.touchmove fold_left].
    induction inputTouches as [| value rest IH]; cbn [Input.move_registered];
      [ reflexivity | ].
    cbn [map] in Hfresh. apply not_elem_of_cons in Hfresh as [Hne Hrest].
    rewrite decide_False by congruence. rewrite IH by exact Hrest. reflexivity.
  - intros touch before value after -> Hid Hfresh. cbn [Input.touchmove fold_left].
    exists (Input.moved c touch value). split.
    + induction before as [| b before IH]; cbn [app Input.move_registered].
      * rewrite decide_True by exact Hid. reflexivity.
      * cbn [map] in Hfresh. apply not_elem_of_cons in Hfresh as [Hne Hrest].
        rewrite decide_False by congruence. rewrite IH by exact Hrest. reflexivity.
    + unfold Input.moved. destruct (Input.position c touch) as [px py].
      cbn. auto.
Qed.

Lemma touchmove_keeps_registered_witness :
  let c := {| Input.clientWidth := 800; Input.clientHeight := 600;
              Input.scrollY := 0; Input.aspect_x := 4 # 3 |} in
  let origin := {| Vector4.x := 0; Vector4.y := 0; Vector4.z := 0; Vector4.w := 0 |} in
  let mouse := {| Input.id := Input.IdString "mouse"; Input.input := origin |} in
  Input.touchmove c
    [ {| Input.identifier := 7; Input.clientX := 400; Input.clientY := 300 |} ] [mouse]
  = [mouse].
Proof.
  cbv zeta.
  refine (proj1 (proj2 (touchmove_keeps_registered _ [] _)) _ _).
  cbn. intros Hin. apply list_elem_of_singleton in Hin. discriminate Hin.
Defined.

(** ** The measurement probes *)

Lemma sample_reading (s : store) (m : gmap string value) (p v : value) (px py : Q) :
  dom m = dom MeasurementPass.constructor ->
  defined p = true -> defined v = true ->
  exists m',
    Main.sampleAtPosition s m p v px py
    = (Returned m',
       Some (Measurements.sample_at s p v
               (Vec2 (max 0 (min 1 px)) (max 0 (min 1 py)))))
    /\ dom m' = dom m.
Proof.
  intros Hdom Hp Hv.
  destruct (set_uniforms_returns MeasurementPass.handled
              (Main.sample_params p v px py) m) as (m' & Hrun & Hdom' & Hget).
  { intros k Hin _. apply elem_of_dom. rewrite Hdom. cbn in Hin.
    repeat (apply elem_of_cons in Hin as [-> | Hin]; [ vm_compute; eauto | ]).
    apply elem_of_nil in Hin. destruct Hin. }
  exists m'. split; [ | exact Hdom' ].
  unfold Main.sampleAtPosition, MeasurementPass.update. rewrite Hrun.
  assert (forall k w, k ∈ MeasurementPass.handled ->
            prop (Main.sample_params p v px py) k = w -> defined w = true ->
            prop m' k = w) as Hprop.
  { intros k w Hin Hk Hw. unfold prop at 1. rewrite Hget. unfold Spec.updated.
    rewrite bool_decide_eq_true_2 by exact Hin. rewrite Hk, Hw. reflexivity. }
  unfold Main.read_sample, MeasurementPass.main, MeasurementPass.of_material, texture2D.
  cbn [MeasurementPass.valueScale MeasurementPass.samplePosition
       MeasurementPass.pressureTexture MeasurementPass.velocityTexture r g b].
  rewrite (Hprop "pressureTexture" p), (Hprop "velocityTexture" v),
    (Hprop "samplePosition" (Vector2 (Vec2 (max 0 (min 1 px)) (max 0 (min 1 py))))),
    (Hprop "valueScale" (Number Main.VALUE_SCALE));
    try reflexivity; try assumption;
    unfold MeasurementPass.handled;
    repeat first [ apply list_elem_of_here | apply list_elem_of_further ].
Qed.

Lemma truthy_defined (v : value) : Measurements.truthy v = true -> defined v = true.
Proof. destruct v; cbn; congruence. Qed.

Lemma line_loop_returns (s : store) (p v : value) (aspect_x px : Q)
    (indices : list Z) (m : gmap string value) (acc : Measurements.sums) :
  dom m = dom MeasurementPass.constructor ->
  defined p = true -> defined v = true ->
  exists m',
    Measurements.line_loop s p v (px / aspect_x) indices m acc
    = Returned (m', fold_left Measurements.add_sample
                      (map (fun i => Measurements.sample_at s p v
                                       (Measurements.row_position aspect_x px i))
                           indices) acc)
    /\ dom m' = dom m.
Proof.
  intros Hdom Hp Hv. revert m acc Hdom.
  induction indices as [| i rest IH]; intros m acc Hdom; cbn [Measurements.line_loop].
  - exists m. auto.
  - destruct (sample_reading s m p v (px / aspect_x)
                ((inject_Z i + 0.5) / inject_Z Measurements.numSamples) Hdom Hp Hv)
      as (m1 & Hrun & Hdom1).
    rewrite Hrun.
    destruct (IH m1 (Measurements.add_sample acc
                       (Measurements.sample_at s p v
                          (Measurements.row_position aspect_x px i))))
      as (m' & Hloop & Hdom'); [ congruence | ].
    exists m'. split; [ exact Hloop | congruence ].
Qed.

Lemma update_one_returns `{JSMath} (s : store) (p v : value) (aspect_x : Q)
    (pass : gmap string value) (m : Measurements.IMeasurement) :
  dom pass = dom MeasurementPass.constructor ->
  defined p = true -> defined v = true ->
  let smp := Measurements.raw s p v aspect_x m in
  exists pass',
    Measurements.update_one s p v aspect_x pass m
    = Returned (pass', if Measurements.enabled m
                       then Measurements.with_reading m (Main.pressure smp)
                              (Main.velX smp) (Main.velY smp)
                       else m)
    /\ dom pass' = dom pass.
Proof.
  intros Hdom Hp Hv. cbv zeta. unfold Measurements.update_one, Measurements.raw.
  destruct (Measurements.enabled m); cbn [negb].
  - destruct (Measurements.type m).
    + destruct (line_loop_returns s p v aspect_x (Measurements.x m)
                  Measurements.sample_rows pass
                  {| Measurements.pressureSum := 0; Measurements.velXSum := 0;
                     Measurements.velYSum := 0 |} Hdom Hp Hv)
        as (pass' & Hloop & Hdom').
      rewrite Hloop. eauto.
    + destruct (sample_reading s pass p v (Measurements.x m / aspect_x)
                  (Measurements.y m) Hdom Hp Hv) as (pass' & Hrun & Hdom').
      rewrite Hrun. eauto.
  - exists pass. auto.
Qed.

Lemma update_loop_returns `{JSMath} (s : store) (p v : value) (aspect_x : Q)
    (pass : gmap string value) (l : list Measurements.IMeasurement) :
  dom pass = dom MeasurementPass.constructor ->
  defined p = true -> defined v = true ->
  exists pass',
    Measurements.update_loop s p v aspect_x pass l
    = Returned (pass',
                map (fun m =>
                       let smp := Measurements.raw s p v aspect_x m in
                       if Measurements.enabled m
                       then Measurements.with_reading m (Main.pressure smp)
                              (Main.velX smp) (Main.velY smp)
                       else m) l)
    /\ dom pass' = dom pass.
Proof.
  intros Hdom Hp Hv. revert pass Hdom.
  induction l as [| m rest IH]; intros pass Hdom; cbn [Measurements.update_loop map].
  - exists pass. auto.
  - destruct (update_one_returns s p v aspect_x pass m Hdom Hp Hv)
      as (pass1 & Hone & Hdom1).
    rewrite Hone.
    destruct (IH pass1 ltac:(congruence)) as (pass' & Hloop & Hdom').
    rewrite Hloop. exists pass'. split; [ reflexivity | congruence ].
Qed.

(** X19.  updateMeasurements writes readings and nothing else.  On a
    measurement pass that has the constructor's uniforms it returns, with
    as many probes as before; every probe keeps its type, position and
    enabled flag, and a disabled probe is not touched at all.  While the
    pressure or the velocity texture is still undefined the call changes
    nothing: neither a probe nor a uniform of the pass. *)
Theorem update_measurements_frame `{JSMath} (s : store) (p v : value)
    (aspect_x : Q) (pass : gmap string value)
    (measurements : list Measurements.IMeasurement) :
  dom pass = dom MeasurementPass.constructor ->
  exists pass' measurements',
    Measurements.updateMeasurements s p v aspect_x pass measurements
    = Returned (pass', measurements')
    /\ dom pass' = dom pass
    /\ Forall2 (fun m m' =>
                  Measurements.type m' = Measurements.type m
                  /\ Measurements.x m' = Measurements.x m
                  /\ Measurements.y m' = Measurements.y m
                  /\ Measurements.enabled m' = Measurements.enabled m
                  /\ (Measurements.enabled m = false -> m' = m))
         measurements measurements'
    /\ (Measurements.truthy p = false \/ Measurements.truthy v = false ->
        pass' = pass /\ measurements' = measurements).
Proof.
  intros Hdom. unfold Measurements.updateMeasurements.
  assert (Forall2 (fun m m' =>
                     Measurements.type m' = Measurements.type m
                     /\ Measurements.x m' = Measurements.x m
                     /\ Measurements.y m' = Measurements.y m
                     /\ Measurements.enabled m' = Measurements.enabled m
                     /\ (Measurements.enabled m = false -> m' = m))
            measurements measurements) as Hsame.
  { apply Forall2_same_length_lookup_2; [ reflexivity | ].
    intros i m m' Hm Hm'. assert (m' = m) as -> by congruence. auto. }
  destruct (Measurements.truthy p) eqn:Hp; cbn [negb orb];
    [ destruct (Measurements.truthy v) eqn:Hv; cbn [negb] | ];
    [ | exists pass, measurements; auto .. ].
  destruct (update_loop_returns s p v aspect_x pass measurements Hdom
              (truthy_defined p Hp) (truthy_defined v Hv))
    as (pass' & Hrun & Hdom').
  eexists pass', _. split; [ exact Hrun | ]. split; [ exact Hdom' | ]. split.
  - apply Forall2_fmap_r, Forall2_same_length_lookup_2; [ reflexivity | ].
    intros i m m' Hm Hm'. assert (m' = m) as -> by congruence.
    destruct (Measurements.enabled m) eqn:Hen; cbn; rewrite ?Hen; auto.
    repeat split; auto. discriminate.
  - intros [Hfalse | Hfalse]; discriminate Hfalse.
Qed.

Lemma update_measurements_frame_witness :
  exists pass',
    @Measurements.updateMeasurements ProbeExamples.unused_math (fun _ => unbound)
      Undefined Undefined 1 MeasurementPass.constructor Measurements.initial
    = Returned (pass', Measurements.initial).
Proof.
  destruct (@update_measurements_frame ProbeExamples.unused_math (fun _ => unbound)
              Undefined Undefined 1 MeasurementPass.constructor
              Measurements.initial eq_refl)
    as (pass' & l' & Hrun & _ & _ & Hsame).
  destruct (Hsame (or_introl eq_refl)) as [_ ->].
  exists pass'. exact Hrun.
Defined.

Lemma round3_bounds (q : Q) :
  - (1 # 2000) <= Measurements.round3 q - q <= 1 # 2000.
Proof.
  unfold Measurements.round3.
  pose proof (floor_bounds (q * 1000 + 0.5)) as [Hlo Hhi].
  set (z := inject_Z (Qfloor (q * 1000 + 0.5))) in *.
  assert (z / 1000 == z * (1 # 1000)) as E by field.
  rewrite E. lra.
Qed.

Lemma round3_range (q : Q) :
  - (5) <= q <= 5 -> - (5) <= Measurements.round3 q <= 5.
Proof.
  intros [Hlo Hhi]. unfold Measurements.round3.
  assert (- 5000 <= Qfloor (q * 1000 + 0.5) <= 5000)%Z as [Hz0 Hz1].
  { split.
    - change (- 5000)%Z with (Qfloor (- (5) * 1000 + 0.5)).
      apply Qfloor_resp_le. lra.
    - change 5000%Z with (Qfloor (5 * 1000 + 0.5)).
      apply Qfloor_resp_le. lra. }
  rewrite Zle_Qle in Hz0, Hz1.
  set (z := inject_Z (Qfloor (q * 1000 + 0.5))) in *.
  assert (z / 1000 == z * (1 # 1000)) as E by field.
  rewrite E.
  assert (inject_Z (- 5000) == - (5000)) as E0 by reflexivity.
  assert (inject_Z 5000 == 5000) as E1 by reflexivity.
  lra.
Qed.

Lemma reading_bounds (q : Q) :
  - (5) <= Measurements.reading q <= 5
  /\ (- (5) < q < 5 -> - (1 # 51) <= Measurements.reading q - q <= 1 # 51).
Proof.
  split.
  - apply reading_range, clamp01_bounds.
  - apply round_trip_error.
Qed.

(* The three sums of the line probe, one channel at a time. *)
Lemma line_sums (s : store) (p v : value) (pos : Z -> vec2) (rows : list Z)
    (acc : Measurements.sums) :
  let total := fold_left Measurements.add_sample
                 (map (fun i => Measurements.sample_at s p v (pos i)) rows) acc in
  Measurements.pressureSum total
  = fold_left (fun a i => a + Measurements.reading (r (sampler s p (pos i)))) rows
      (Measurements.pressureSum acc)
  /\ Measurements.velXSum total
     = fold_left (fun a i => a + Measurements.reading (r (sampler s v (pos i)))) rows
         (Measurements.velXSum acc)
  /\ Measurements.velYSum total
     = fold_left (fun a i => a + Measurements.reading (g (sampler s v (pos i)))) rows
         (Measurements.velYSum acc).
Proof.
  cbv zeta. revert acc. induction rows as [| i rows IH]; intros acc; cbn [map fold_left].
  - auto.
  - destruct (IH (Measurements.add_sample acc (Measurements.sample_at s p v (pos i))))
      as (E1 & E2 & E3).
    rewrite E1, E2, E3. auto.
Qed.

Lemma sample_rows_eq : Measurements.sample_rows = [0; 1; 2; 3; 4; 5; 6; 7]%Z.
Proof. reflexivity. Qed.

(* One channel of a probe: the rounded reading of a field [f]. *)
Lemma channel_accurate (aspect_x : Q) (m : Measurements.IMeasurement)
    (f : vec2 -> Q) (got : Q) :
  (Measurements.type m = Measurements.point ->
   got = Measurements.reading
           (f (Measurements.probe_position aspect_x (Measurements.x m)
                 (Measurements.y m)))) ->
  (Measurements.type m = Measurements.line ->
   got = fold_left
           (fun a i =>
              a + Measurements.reading
                    (f (Measurements.row_position aspect_x (Measurements.x m) i)))
           Measurements.sample_rows 0
         / inject_Z Measurements.numSamples) ->
  Measurements.accurate aspect_x m (Measurements.round3 got) f.
Proof.
  change (inject_Z Measurements.numSamples) with 8.
  intros Hpoint Hline. pose proof (round3_bounds got) as Hround.
  assert (- (5) <= got <= 5) as Hrange.
  { destruct (Measurements.type m).
    - rewrite (Hline eq_refl), sample_rows_eq. cbn [fold_left].
      repeat match goal with
      | |- context [ Measurements.reading ?q ] =>
          let H := fresh "H" in
          pose proof (proj1 (reading_bounds q)) as H;
          generalize dependent (Measurements.reading q); intros
      end.
      match goal with
      | |- _ <= ?t / 8 <= _ =>
          assert (t / 8 == t * (1 # 8)) as E by field
      end.
      rewrite E. lra.
    - rewrite (Hpoint eq_refl). apply reading_bounds. }
  unfold Measurements.accurate, Measurements.close.
  split; [ apply round3_range, Hrange | ]. split.
  - intros Htype Hin. rewrite (Hpoint Htype) in *.
    pose proof (proj2 (reading_bounds _) Hin). lra.
  - intros Htype Hin. rewrite (Hline Htype) in *. clear Hpoint Hline Hrange.
    unfold Measurements.column_mean.
    change (inject_Z Measurements.numSamples) with 8. rewrite sample_rows_eq in *.
    cbn [fold_left fold_right] in *.
    assert (forall i, (0 <= i < 8)%Z ->
              - (1 # 51)
              <= Measurements.reading
                   (f (Measurements.row_position aspect_x (Measurements.x m) i))
                 - f (Measurements.row_position aspect_x (Measurements.x m) i)
              <= 1 # 51) as Herr.
    { intros i Hi. apply reading_bounds, Hin.
      assert (i = 0 \/ i = 1 \/ i = 2 \/ i = 3 \/ i = 4 \/ i = 5 \/ i = 6 \/ i = 7)%Z
        as Hcases by lia.
      repeat (destruct Hcases as [-> | Hcases];
              [ repeat first [ apply list_elem_of_here | apply list_elem_of_further ] | ]).
      subst i. repeat first [ apply list_elem_of_here | apply list_elem_of_further ]. }
    pose proof (Herr 0%Z ltac:(lia)) as H0. pose proof (Herr 1%Z ltac:(lia)) as H1.
    pose proof (Herr 2%Z ltac:(lia)) as H2. pose proof (Herr 3%Z ltac:(lia)) as H3.
    pose proof (Herr 4%Z ltac:(lia)) as H4. pose proof (Herr 5%Z ltac:(lia)) as H5.
    pose proof (Herr 6%Z ltac:(lia)) as H6. pose proof (Herr 7%Z ltac:(lia)) as H7.
    clear Herr Hin.
    repeat match goal with
    | H : context [ Measurements.reading ?q ] |- _ =>
        generalize dependent (Measurements.reading q); intros
    end.
    repeat match goal with
    | H : context [ f ?q ] |- _ => generalize dependent (f q); intros
    end.
    match goal with
    | |- _ <= _ - ?t / 8 <= _ =>
        assert (t / 8 == t * (1 # 8)) as E by field
    end.
    rewrite E. clear E.
    match goal with
    | Hr : _ <= Measurements.round3 (?t / 8) - _ <= _ |- _ =>
        assert (t / 8 == t * (1 # 8)) as E by field;
        generalize dependent (Measurements.round3 (t / 8));
        intros
    end.
    lra.
Qed.

(** X20.  What an enabled probe shows after updateMeasurements.  Its
    pressure, velocityX and velocityY always lie in [-5, 5].  For a point
    probe each is within 0.0205 of the texture value at the probe's
    position (its x scaled by 1 / aspect.x, the point moved into the unit
    square) whenever that value lies inside (-5, 5); for a line probe each
    is within 0.0205 of the mean of the texture over the eight rows
    y = (i + 0.5) / 8 of its column, whenever the values there lie inside
    (-5, 5).  0.0205 is the step of the 8-bit read-back plus the rounding
    to three decimals. *)
Theorem probe_accuracy `{JSMath} (s : store) (p v : value) (aspect_x : Q)
    (pass : gmap string value) (measurements : list Measurements.IMeasurement) :
  dom pass = dom MeasurementPass.constructor ->
  Measurements.truthy p = true -> Measurements.truthy v = true ->
  exists pass' measurements',
    Measurements.updateMeasurements s p v aspect_x pass measurements
    = Returned (pass', measurements')
    /\ Forall2 (fun m m' =>
                  Measurements.enabled m = true ->
                  Measurements.accurate aspect_x m (Measurements.pressure m')
                    (fun uv => r (sampler s p uv))
                  /\ Measurements.accurate aspect_x m (Measurements.velocityX m')
                       (fun uv => r (sampler s v uv))
                  /\ Measurements.accurate aspect_x m (Measurements.velocityY m')
                       (fun uv => g (sampler s v uv)))
         measurements measurements'.
Proof.
  intros Hdom Hp Hv. unfold Measurements.updateMeasurements.
  rewrite Hp, Hv. cbn [negb orb].
  destruct (update_loop_returns s p v aspect_x pass measurements Hdom
              (truthy_defined p Hp) (truthy_defined v Hv))
    as (pass' & Hrun & _).
  eexists pass', _. split; [ exact Hrun | ].
  apply Forall2_fmap_r, Forall2_same_length_lookup_2; [ reflexivity | ].
  intros i m m' Hm Hm' Hen. assert (m' = m) as -> by congruence. clear Hm Hm'.
  rewrite Hen. cbn [Measurements.with_reading Measurements.pressure
                    Measurements.velocityX Measurements.velocityY].
  unfold Measurements.raw.
  destruct (line_sums s p v (Measurements.row_position aspect_x (Measurements.x m))
              Measurements.sample_rows
              {| Measurements.pressureSum := 0; Measurements.velXSum := 0;
                 Measurements.velYSum := 0 |}) as (E1 & E2 & E3).
  cbn [Measurements.pressureSum Measurements.velXSum Measurements.velYSum] in E1, E2, E3.
  split; [ | split ]; apply channel_accurate; intros Htype; rewrite Htype;
    cbn [Main.pressure Main.velX Main.velY Measurements.sample_at];
    rewrite ?E1, ?E2, ?E3; reflexivity.
Qed.

Lemma probe_accuracy_witness :
  exists pass' m',
    @Measurements.updateMeasurements ProbeExamples.unused_math ProbeExamples.unit_pressure
      (Tex (Image 0)) (Tex (Image 1)) 1 MeasurementPass.constructor
      [ProbeExamples.point_probe]
    = Returned (pass', [m'])
    /\ - (5) <= Measurements.pressure m' <= 5.
Proof.
  destruct (@probe_accuracy ProbeExamples.unused_math ProbeExamples.unit_pressure
              (Tex (Image 0)) (Tex (Image 1)) 1 MeasurementPass.constructor
              [ProbeExamples.point_probe] eq_refl eq_refl eq_refl)
    as (pass' & l' & Hrun & Hrel).
  apply Forall2_cons_inv_l in Hrel as (m' & rest & Hm & Hrest & ->).
  apply Forall2_nil_inv_l in Hrest as ->.
  exists pass', m'. split; [ exact Hrun | ].
  destruct (Hm eq_refl) as [[Hrange _] _]. exact Hrange.
Defined.

Lemma addLine_bound (l : list Measurements.IMeasurement) :
  (length l <= Measurements.MAX_MEASUREMENTS)%nat ->
  (length (Measurements.addLine l) <= Measurements.MAX_MEASUREMENTS)%nat.
Proof.
  intros Hl. unfold Measurements.addLine.
  destruct (Nat.ltb_spec (length l) Measurements.MAX_MEASUREMENTS); [ | exact Hl ].
  rewrite length_app. cbn [length]. unfold Measurements.MAX_MEASUREMENTS in *. lia.
Qed.

Lemma addPoint_bound (l : list Measurements.IMeasurement) :
  (length l <= Measurements.MAX_MEASUREMENTS)%nat ->
  (length (Measurements.addPoint l) <= Measurements.MAX_MEASUREMENTS)%nat.
Proof.
  intros Hl. unfold Measurements.addPoint.
  destruct (Nat.ltb_spec (length l) Measurements.MAX_MEASUREMENTS); [ | exact Hl ].
  rewrite length_app. cbn [length]. unfold Measurements.MAX_MEASUREMENTS in *. lia.
Qed.

Lemma update_loop_length `{JSMath} (s : store) (p v : value) (aspect_x : Q)
    (pass : gmap string value) (l : list Measurements.IMeasurement) :
  length (snd (state_of (Measurements.update_loop s p v aspect_x pass l))) = length l.
Proof.
  revert pass. induction l as [| m rest IH]; intros pass;
    cbn [Measurements.update_loop]; [ reflexivity | ].
  destruct (Measurements.update_one s p v aspect_x pass m) as [[pass1 m1] | [pass1 m1]];
    [ | reflexivity ].
  specialize (IH pass1).
  destruct (Measurements.update_loop s p v aspect_x pass1 rest)
    as [[pass' rest'] | [pass' rest']]; cbn in *; rewrite IH; reflexivity.
Qed.

(** X21.  The list of probes never grows beyond MAX_MEASUREMENTS = 8,
    whatever sequence of Add Line, Add Point, Remove, edits of a probe and
    calls of updateMeasurements the session makes, starting from the two
    line probes of the module; the two add actions do nothing on a full
    list, and updateMeasurements never changes the number of probes, not
    even when a call of it throws. *)
Theorem measurements_bounded `{JSMath} (l : list Measurements.IMeasurement) :
  Measurements.reachable l ->
  (length l <= Measurements.MAX_MEASUREMENTS)%nat
  /\ (length l = Measurements.MAX_MEASUREMENTS ->
      Measurements.addLine l = l /\ Measurements.addPoint l = l)
  /\ forall s p v aspect_x pass,
       length (snd (state_of
                      (Measurements.updateMeasurements s p v aspect_x pass l)))
       = length l.
Proof.
  intros Hreach. split; [ | split ].
  - induction Hreach as [| l l' _ IH Hstep];
      [ unfold Measurements.MAX_MEASUREMENTS; cbn; lia | ].
    destruct Hstep as [l | l | i l | l l' Hlen | s p v aspect_x pass l].
    + apply addLine_bound, IH.
    + apply addPoint_bound, IH.
    + unfold Measurements.remove.
      rewrite delete_take_drop, length_app, length_take, length_drop. lia.
    + rewrite Hlen. exact IH.
    + unfold Measurements.updateMeasurements.
      destruct (_ || _); [ exact IH | ]. rewrite update_loop_length. exact IH.
  - intros Hfull. unfold Measurements.addLine, Measurements.addPoint.
    rewrite Hfull, Nat.ltb_irrefl. auto.
  - intros s p v aspect_x pass. unfold Measurements.updateMeasurements.
    destruct (_ || _); [ reflexivity | apply update_loop_length ].
Qed.

Lemma measurements_bounded_witness :
  (length (Measurements.addPoint (Measurements.addLine Measurements.initial))
   <= Measurements.MAX_MEASUREMENTS)%nat.
Proof.
  apply (@measurements_bounded ProbeExamples.unused_math).
  eapply Measurements.reach_step; [ eapply Measurements.reach_step | ].
  - apply Measurements.reach_initial.
  - apply Measurements.step_addLine.
  - apply Measurements.step_addPoint.
Defined.

(** ** The velocity field encoder *)

(** X22.  VelocityFieldPass and MeasurementPass agree with the decoder of
    the main module.  Both constructors set valueScale to the VALUE_SCALE
    = 10 that sampleAtPosition decodes with; with equal scales the red and
    green channels VelocityFieldPass writes at a fragment are the green and
    blue channels MeasurementPass writes for that sample position; every
    channel it writes lies in [0, 1]; and decoding its 8-bit output gives
    back each velocity component of magnitude below 5 within 0.02. *)
Theorem velocity_field_round_trip (s : store) (uv : vec2) :
  let u := VelocityField.of_material s VelocityFieldPass.constructor in
  let probe := MeasurementPass.of_material s MeasurementPass.constructor in
  (VelocityField.valueScale u = Main.VALUE_SCALE
   /\ MeasurementPass.valueScale probe = Main.VALUE_SCALE)
  /\ (forall (vel pressure : sampler2D) (scale : Q),
        let field := VelocityField.main
                       {| VelocityField.velocity := vel;
                          VelocityField.valueScale := scale |} uv in
        let pixel := MeasurementPass.main
                       {| MeasurementPass.pressureTexture := pressure;
                          MeasurementPass.velocityTexture := vel;
                          MeasurementPass.samplePosition := uv;
                          MeasurementPass.valueScale := scale |} (Vec2 0.5 0.5) in
        r field = g pixel /\ g field = b pixel
        /\ 0 <= r field <= 1 /\ 0 <= g field <= 1 /\ b field == 0 /\ a field == 1)
  /\ (forall vel : sampler2D,
        let field := VelocityField.main
                       {| VelocityField.velocity := vel;
                          VelocityField.valueScale := Main.VALUE_SCALE |} uv in
        (- (5) < r (vel uv) < 5 ->
         - (0.02) <= Main.decode (Main.to_byte (r field)) - r (vel uv) <= 0.02)
        /\ (- (5) < g (vel uv) < 5 ->
            - (0.02) <= Main.decode (Main.to_byte (g field)) - g (vel uv) <= 0.02)).
Proof.
  cbv zeta. split; [ split; reflexivity | ]. split.
  - intros vel pressure scale.
    unfold VelocityField.main, MeasurementPass.main, MeasurementPass.encode, texture2D.
    cbn [r g b a VelocityField.velocity VelocityField.valueScale
         MeasurementPass.velocityTexture MeasurementPass.samplePosition
         MeasurementPass.valueScale].
    split; [ reflexivity | ]. split; [ reflexivity | ].
    split; [ apply clamp01_bounds | ]. split; [ apply clamp01_bounds | ].
    split; reflexivity.
  - intros vel. unfold VelocityField.main, texture2D.
    cbn [r g VelocityField.velocity VelocityField.valueScale].
    split; intros Hrange; pose proof (round_trip_error _ Hrange) as Herr;
      unfold MeasurementPass.encode in Herr; lra.
Qed.

Lemma velocity_field_round_trip_witness :
  - (0.02)
  <= Main.decode
       (Main.to_byte
          (r (VelocityField.main
                {| VelocityField.velocity := Examples.diagonal;
                   VelocityField.valueScale := Main.VALUE_SCALE |}
                Examples.inner_cell))) - 1
  <= 0.02.
Proof.
  destruct (velocity_field_round_trip (fun _ => unbound) Examples.inner_cell)
    as (_ & _ & Hback).
  destruct (Hback Examples.diagonal) as [Hx _].
  apply Hx. cbn. lra.
Defined.
